(** * schematools: property paths, schema traversal and the schema registry

    A shallow embedding of [src/paths.ts], [src/schemas.ts] and
    [src/registry.ts].

    JavaScript objects are mutable and compared by identity, so a schema is
    not a tree here: it is an address into a store of schema nodes, and a
    property, an [items] entry or a composition alternative is again an
    address.  Recursive functions of the source that need not terminate take
    a fuel argument and answer [OutOfFuel] when it runs out. *)

From Stdlib Require Import String Ascii ZArith List Bool Lia DecimalString.
From stdpp Require Import gmap strings list.

Local Open Scope string_scope.
Local Open Scope Z_scope.
Local Open Scope list_scope.

Set Warnings "-register-all,-clear-no-such-hyp".

(** ** JavaScript values that the code looks at *)

(** A JavaScript number as far as paths use them: an integer, or the [NaN]
    that [parseInt] answers on text that does not start with a digit.  The
    integers are exact here; the code's numbers are doubles, which agree
    with them in magnitude up to 2^53, and which [String(n)] prints digit
    by digit below 10^21. *)
Inductive jsnum : Type :=
  | Int (z : Z)
  | NaN.

Definition jsnum_eqb (a b : jsnum) : bool :=
  match a, b with
  | Int x, Int y => Z.eqb x y
  | _, _ => false   (* NaN == anything is false *)
  end.

(** [String(n)] for an integer or [NaN]. *)
Definition number_to_string (n : jsnum) : string :=
  match n with
  | Int z => NilZero.string_of_int (Z.to_int z)
  | NaN => "NaN"
  end.

(** Truthiness of a string-valued field that may be absent. *)
Definition truthy (o : option string) : bool :=
  match o with
  | Some s => negb (String.eqb s "")
  | None => false
  end.

Module Paths.

(** *** Path segments: [(string | number)[]] *)

Inductive segment : Type :=
  | Key (s : string)
  | Num (n : jsnum).

Definition PropertyPathArray := list segment.

(** [PropertyPath = PropertyPathStr | PropertyPathArray] *)
Inductive PropertyPath : Type :=
  | PathStr (s : string)
  | PathArr (a : PropertyPathArray).

(** The wildcard index is the number -1. *)
Definition wildcard : segment := Num (Int (-1)).

(** *** The regular expression of [dottedPathToArray]

    The pattern is anchored at both ends and reads: any text without an
    opening bracket (group 1), an opening bracket, either one or more
    decimal digits or a star (group 2), a closing bracket, an optional dot,
    and the rest of the text (group 3).  Group 1 cannot contain an opening
    bracket, so it is the text before the first one; the rest must hold no
    line terminator, which the pattern's dot does not match. *)

Definition is_digit (c : ascii) : bool :=
  let n := nat_of_ascii c in (48 <=? n)%nat && (n <=? 57)%nat.

Definition is_line_terminator (c : ascii) : bool :=
  let n := nat_of_ascii c in (n =? 10)%nat || (n =? 13)%nat.

Fixpoint split_bracket (s : string) : option (string * string) :=
  match s with
  | EmptyString => None
  | String c r =>
      if Ascii.eqb c "[" then Some (EmptyString, r)
      else match split_bracket r with
           | Some (p, q) => Some (String c p, q)
           | None => None
           end
  end.

Fixpoint take_digits (s : string) : string * string :=
  match s with
  | EmptyString => (EmptyString, EmptyString)
  | String c r =>
      if is_digit c then let '(d, q) := take_digits r in (String c d, q)
      else (EmptyString, s)
  end.

(** Group 2 and the closing bracket. *)
Definition match_index (s : string) : option (string * string) :=
  match take_digits s with
  | (String c d, String b r) =>
      if Ascii.eqb b "]" then Some (String c d, r) else None
  | (EmptyString, String a (String b r)) =>
      if Ascii.eqb a "*" && Ascii.eqb b "]" then Some ("*", r) else None
  | _ => None
  end.

Fixpoint no_line_terminator (s : string) : bool :=
  match s with
  | EmptyString => true
  | String c r => negb (is_line_terminator c) && no_line_terminator r
  end.

(** The three groups of a match, or [None] when the text does not match. *)
Definition path_regex_match (tail : string) : option (string * string * string) :=
  match split_bracket tail with
  | None => None
  | Some (m1, r1) =>
      match match_index r1 with
      | None => None
      | Some (m2, r2) =>
          let m3 := match r2 with
                    | String c r => if Ascii.eqb c "." then r else r2
                    | EmptyString => r2
                    end in
          if no_line_terminator m3 then Some (m1, m2, m3) else None
      end
  end.

(** *** [parseInt] with no radix argument *)

Definition is_js_whitespace (c : ascii) : bool :=
  let n := nat_of_ascii c in
  (n =? 9)%nat || (n =? 10)%nat || (n =? 11)%nat || (n =? 12)%nat
  || (n =? 13)%nat || (n =? 32)%nat || (n =? 160)%nat.

Fixpoint trim_start (s : string) : string :=
  match s with
  | String c r => if is_js_whitespace c then trim_start r else s
  | EmptyString => s
  end.

Definition digit_value (radix : Z) (c : ascii) : option Z :=
  let n := Z.of_nat (nat_of_ascii c) in
  let v := if (48 <=? n) && (n <=? 57) then Some (n - 48)
           else if (97 <=? n) && (n <=? 122) then Some (n - 87)
           else if (65 <=? n) && (n <=? 90) then Some (n - 55)
           else None in
  match v with
  | Some d => if d <? radix then Some d else None
  | None => None
  end.

(** The longest prefix of digits; [None] when there is no digit at all. *)
Fixpoint parse_digits (radix : Z) (s : string) (acc : option Z) : option Z :=
  match s with
  | EmptyString => acc
  | String c r =>
      match digit_value radix c with
      | Some d => parse_digits radix r (Some (radix * default 0 acc + d))
      | None => acc
      end
  end.

Definition parseInt (s : string) : jsnum :=
  let s1 := trim_start s in
  let '(sign, s2) :=
    match s1 with
    | String c r =>
        if Ascii.eqb c "-" then (-1, r)
        else if Ascii.eqb c "+" then (1, r) else (1, s1)
    | EmptyString => (1, s1)
    end in
  let '(radix, s3) :=
    match s2 with
    | String z (String x r) =>
        if Ascii.eqb z "0" && (Ascii.eqb x "x" || Ascii.eqb x "X")
        then (16, r) else (10, s2)
    | _ => (10, s2)
    end in
  match parse_digits radix s3 None with
  | Some v => Int (sign * v)
  | None => NaN
  end.

(** *** [dottedPathToArray] *)

(** The [while (tail.length > 0)] loop.  Every turn that matches drops at
    least the bracketed index from [tail], so [String.length tail] turns
    are enough ([dottedPathToArray_loop_fuel] below). *)
Fixpoint dottedPathToArray_loop (fuel : nat) (tail : string)
    (pathArray : PropertyPathArray) : PropertyPathArray :=
  match fuel with
  | O => pathArray
  | S fuel' =>
      if String.eqb tail "" then pathArray
      else
        match path_regex_match tail with
        | None => pathArray ++ [Key tail]
        | Some (m1, m2, m3) =>
            (* match[1] != null holds for every match *)
            let pushed1 := pathArray ++ [Key m1] in
            let pushed2 :=
              if String.eqb m2 "*" then pushed1 ++ [Num (Int (-1))]
              else pushed1 ++ [Num (parseInt m1)] in
            dottedPathToArray_loop fuel' m3 pushed2
        end
  end.

Definition dottedPathToArray (path : string) : PropertyPathArray :=
  dottedPathToArray_loop (String.length path) path [].

(** *** [arrayToDottedPath] *)

(** How [Array.prototype.join] prints an element. *)
Definition segment_to_string (e : segment) : string :=
  match e with
  | Key s => s
  | Num n => number_to_string n
  end.

Definition render_segment (pathElement : segment) : string :=
  match pathElement with
  | Num n =>
      "[" +:+ (if jsnum_eqb n (Int (-1)) then "*" else number_to_string n) +:+ "]"
  | Key s => "." +:+ s
  end.

Definition arrayToDottedPath (pathArray : PropertyPathArray) : string :=
  match pathArray with
  | [] => ""
  | firstElement :: rest =>
      String.concat "" (segment_to_string firstElement :: map render_segment rest)
  end.

Definition propertyPathToArray (path : PropertyPath) : PropertyPathArray :=
  match path with
  | PathStr s => dottedPathToArray s
  | PathArr a => a
  end.

Definition propertyPathToDottedPath (path : PropertyPath) : string :=
  match path with
  | PathArr a => arrayToDottedPath a
  | PathStr s => s
  end.

Definition pathDepth (path : PropertyPath) : Z :=
  Z.of_nat (length (propertyPathToArray path)).

End Paths.

Import Paths.

(** ** Results of code that may throw or run forever *)

Inductive exn : Type :=
  | SchemaError (message : string)
  | TypeError.

Inductive outcome (A : Type) : Type :=
  | Return (a : A)
  | Throw (e : exn)
  | OutOfFuel.
Arguments Return {A} a.
Arguments Throw {A} e.
Arguments OutOfFuel {A}.

#[export] Instance outcome_ret : MRet outcome := fun A a => Return a.
#[export] Instance outcome_bind : MBind outcome := fun A B f m =>
  match m with
  | Return a => f a
  | Throw e => Throw e
  | OutOfFuel => OutOfFuel
  end.

(** [acc = acc.concat(f(x))] for each [x], stopping at the first throw. *)
Fixpoint concat_each {A B : Type} (f : A -> outcome (list B)) (l : list A)
    (acc : list B) : outcome (list B) :=
  match l with
  | [] => Return acc
  | x :: rest => r ← f x; concat_each f rest (acc ++ r)
  end.

Module Schemas.

(** *** Schema nodes and the store *)

Definition loc := nat.

(** The keys of a schema object that the code reads.  [properties] lists
    the entries in the order [_.keys] enumerates them; an absent
    [properties] and an empty one are read alike everywhere. *)
Record SchemaNode : Type := mkSchemaNode {
  ref : option string;              (* $ref *)
  type : option string;
  properties : list (string * loc);
  items : option loc;
  allOf : option (list loc);
  oneOf : option (list loc);
  required : option (list string);
  transient : option bool;
  entityType : option string;
  storage : option string;
  foreignKey : option string
}.

(** The object [{}]. *)
Definition emptyNode : SchemaNode :=
  mkSchemaNode None None [] None None None None None None None None.

#[export] Instance SchemaNode_inhabited : Inhabited SchemaNode := populate emptyNode.

(** The objects in memory.  [h !!! l] is the object at address [l]. *)
Abbreviation store := (gmap loc SchemaNode).

Definition SchemaRefResolver := string -> option loc.

(** [schema.$ref] when it is truthy. *)
Definition truthy_ref (n : SchemaNode) : option string :=
  if truthy (ref n) then ref n else None.

Definition set_allOf (n : SchemaNode) (a : list loc) : SchemaNode :=
  mkSchemaNode (ref n) (type n) (properties n) (items n) (Some a) (oneOf n)
    (required n) (transient n) (entityType n) (storage n) (foreignKey n).

(** [_.reverse(schema.allOf)] reverses the array in place.  The array is
    taken to belong to the one node that holds it. *)
Definition reverse_allOf (h : store) (schema : loc) (arr : list loc) : store :=
  <[schema := set_allOf (h !!! schema) (rev arr)]> h.

Fixpoint lookup_property (props : list (string * loc)) (k : string) : option loc :=
  match props with
  | [] => None
  | (k', v) :: rest => if String.eqb k' k then Some v else lookup_property rest k
  end.

(** The key that [_.get] makes of a path element. *)
Definition segment_key (e : segment) : string := segment_to_string e.

Definition isInteger (e : option segment) : bool :=
  match e with
  | Some (Num (Int _)) => true
  | _ => false
  end.

(** The cases of [switch (schema.type)]. *)
Inductive typeCase : Type :=
  | CaseObject
  | CaseArray
  | CaseDefault.

Definition switchType (n : SchemaNode) : typeCase :=
  match type n with
  | Some t =>
      if String.eqb t "object" then CaseObject
      else if String.eqb t "array" then CaseArray
      else CaseDefault
  | None => CaseDefault
  end.

(** What [findPropertyInSchema] answers: a schema, [null] or [undefined]. *)
Inductive found : Type :=
  | Found (schema : loc)
  | Null
  | Undefined.

Definition found_truthy (r : found) : bool :=
  match r with
  | Found _ => true
  | _ => false
  end.

(** The property name that a path element is turned into; [undefined]
    becomes the text "undefined". *)
Definition property_key (e : option segment) : string :=
  match e with
  | Some e => segment_key e
  | None => "undefined"
  end.

(** [_.get(schema, ['properties', key], null)] *)
Definition get_property (n : SchemaNode) (e : option segment) : found :=
  match lookup_property (properties n) (property_key e) with
  | Some l => Found l
  | None => Null
  end.

(** *** [findPropertyInSchema] *)

(** [while (schemaOption && schemaOption.$ref) schemaOption = resolveSchemaRef(...)] *)
Fixpoint resolveOption (fuel : nat) (h : store) (resolveSchemaRef : SchemaRefResolver)
    (schemaOption : option loc) : outcome (option loc) :=
  match fuel with
  | O => OutOfFuel
  | S fuel' =>
      match schemaOption with
      | None => Return None
      | Some l =>
          match truthy_ref (h !!! l) with
          | Some r => resolveOption fuel' h resolveSchemaRef (resolveSchemaRef r)
          | None => Return (Some l)
          end
      end
  end.

(** The function answers with the store it leaves behind.  [findInOptions]
    is the [for ... of] loop over the alternatives, at index [i] of the
    array as it is in the store at that moment. *)
Fixpoint findPropertyInSchema (fuel : nat) (h : store) (schema : loc)
    (path : PropertyPath) (resolveSchemaRef : SchemaRefResolver) {struct fuel}
    : outcome (found * store) :=
  match fuel with
  | O => OutOfFuel
  | S fuel' =>
      let pathArr := propertyPathToArray path in
      let node := h !!! schema in
      match truthy_ref node with
      | Some r =>
          match resolveSchemaRef r with
          | None => Return (Undefined, h)
          | Some referencedSchema =>
              findPropertyInSchema fuel' h referencedSchema (PathArr pathArr) resolveSchemaRef
          end
      | None =>
          if (length pathArr =? 0)%nat then Return (Found schema, h)
          else
            match allOf node, oneOf node with
            | Some arr, _ =>
                findInOptions fuel' (reverse_allOf h schema arr) allOf schema 0 pathArr
                  resolveSchemaRef
            | None, Some _ =>
                findInOptions fuel' h oneOf schema 0 pathArr resolveSchemaRef
            | None, None =>
                match switchType node with
                | CaseObject =>
                    let subschema := get_property node (head pathArr) in
                    match subschema with
                    | Found sub =>
                        if (length pathArr =? 1)%nat then Return (subschema, h)
                        else findPropertyInSchema fuel' h sub (PathArr (tail pathArr))
                               resolveSchemaRef
                    | _ => Return (subschema, h)
                    end
                | CaseArray =>
                    if negb (isInteger (head pathArr)) then Return (Undefined, h)
                    else
                      match items node with
                      | None => Return (Undefined, h)
                      | Some sub =>
                          findPropertyInSchema fuel' h sub (PathArr (tail pathArr))
                            resolveSchemaRef
                      end
                | _ => Return (Undefined, h)
                end
            end
      end
  end
with findInOptions (fuel : nat) (h : store) (options : SchemaNode -> option (list loc))
    (schema : loc) (i : nat) (pathArr : PropertyPathArray)
    (resolveSchemaRef : SchemaRefResolver) {struct fuel} : outcome (found * store) :=
  match fuel with
  | O => OutOfFuel
  | S fuel' =>
      match default [] (options (h !!! schema)) !! i with
      | None => Return (Undefined, h)
      | Some schemaOption =>
          o ← resolveOption fuel' h resolveSchemaRef (Some schemaOption);
          match o with
          | None => findInOptions fuel' h options schema (S i) pathArr resolveSchemaRef
          | Some opt =>
              '(result, h1) ← findPropertyInSchema fuel' h opt (PathArr pathArr) resolveSchemaRef;
              if found_truthy result then Return (result, h1)
              else findInOptions fuel' h1 options schema (S i) pathArr resolveSchemaRef
          end
      end
  end.

(** *** [findRelationshipsInSchema] *)

Record Relationship : Type := mkRelationship {
  rel_path : string;
  rel_toMany : bool;
  rel_storage : string;
  rel_entityTypeName : option string;
  rel_schemaRef : option string;
  rel_schema : loc;
  rel_foreignKeyPath : option string;
  rel_depthFromParent : Z
}.

(** [Partial<Relationship>] as far as the code fills it.  A key is absent
    ([None]) or present, and a present key may hold [undefined]
    ([Some None]). *)
Record RelationshipProperties : Type := mkRelationshipProperties {
  rp_entityTypeName : option (option string);
  rp_foreignKeyPath : option (option string);
  rp_schemaRef : option (option string);
  rp_storage : option (option string)
}.

(** The object literal built from a node: all four keys are written. *)
Definition relationshipPropertiesOf (n : SchemaNode) : RelationshipProperties :=
  mkRelationshipProperties (Some (entityType n)) (Some (foreignKey n))
    (Some (ref n)) (Some (storage n)).

(** [{...below, ...above}]: every key present in [above] wins. *)
Definition spread (below above : RelationshipProperties) : RelationshipProperties :=
  let pick (a b : option (option string)) :=
    match a with Some v => Some v | None => b end in
  mkRelationshipProperties
    (pick (rp_entityTypeName above) (rp_entityTypeName below))
    (pick (rp_foreignKeyPath above) (rp_foreignKeyPath below))
    (pick (rp_schemaRef above) (rp_schemaRef below))
    (pick (rp_storage above) (rp_storage below)).

(** Reading a key: an absent key reads as [undefined]. *)
Definition read (k : option (option string)) : option string :=
  match k with
  | Some v => v
  | None => None
  end.

(** The [while (schema.$ref)] loop; [None] is its [return []]. *)
Fixpoint followRefs (fuel : nat) (h : store) (resolveSchemaRef : SchemaRefResolver)
    (schema : loc) (relationshipProperties : RelationshipProperties)
    : outcome (option (loc * RelationshipProperties)) :=
  match fuel with
  | O => OutOfFuel
  | S fuel' =>
      match truthy_ref (h !!! schema) with
      | None => Return (Some (schema, relationshipProperties))
      | Some r =>
          match resolveSchemaRef r with
          | None => Return None
          | Some referencedSchema =>
              followRefs fuel' h resolveSchemaRef referencedSchema
                (spread (relationshipPropertiesOf (h !!! referencedSchema))
                   relationshipProperties)
          end
      end
  end.

Definition includes (l : list string) (s : string) : bool :=
  existsb (String.eqb s) l.

Definition includes_node (l : list loc) (x : loc) : bool :=
  existsb (Nat.eqb x) l.

(** [limitToPath ? propertyPathToArray(limitToPath) : undefined]: the empty
    string is falsy, the empty array is not. *)
Definition limitToPathArrOf (limitToPath : option PropertyPath) : option PropertyPathArray :=
  match limitToPath with
  | Some (PathStr s) => if String.eqb s "" then None else Some (dottedPathToArray s)
  | Some (PathArr a) => Some a
  | None => None
  end.

(** The properties that the [object] case walks through. *)
Definition propertiesToTraverse (n : SchemaNode) (limitToPathArr : option PropertyPathArray)
    : list (string * loc) :=
  match limitToPathArr with
  | None => properties n
  | Some (Key propertyToTraverse :: _) =>
      match lookup_property (properties n) propertyToTraverse with
      | Some sub => [(propertyToTraverse, sub)]
      | None => []
      end
  | Some _ => []
  end.

Definition missingForeignKey : exn :=
  SchemaError "Missing foreign key path in relationship with storage type inverse-ref".

(** The relationship of the current node, if it is one. *)
Definition relationshipAt (relationshipProperties : RelationshipProperties)
    (allowedStorage : option (list string)) (currentPathArr : PropertyPathArray)
    (schema : loc) (depthFromParent : Z) : outcome (list Relationship) :=
  match read (rp_storage relationshipProperties) with
  | Some st =>
      if truthy (Some st)
         && match allowedStorage with
            | None => true
            | Some allowed => includes allowed st
            end
      then
        let relationship fk :=
          mkRelationship (propertyPathToDottedPath (PathArr currentPathArr)) false st
            (read (rp_entityTypeName relationshipProperties))
            (read (rp_schemaRef relationshipProperties))
            schema fk depthFromParent in
        if String.eqb st "inverse-ref" then
          if negb (truthy (read (rp_foreignKeyPath relationshipProperties)))
          then Throw missingForeignKey
          else Return [relationship (read (rp_foreignKeyPath relationshipProperties))]
        else Return [relationship None]
      else Return []
  | None => Return []
  end.

Definition relationshipIsReference (relationshipProperties : RelationshipProperties) : bool :=
  match read (rp_storage relationshipProperties) with
  | Some st => truthy (Some st) && includes ["ref"; "inverse-ref"] st
  | None => false
  end.

(** The depth guards: [true] when the traversal stops here with [[]]. *)
Definition stopTraversal (maxDepth : option Z) (currentPathArr : PropertyPathArray)
    (nodesTraversedInPath : list loc) (schema : loc) : bool :=
  match maxDepth with
  | None => includes_node nodesTraversedInPath schema
  | Some m => pathDepth (PathArr currentPathArr) >? m
  end.

Fixpoint findRelationshipsInSchema (fuel : nat) (h : store) (schema : loc)
    (resolveSchemaRef : SchemaRefResolver) (allowedStorage : option (list string))
    (limitToPath : option PropertyPath) (maxDepth : option Z)
    (currentPath : PropertyPath) (nodesTraversedInPath : list loc)
    (depthFromParent : Z) {struct fuel} : outcome (list Relationship) :=
  match fuel with
  | O => OutOfFuel
  | S fuel' =>
      let currentPathArr := propertyPathToArray currentPath in
      let limitToPathArr := limitToPathArrOf limitToPath in
      followed ← followRefs fuel' h resolveSchemaRef schema
                   (relationshipPropertiesOf (h !!! schema));
      match followed with
      | None => Return []
      | Some (schema, relationshipProperties) =>
          relationships ← relationshipAt relationshipProperties allowedStorage
                            currentPathArr schema depthFromParent;
          if stopTraversal maxDepth currentPathArr nodesTraversedInPath schema
          then Return []
          else
            let node := h !!! schema in
            let visit sub lim path depth :=
              findRelationshipsInSchema fuel' h sub resolveSchemaRef allowedStorage
                lim maxDepth (PathArr path) (nodesTraversedInPath ++ [schema]) depth in
            match (match allOf node with Some a => Some a | None => oneOf node end) with
            | Some schemaOptions =>
                concat_each
                  (fun schemaOption =>
                     visit schemaOption (PathArr <$> limitToPathArr) currentPathArr
                       depthFromParent)
                  schemaOptions relationships
            | None =>
                match switchType node with
                | CaseObject =>
                    concat_each
                      (fun '(property, subschema) =>
                         visit subschema (PathArr <$> (tail <$> limitToPathArr))
                           (currentPathArr ++ [Key property])
                           (if relationshipIsReference relationshipProperties
                            then 0 else depthFromParent + 1))
                      (propertiesToTraverse node limitToPathArr) relationships
                | CaseArray =>
                    match limitToPathArr, items node with
                    | Some [], _ => Return relationships
                    | _, None => Return relationships
                    | _, Some itemsSchema =>
                        r ← visit itemsSchema (PathArr <$> (tail <$> limitToPathArr))
                              (currentPathArr ++ [wildcard]) (depthFromParent + 1);
                        Return (relationships ++ r)
                    end
                | _ => Return relationships
                end
            end
      end
  end.

(** *** [findTransientPropertiesInSchema] *)

(** The [while (schema.$ref)] loop with the local variable [transient]. *)
Fixpoint followRefsTransient (fuel : nat) (h : store) (resolveSchemaRef : SchemaRefResolver)
    (schema : loc) (transient_ : option bool) : outcome (option (loc * option bool)) :=
  match fuel with
  | O => OutOfFuel
  | S fuel' =>
      match truthy_ref (h !!! schema) with
      | None => Return (Some (schema, transient_))
      | Some r =>
          match resolveSchemaRef r with
          | None => Return None
          | Some referencedSchema =>
              followRefsTransient fuel' h resolveSchemaRef referencedSchema
                (match transient_ with
                 | None => transient (h !!! referencedSchema)
                 | Some _ => transient_
                 end)
          end
      end
  end.

Fixpoint findTransientPropertiesInSchema (fuel : nat) (h : store) (schema : loc)
    (resolveSchemaRef : SchemaRefResolver) (limitToPath : option PropertyPath)
    (maxDepth : option Z) (currentPath : PropertyPath)
    (nodesTraversedInPath : list loc) {struct fuel} : outcome (list string) :=
  match fuel with
  | O => OutOfFuel
  | S fuel' =>
      let currentPathArr := propertyPathToArray currentPath in
      let limitToPathArr := limitToPathArrOf limitToPath in
      followed ← followRefsTransient fuel' h resolveSchemaRef schema
                   (transient (h !!! schema));
      match followed with
      | None => Return []
      | Some (schema, transient_) =>
          (* the local [transient_] is not read again: the test below is
             on [schema.transient] *)
          if stopTraversal maxDepth currentPathArr nodesTraversedInPath schema
          then Return []
          else
            let node := h !!! schema in
            let transientPropertyPaths :=
              if pathDepth (PathArr currentPathArr) =? 0 then []
              else if default false (transient node)
                   then [propertyPathToDottedPath (PathArr currentPathArr)] else [] in
            let visit sub lim path :=
              findTransientPropertiesInSchema fuel' h sub resolveSchemaRef lim maxDepth
                (PathArr path) (nodesTraversedInPath ++ [schema]) in
            match (match allOf node with Some a => Some a | None => oneOf node end) with
            | Some schemaOptions =>
                concat_each
                  (fun schemaOption =>
                     visit schemaOption (PathArr <$> limitToPathArr) currentPathArr)
                  schemaOptions transientPropertyPaths
            | None =>
                match switchType node with
                | CaseObject =>
                    concat_each
                      (fun '(property, subschema) =>
                         visit subschema (PathArr <$> (tail <$> limitToPathArr))
                           (currentPathArr ++ [Key property]))
                      (propertiesToTraverse node limitToPathArr) transientPropertyPaths
                | CaseArray =>
                    match limitToPathArr, items node with
                    | Some [], _ => Return transientPropertyPaths
                    | _, None => Return transientPropertyPaths
                    | _, Some itemsSchema =>
                        r ← visit itemsSchema (PathArr <$> (tail <$> limitToPathArr))
                              (currentPathArr ++ [wildcard]);
                        Return (transientPropertyPaths ++ r)
                    end
                | _ => Return transientPropertyPaths
                end
            end
      end
  end.

(** *** [propertyIsRequiredInSchema] *)

(** What the function answers: a boolean, or [undefined] when control runs
    off its end. *)
Inductive answer : Type :=
  | JsBool (b : bool)
  | JsUndefined.

Definition answer_truthy (a : answer) : bool :=
  match a with
  | JsBool b => b
  | JsUndefined => false
  end.

(** [(schema.required || []).includes(pathArr[0])]: a number is never equal
    to a property name. *)
Definition requiredIncludes (n : SchemaNode) (e : option segment) : bool :=
  match e with
  | Some (Key s) => includes (default [] (required n)) s
  | _ => false
  end.

(** The loop over the alternatives: [return true] at the first one whose
    answer is truthy; after the last one control leaves the [if] and runs
    off the end of the function. *)
Fixpoint any_requires (f : loc -> outcome answer) (schemaOptions : list loc)
    : outcome answer :=
  match schemaOptions with
  | [] => Return JsUndefined
  | schemaOption :: rest =>
      a ← f schemaOption;
      if answer_truthy a then Return (JsBool true) else any_requires f rest
  end.

Fixpoint propertyIsRequiredInSchema (fuel : nat) (h : store) (schema : loc)
    (path : PropertyPath) (resolveSchemaRef : SchemaRefResolver) {struct fuel}
    : outcome answer :=
  match fuel with
  | O => OutOfFuel
  | S fuel' =>
      let pathArr := propertyPathToArray path in
      let node := h !!! schema in
      match truthy_ref node with
      | Some r =>
          match resolveSchemaRef r with
          | None => Return (JsBool false)
          | Some referencedSchema =>
              propertyIsRequiredInSchema fuel' h referencedSchema (PathArr pathArr)
                resolveSchemaRef
          end
      | None =>
          match (match allOf node with Some a => Some a | None => oneOf node end) with
          | Some schemaOptions =>
              any_requires
                (fun schemaOption =>
                   propertyIsRequiredInSchema fuel' h schemaOption path resolveSchemaRef)
                schemaOptions
          | None =>
              match switchType node with
              | CaseObject =>
                  if negb (requiredIncludes node (head pathArr)) then Return (JsBool false)
                  else
                    match get_property node (head pathArr) with
                    | Found subschema =>
                        if (length pathArr =? 1)%nat then Return (JsBool true)
                        else propertyIsRequiredInSchema fuel' h subschema
                               (PathArr (tail pathArr)) resolveSchemaRef
                    | _ => Return (JsBool true)
                    end
              | CaseArray =>
                  if (length pathArr =? 1)%nat then Return (JsBool false)
                  else Return (JsBool true)
              | _ => Return (JsBool true)
              end
          end
      end
  end.

End Schemas.

(** ** The earlier snapshot of [src/schemas.ts]

    The file holds a second copy of [findPropertyInSchema],
    [findRelationshipsInSchema] and [findTransientPropertiesInSchema]: it
    follows one [$ref] hop where the first copy loops, looks at the
    alternatives of a composition before [$ref], and records a relationship
    in the [object] case only. *)

Module Legacy.
Import Schemas.

(** [path[0]] and [path.length] on a path that may be a string. *)
Definition path_first (path : PropertyPath) : option segment :=
  match path with
  | PathStr (String c _) => Some (Key (String c EmptyString))
  | PathStr EmptyString => None
  | PathArr a => head a
  end.

Definition path_length (path : PropertyPath) : nat :=
  match path with
  | PathStr s => String.length s
  | PathArr a => length a
  end.

Definition is_object (n : SchemaNode) : bool :=
  match type n with
  | Some t => String.eqb t "object"
  | None => false
  end.

(** A call on [undefined] fails on its first property read. *)
Fixpoint findPropertyInSchema (fuel : nat) (h : store) (schema : option loc)
    (path : PropertyPath) (resolveSchemaRef : SchemaRefResolver) {struct fuel}
    : outcome (found * store) :=
  match fuel, schema with
  | O, _ => OutOfFuel
  | S _, None => Throw TypeError
  | S fuel', Some schema =>
      let pathArr := propertyPathToArray path in
      let node := h !!! schema in
      match allOf node, oneOf node, truthy_ref node with
      | Some arr, _, _ =>
          let h' := reverse_allOf h schema arr in
          (fix each (l : list loc) : outcome (found * store) :=
             match l with
             | [] => Return (Undefined, h')
             | schemaOption :: rest =>
                 if negb (is_object (h' !!! schemaOption)) then each rest
                 else
                   let subschema :=
                     lookup_property (properties (h' !!! schemaOption))
                       (property_key (path_first path)) in
                   if (path_length path =? 1)%nat
                   then Return (match subschema with
                                | Some l => Found l
                                | None => Undefined
                                end, h')
                   else findPropertyInSchema fuel' h' subschema (PathArr (tail pathArr))
                          resolveSchemaRef
             end) (rev arr)
      | None, Some options, _ =>
          (fix each (l : list loc) (h : store) : outcome (found * store) :=
             match l with
             | [] => Return (Undefined, h)
             | schemaOption :: rest =>
                 if negb (is_object (h !!! schemaOption)) then each rest h
                 else
                   '(result, h1) ← findPropertyInSchema fuel' h (Some schemaOption)
                                     (PathArr pathArr) resolveSchemaRef;
                   if found_truthy result then Return (result, h1) else each rest h1
             end) options h
      | None, None, Some r =>
          match resolveSchemaRef r with
          | None => Return (Undefined, h)
          | Some referencedSchema =>
              findPropertyInSchema fuel' h (Some referencedSchema) path resolveSchemaRef
          end
      | None, None, None =>
          match switchType node with
          | CaseObject =>
              let subschema := get_property node (path_first path) in
              match subschema with
              | Found sub =>
                  if (path_length path =? 1)%nat then Return (subschema, h)
                  else findPropertyInSchema fuel' h (Some sub) (PathArr (tail pathArr))
                         resolveSchemaRef
              | _ => Return (subschema, h)
              end
          | CaseArray =>
              match items node with
              | None => Return (Undefined, h)
              | Some sub =>
                  findPropertyInSchema fuel' h (Some sub) (PathArr (tail pathArr))
                    resolveSchemaRef
              end
          | _ => Return (Undefined, h)
          end
      end
  end.

Fixpoint findRelationshipsInSchema (fuel : nat) (h : store) (schema : loc)
    (resolveSchemaRef : SchemaRefResolver) (allowedStorage : option (list string))
    (limitToPath : option PropertyPath) (maxDepth : option Z)
    (currentPath : PropertyPath) (nodesTraversedInPath : list loc)
    (depthFromParent : Z) {struct fuel} : outcome (list Relationship) :=
  match fuel with
  | O => OutOfFuel
  | S fuel' =>
      let currentPathArr := propertyPathToArray currentPath in
      let limitToPathArr := limitToPathArrOf limitToPath in
      let own := relationshipPropertiesOf (h !!! schema) in
      (* [if (schema.$ref)]: one hop *)
      let followed :=
        match truthy_ref (h !!! schema) with
        | None => Some (schema, own)
        | Some r =>
            match resolveSchemaRef r with
            | None => None
            | Some referencedSchema =>
                Some (referencedSchema,
                      spread (relationshipPropertiesOf (h !!! referencedSchema)) own)
            end
        end in
      match followed with
      | None => Return []
      | Some (schema, relationshipProperties) =>
          if stopTraversal maxDepth currentPathArr nodesTraversedInPath schema
          then Return []
          else
            let node := h !!! schema in
            let visit sub lim path depth :=
              findRelationshipsInSchema fuel' h sub resolveSchemaRef allowedStorage
                lim maxDepth (PathArr path) (nodesTraversedInPath ++ [schema]) depth in
            match (match allOf node with Some a => Some a | None => oneOf node end) with
            | Some schemaOptions =>
                concat_each
                  (fun schemaOption =>
                     visit schemaOption (PathArr <$> limitToPathArr) currentPathArr
                       depthFromParent)
                  schemaOptions []
            | None =>
                match switchType node with
                | CaseObject =>
                    relationships ← relationshipAt relationshipProperties allowedStorage
                                      currentPathArr schema depthFromParent;
                    concat_each
                      (fun '(property, subschema) =>
                         visit subschema (PathArr <$> (tail <$> limitToPathArr))
                           (currentPathArr ++ [Key property])
                           (if relationshipIsReference relationshipProperties
                            then 0 else depthFromParent + 1))
                      (propertiesToTraverse node limitToPathArr) relationships
                | CaseArray =>
                    match limitToPathArr, items node with
                    | Some [], _ => Return []
                    | _, None => Return []
                    | _, Some itemsSchema =>
                        visit itemsSchema (PathArr <$> (tail <$> limitToPathArr))
                          (currentPathArr ++ [wildcard]) (depthFromParent + 1)
                    end
                | _ => Return []
                end
            end
      end
  end.

Fixpoint findTransientPropertiesInSchema (fuel : nat) (h : store) (schema : loc)
    (resolveSchemaRef : SchemaRefResolver) (limitToPath : option PropertyPath)
    (maxDepth : option Z) (currentPath : PropertyPath)
    (nodesTraversedInPath : list loc) {struct fuel} : outcome (list string) :=
  match fuel with
  | O => OutOfFuel
  | S fuel' =>
      let currentPathArr := propertyPathToArray currentPath in
      let limitToPathArr := limitToPathArrOf limitToPath in
      (* [if (schema.$ref)]: one hop; the local [transient] is not read again *)
      let followed :=
        match truthy_ref (h !!! schema) with
        | None => Some (schema, transient (h !!! schema))
        | Some r =>
            match resolveSchemaRef r with
            | None => None
            | Some referencedSchema =>
                Some (referencedSchema,
                      match transient (h !!! schema) with
                      | None => transient (h !!! referencedSchema)
                      | Some t => Some t
                      end)
            end
        end in
      match followed with
      | None => Return []
      | Some (schema, transient_) =>
          if stopTraversal maxDepth currentPathArr nodesTraversedInPath schema
          then Return []
          else
            let node := h !!! schema in
            let transientPropertyPaths :=
              if pathDepth (PathArr currentPathArr) =? 0 then []
              else if default false (transient node)
                   then [propertyPathToDottedPath (PathArr currentPathArr)] else [] in
            let visit sub lim path :=
              findTransientPropertiesInSchema fuel' h sub resolveSchemaRef lim maxDepth
                (PathArr path) (nodesTraversedInPath ++ [schema]) in
            match (match allOf node with Some a => Some a | None => oneOf node end) with
            | Some schemaOptions =>
                concat_each
                  (fun schemaOption =>
                     visit schemaOption (PathArr <$> limitToPathArr) currentPathArr)
                  schemaOptions transientPropertyPaths
            | None =>
                match switchType node with
                | CaseObject =>
                    concat_each
                      (fun '(property, subschema) =>
                         visit subschema (PathArr <$> (tail <$> limitToPathArr))
                           (currentPathArr ++ [Key property]))
                      (propertiesToTraverse node limitToPathArr) transientPropertyPaths
                | CaseArray =>
                    match limitToPathArr, items node with
                    | Some [], _ => Return transientPropertyPaths
                    | _, None => Return transientPropertyPaths
                    | _, Some itemsSchema =>
                        r ← visit itemsSchema (PathArr <$> (tail <$> limitToPathArr))
                              (currentPathArr ++ [wildcard]);
                        Return (transientPropertyPaths ++ r)
                    end
                | _ => Return transientPropertyPaths
                end
            end
      end
  end.

End Legacy.

(** ** The schema registry ([src/registry.ts]) *)

Module Registry.
Import Schemas.

Record SchemaRegistry : Type := mkSchemaRegistry {
  schemas : gmap string loc;
  schemaRefTranslator : string -> string
}.

(** [new SchemaRegistry()]: the translator defaults to the identity. *)
Definition newRegistry : SchemaRegistry := mkSchemaRegistry ∅ (fun refPath => refPath).

Definition clear (r : SchemaRegistry) : SchemaRegistry :=
  mkSchemaRegistry ∅ (schemaRefTranslator r).

Definition deregisterSchema (r : SchemaRegistry) (schemaId : string) : SchemaRegistry :=
  mkSchemaRegistry (delete schemaId (schemas r)) (schemaRefTranslator r).

Definition getSchema (r : SchemaRegistry) (schemaId : string) : option loc :=
  schemas r !! schemaId.

(** [Object.freeze] answers the object it is given; it is the same address. *)
Definition registerSchema (r : SchemaRegistry) (schemaId : string) (schema : loc)
    : SchemaRegistry :=
  mkSchemaRegistry (<[schemaId := schema]> (schemas r)) (schemaRefTranslator r).

Definition resolveSchemaRef (r : SchemaRegistry) : SchemaRefResolver :=
  fun ref => getSchema r (schemaRefTranslator r ref).

(** The methods that wrap the functions of [src/schemas.ts]; none has a
    [try] block. *)
Definition findPropertyInSchema (r : SchemaRegistry) (fuel : nat) (h : store)
    (schema : loc) (path : PropertyPath) : outcome (found * store) :=
  Schemas.findPropertyInSchema fuel h schema path (resolveSchemaRef r).

Definition findRelationshipsInSchema (r : SchemaRegistry) (fuel : nat) (h : store)
    (schema : loc) (allowedStorage : option (list string))
    (limitToPath : option PropertyPath) (maxDepth : option Z)
    : outcome (list Relationship) :=
  Schemas.findRelationshipsInSchema fuel h schema (resolveSchemaRef r) allowedStorage
    limitToPath maxDepth (PathArr []) [] 0.

Definition findTransientPropertiesInSchema (r : SchemaRegistry) (fuel : nat) (h : store)
    (schema : loc) (limitToPath : option PropertyPath) (maxDepth : option Z)
    : outcome (list string) :=
  Schemas.findTransientPropertiesInSchema fuel h schema (resolveSchemaRef r)
    limitToPath maxDepth (PathArr []) [].

Definition propertyIsRequiredInSchema (r : SchemaRegistry) (fuel : nat) (h : store)
    (schema : loc) (path : PropertyPath) : outcome answer :=
  Schemas.propertyIsRequiredInSchema fuel h schema path (resolveSchemaRef r).

End Registry.

(** ** [mapPaths] ([src/paths.ts]) *)

Module MapPaths.

(** The argument is any JavaScript value: a primitive, or the address of an
    object or of an array. *)
Inductive value : Type :=
  | VUndefined
  | VNull
  | VBool (b : bool)
  | VNumber (n : jsnum)
  | VString (s : string)
  | VRef (l : nat).

Inductive cell : Type :=
  | Obj (fields : list (string * value))
  | Arr (elements : list value).

#[export] Instance cell_inhabited : Inhabited cell := populate (Obj []).

Abbreviation memory := (gmap nat cell).

(** The answer is built from new objects and arrays only, so it is a tree. *)
Inductive tree : Type :=
  | TUndefined
  | TNull
  | TBool (b : bool)
  | TNumber (n : jsnum)
  | TString (s : string)
  | TObject (fields : list (string * tree))
  | TArray (elements : list tree).

(** [{path, additionalOptions?}] *)
Definition PathTransformer := string -> string * option (list (string * tree)).

(** [obj[key] = v] *)
Fixpoint set_field (fields : list (string * tree)) (key : string) (v : tree)
    : list (string * tree) :=
  match fields with
  | [] => [(key, v)]
  | (k, w) :: rest =>
      if String.eqb k key then (k, v) :: rest else (k, w) :: set_field rest key v
  end.

(** [_.assign(obj, source)] *)
Definition assign (fields source : list (string * tree)) : list (string * tree) :=
  fold_left (fun acc '(k, v) => set_field acc k v) source fields.

(** [visited.includes(value)]: [visited] holds objects only. *)
Definition visited_includes (visited : list nat) (v : value) : bool :=
  match v with
  | VRef l => existsb (Nat.eqb l) visited
  | _ => false
  end.

(** The function answers with [visited] as it leaves it: the caller's array
    is pushed to in place. *)
Fixpoint mapPaths (fuel : nat) (m : memory) (x : value) (transformPath : PathTransformer)
    (visited : list nat) {struct fuel} : outcome (tree * list nat) :=
  match fuel with
  | O => OutOfFuel
  | S fuel' =>
      match x with
      | VUndefined => Return (TUndefined, visited)
      | VNull => Return (TNull, visited)
      | VBool b => Return (TBool b, visited)
      | VNumber n => Return (TNumber n, visited)
      | VString s => Return (TString s, visited)
      | VRef l =>
          match m !!! l with
          | Arr elements =>
              (* the callback passes no third argument: each element starts
                 from the default, a new empty array *)
              mapped ← mapM (fun element =>
                               '(t, _) ← mapPaths fuel' m element transformPath [];
                               Return t) elements;
              Return (TArray mapped, visited)
          | Obj fields =>
              (fix each (fields : list (string * value)) (mappedObject : list (string * tree))
                   (visited : list nat) : outcome (tree * list nat) :=
                 match fields with
                 | [] => Return (TObject mappedObject, visited)
                 | (key, v) :: rest =>
                     match String.eqb key "path", v with
                     | true, VString s =>
                         let '(path, additionalOptions) := transformPath s in
                         each rest
                           (assign (set_field mappedObject key (TString path))
                              (default [] additionalOptions))
                           visited
                     | _, _ =>
                         if visited_includes visited v then each rest mappedObject visited
                         else
                           '(t, visited') ← mapPaths fuel' m v transformPath visited;
                           each rest (set_field mappedObject key t) visited'
                     end
                 end) fields [] (visited ++ [l])
          end
      end
  end.

End MapPaths.

(** ** Example schemas *)

Module Examples.
Import Schemas.

Definition objectSchema (props : list (string * loc)) : SchemaNode :=
  mkSchemaNode None (Some "object") props None None None None None None None None.

Definition typedSchema (t : string) : SchemaNode :=
  mkSchemaNode None (Some t) [] None None None None None None None None.

Definition refSchema (r : string) : SchemaNode :=
  mkSchemaNode (Some r) None [] None None None None None None None None.

(** [Person = {type: object, properties: {name: {type: string},
    manager: {$ref: "#Person", storage: "ref", entityType: "Person"}}}] *)
Definition person : loc := 0%nat.

Definition personStore : store :=
  {[ 0%nat := objectSchema [("name", 1%nat); ("manager", 2%nat)];
     1%nat := typedSchema "string";
     2%nat := mkSchemaNode (Some "#Person") None [] None None None None None
                (Some "Person") (Some "ref") None ]}.

Definition personResolve : SchemaRefResolver :=
  fun r => if String.eqb r "#Person" then Some person else None.

Definition managerRelationship (path : string) (depth : Z) : Relationship :=
  mkRelationship path false "ref" (Some "Person") (Some "#Person") person None depth.

(** [A = {type: object, properties: {b: {$ref: "B"}}}] and
    [B = {type: object, properties: {a: {$ref: "A"}}}] *)
Definition schemaA : loc := 0%nat.
Definition schemaB : loc := 2%nat.

Definition cyclicStore : store :=
  {[ 0%nat := objectSchema [("b", 1%nat)];
     1%nat := refSchema "B";
     2%nat := objectSchema [("a", 3%nat)];
     3%nat := refSchema "A" ]}.

Definition cyclicResolve : SchemaRefResolver :=
  fun r => if String.eqb r "A" then Some schemaA
           else if String.eqb r "B" then Some schemaB else None.

(** [{type: object, properties: {p: {$ref: "T", transient: false}}}] with
    [T = {type: string, transient: true}] *)
Definition transientStore : store :=
  {[ 0%nat := objectSchema [("p", 1%nat)];
     1%nat := mkSchemaNode (Some "T") None [] None None None None (Some false)
                None None None;
     2%nat := mkSchemaNode None (Some "string") [] None None None None (Some true)
                None None None ]}.

Definition transientResolve : SchemaRefResolver :=
  fun r => if String.eqb r "T" then Some 2%nat else None.

(** [{allOf: [{type: object, properties: {p: {type: string, storage: "copy"}}},
              {type: object, properties: {p: {type: number, storage: "ref"}}}]}] *)
Definition allOfStore : store :=
  {[ 0%nat := mkSchemaNode None None [] None (Some [1%nat; 2%nat]) None None None
                None None None;
     1%nat := objectSchema [("p", 3%nat)];
     2%nat := objectSchema [("p", 4%nat)];
     3%nat := mkSchemaNode None (Some "string") [] None None None None None None
                (Some "copy") None;
     4%nat := mkSchemaNode None (Some "number") [] None None None None None None
                (Some "ref") None ]}.

Definition noRefs : SchemaRefResolver := fun _ => None.

(** [{allOf: [{type: object, properties: {p: {type: string, storage: "copy"}}},
              {type: object, properties: {p: {type: number, storage: "ref"}}},
              {type: object, properties: {q: {type: string}}}]}] *)
Definition trailingAllOfStore : store :=
  {[ 0%nat := mkSchemaNode None None [] None (Some [1%nat; 2%nat; 3%nat]) None None None
                None None None;
     1%nat := objectSchema [("p", 4%nat)];
     2%nat := objectSchema [("p", 5%nat)];
     3%nat := objectSchema [("q", 6%nat)];
     4%nat := mkSchemaNode None (Some "string") [] None None None None None None
                (Some "copy") None;
     5%nat := mkSchemaNode None (Some "number") [] None None None None None None
                (Some "ref") None;
     6%nat := typedSchema "string" ]}.

(** The relationship that a property "p" of an alternative contributes. *)
Definition propertyRelationship (st : string) (target : loc) : Relationship :=
  mkRelationship "p" false st None None target None 1.

(** [{type: object, storage: "inverse-ref"}]: no [foreignKey]. *)
Definition inverseRefStore : store :=
  {[ 0%nat := mkSchemaNode None (Some "object") [] None None None None None None
                (Some "inverse-ref") None ]}.

End Examples.

(** ** Notions used in the statements *)

Module Notions.
Import Schemas.

(** An object schema that is neither a reference nor a composition. *)
Definition plainObject (n : SchemaNode) : Prop :=
  truthy_ref n = None /\ allOf n = None /\ oneOf n = None /\ type n = Some "object".

(** A schema that is neither a reference nor a composition and that, if
    it is an object schema, has no property [p] of its own. *)
Definition lacksProperty (n : SchemaNode) (p : string) : Prop :=
  truthy_ref n = None /\ allOf n = None /\ oneOf n = None
  /\ (switchType n = CaseObject -> lookup_property (properties n) p = None).

(** Every key of the object is written, whatever it holds. *)
Definition allKeysPresent (rp : RelationshipProperties) : Prop :=
  is_Some (rp_entityTypeName rp) /\ is_Some (rp_foreignKeyPath rp)
  /\ is_Some (rp_schemaRef rp) /\ is_Some (rp_storage rp).

(** How many objects of the store a traversal has not gone through yet. *)
Definition unvisited (h : store) (nodesTraversedInPath : list loc) : nat :=
  size (dom h ∖ list_to_set nodesTraversedInPath).

Definition fallback (own referenced : option string) : option string :=
  match own with
  | Some v => Some v
  | None => referenced
  end.

(** The storage and the foreign key of a node as the specification words
    them: collected along the [$ref] hops, a keyword that the referencing
    node declares taking precedence over the referenced node's.  [None] is
    a reference that does not resolve. *)
Fixpoint effectiveKeywords (fuel : nat) (h : store) (resolveSchemaRef : SchemaRefResolver)
    (schema : loc) (st fk : option string) : outcome (option (option string * option string)) :=
  match fuel with
  | O => OutOfFuel
  | S fuel' =>
      match truthy_ref (h !!! schema) with
      | None => Return (Some (st, fk))
      | Some r =>
          match resolveSchemaRef r with
          | None => Return None
          | Some referencedSchema =>
              effectiveKeywords fuel' h resolveSchemaRef referencedSchema
                (fallback st (storage (h !!! referencedSchema)))
                (fallback fk (foreignKey (h !!! referencedSchema)))
          end
      end
  end.

Definition effectiveRelationship (fuel : nat) (h : store)
    (resolveSchemaRef : SchemaRefResolver) (schema : loc)
    : outcome (option (option string * option string)) :=
  effectiveKeywords fuel h resolveSchemaRef schema (storage (h !!! schema))
    (foreignKey (h !!! schema)).

End Notions.

Module MoreExamples.
Import Schemas Examples MapPaths.

(** [{type: object, required: ["address"], properties: {address:
    {type: object, required: ["city"], properties: {city: {type: string}}}}}] *)
Definition requiredStore : store :=
  {[ 0%nat := mkSchemaNode None (Some "object") [("address", 1%nat)] None None None
                (Some ["address"]) None None None None;
     1%nat := mkSchemaNode None (Some "object") [("city", 2%nat)] None None None
                (Some ["city"]) None None None None;
     2%nat := typedSchema "string" ]}.

(** [{allOf: [{type: object, properties: {p: {type: string}}}]}] *)
Definition optionalStore : store :=
  {[ 0%nat := mkSchemaNode None None [] None (Some [1%nat]) None None None None None None;
     1%nat := objectSchema [("p", 2%nat)];
     2%nat := typedSchema "string" ]}.

(** A registry that holds the schema of [inverseRefStore]. *)
Definition inverseRefRegistry : Registry.SchemaRegistry :=
  Registry.registerSchema Registry.newRegistry "Child" 0%nat.

(** [const x = {children: []}; x.children.push(x)] *)
Definition cyclicMemory : memory :=
  {[ 0%nat := Obj [("children", VRef 1%nat)];
     1%nat := Arr [VRef 0%nat] ]}.

(** [const y = {name: "n"}; y.self = y] *)
Definition selfMemory : memory :=
  {[ 0%nat := Obj [("name", VString "n"); ("self", VRef 0%nat)] ]}.

Definition keepPath : PathTransformer := fun path => (path, None).

End MoreExamples.

(** ** More of [src/paths.ts], and the one pure function of [src/import-dir.ts] *)

Module PathTools.

(** [s.includes(c)] for a single character. *)
Fixpoint mentions (c : ascii) (s : string) : bool :=
  match s with
  | EmptyString => false
  | String a r => Ascii.eqb a c || mentions c r
  end.

(** [Array.prototype.slice(start, end)] on integer arguments: a negative
    index counts from the end, and both are clamped to the array. *)
Definition relative_index (len i : Z) : Z :=
  if i <? 0 then Z.max (len + i) 0 else Z.min i len.

Definition slice {A : Type} (l : list A) (start finish : Z) : list A :=
  let len := Z.of_nat (length l) in
  let k := relative_index len start in
  let final := relative_index len finish in
  take (Z.to_nat (final - k)) (drop (Z.to_nat k) l).

(** What [shortenPath] and [tailPath] answer: a path, or [throw 'Error']. *)
Inductive trimmed : Type :=
  | Trimmed (path : string)
  | ThrowsError.

Definition shortenPath (path : string) (numComponentsToTrim : Z) : trimmed :=
  let pathArray := dottedPathToArray path in
  if numComponentsToTrim >? Z.of_nat (length pathArray) then ThrowsError
  else Trimmed (arrayToDottedPath (slice pathArray 0 (- numComponentsToTrim))).

(** [slice(-n)] has no second argument: it runs to the end of the array. *)
Definition tailPath (path : string) (numComponentsToTrim : Z) : trimmed :=
  let pathArray := dottedPathToArray path in
  if numComponentsToTrim >? Z.of_nat (length pathArray) then ThrowsError
  else Trimmed (arrayToDottedPath
                  (slice pathArray (- numComponentsToTrim) (Z.of_nat (length pathArray)))).

(** A path of keys, each followed by the wildcard index, and then perhaps a
    last key: [k1[*].k2[*].last]. *)
Fixpoint wildcardPath (keys : list string) (last : option string) : PropertyPathArray :=
  match keys with
  | [] => match last with
          | Some k => [Key k]
          | None => []
          end
  | k :: rest => Key k :: wildcard :: wildcardPath rest last
  end.

(** The names that every JavaScript object inherits from [Object.prototype]:
    looking one of them up in an object used as a map does not answer
    [undefined] when the object has no such property of its own, and
    assigning to [__proto__] replaces the prototype. *)
Definition inheritedNames : list string :=
  ["constructor"; "__proto__"; "hasOwnProperty"; "isPrototypeOf";
   "propertyIsEnumerable"; "toLocaleString"; "toString"; "valueOf";
   "__defineGetter__"; "__defineSetter__"; "__lookupGetter__"; "__lookupSetter__"].

Definition ordinaryName (s : string) : Prop := ~ In s inheritedNames.

(** A key that the codec can carry: no opening bracket, no line terminator. *)
Definition plainKey (k : string) : Prop :=
  mentions "[" k = false /\ no_line_terminator k = true.

(** [filename.lastIndexOf(c)], -1 when [c] does not occur. *)
Fixpoint lastIndexOf_from (s : string) (c : ascii) (i found : Z) : Z :=
  match s with
  | EmptyString => found
  | String a r => lastIndexOf_from r c (i + 1) (if Ascii.eqb a c then i else found)
  end.

Definition lastIndexOf (s : string) (c : ascii) : Z := lastIndexOf_from s c 0 (-1).

(** [s.slice(n)] for [n] within the string or past its end. *)
Fixpoint string_drop (n : nat) (s : string) : string :=
  match n, s with
  | O, _ => s
  | S n', String _ r => string_drop n' r
  | S _, EmptyString => EmptyString
  end.

(** [filename.slice((Math.max(0, filename.lastIndexOf('.')) || Infinity) + 1)]:
    when the maximum is 0 the slice starts at infinity and is empty. *)
Definition filenameExtension (filename : string) : string :=
  let i := Z.max 0 (lastIndexOf filename ".") in
  if i =? 0 then EmptyString
  else string_drop (Z.to_nat (i + 1)) filename.

End PathTools.

Module ExtraExamples.
Import Schemas Examples.

(** [Self = {$ref: "Self"}] *)
Definition selfRefStore : store := {[ 0%nat := refSchema "Self" ]}.

Definition selfRefResolve : SchemaRefResolver :=
  fun r => if String.eqb r "Self" then Some 0%nat else None.

(** [{type: array, items: {type: object, required: [], properties: {x: {type: string}}}}] *)
Definition arrayStore : store :=
  {[ 0%nat := mkSchemaNode None (Some "array") [] (Some 1%nat) None None None None
                None None None;
     1%nat := mkSchemaNode None (Some "object") [("x", 2%nat)] None None None
                (Some []) None None None None;
     2%nat := typedSchema "string" ]}.

(** [{type: object, required: ["ghost"], properties: {}}] *)
Definition ghostStore : store :=
  {[ 0%nat := mkSchemaNode None (Some "object") [] None None None (Some ["ghost"])
                None None None None ]}.

(** [{oneOf: [{type: object, properties: {p: {}}}, {type: object, required: ["p"],
    properties: {p: {}}}]}] *)
Definition oneOfStore : store :=
  {[ 0%nat := mkSchemaNode None None [] None None (Some [1%nat; 2%nat]) None None
                None None None;
     1%nat := objectSchema [("p", 3%nat)];
     2%nat := mkSchemaNode None (Some "object") [("p", 3%nat)] None None None
                (Some ["p"]) None None None None;
     3%nat := emptyNode ]}.

(** [S = {allOf: [{$ref: "S"}]}] *)
Definition compositionCycleStore : store :=
  {[ 0%nat := mkSchemaNode None None [] None (Some [1%nat]) None None None None None None;
     1%nat := refSchema "S" ]}.

Definition compositionCycleResolve : SchemaRefResolver :=
  fun r => if String.eqb r "S" then Some 0%nat else None.

(** [{allOf: [{type: object, properties: {p: {type: string}}},
              {type: object, properties: {q: {type: string}}}]}] *)
Definition disjointAllOfStore : store :=
  {[ 0%nat := mkSchemaNode None None [] None (Some [1%nat; 2%nat]) None None None
                None None None;
     1%nat := objectSchema [("p", 3%nat)];
     2%nat := objectSchema [("q", 3%nat)];
     3%nat := typedSchema "string" ]}.

(** [{type: object, properties: {name: {type: string}}}] *)
Definition namedStore : store :=
  {[ 0%nat := objectSchema [("name", 1%nat)];
     1%nat := typedSchema "string" ]}.

(** [{$ref: "Person"}] beside the Person schema of [namedStore]. *)
Definition referringStore : store :=
  {[ 0%nat := objectSchema [("name", 1%nat)];
     1%nat := typedSchema "string";
     2%nat := refSchema "Person" ]}.

End ExtraExamples.

Module Frames.
Import Schemas.

(** Two states of a schema object that differ at most in the order of the
    [allOf] array. *)
Definition sameButAllOfOrder (n n' : SchemaNode) : Prop :=
  n' = n \/ exists arr arr', allOf n = Some arr /\ arr ≡ₚ arr' /\ n' = set_allOf n arr'.

Definition storesAgree (h h' : store) : Prop :=
  forall l : loc, sameButAllOfOrder (h !!! l) (h' !!! l).

(** The alternatives that the traversals go through: [allOf], or [oneOf]
    when there is no [allOf]. *)
Definition schemaOptionsOf (n : SchemaNode) : option (list loc) :=
  match allOf n with
  | Some a => Some a
  | None => oneOf n
  end.

(** The positions of a schema.  [leadsTo h resolve s path t]: starting at
    the schema [s], the segments [path] lead to the schema [t], which is
    not a reference.  A [$ref] that resolves and an alternative of a
    composition are followed without a segment, a property of an object
    schema takes its name as a segment, the [items] of an array schema
    take the wildcard index. *)
Inductive leadsTo (h : store) (resolve : SchemaRefResolver)
    : loc -> PropertyPathArray -> loc -> Prop :=
  | leadsTo_here (s : loc) :
      truthy_ref (h !!! s) = None -> leadsTo h resolve s [] s
  | leadsTo_ref (s : loc) r (t : loc) path (u : loc) :
      truthy_ref (h !!! s) = Some r -> resolve r = Some t ->
      leadsTo h resolve t path u -> leadsTo h resolve s path u
  | leadsTo_option (s : loc) options (t : loc) path (u : loc) :
      truthy_ref (h !!! s) = None ->
      schemaOptionsOf (h !!! s) = Some options -> In t options ->
      leadsTo h resolve t path u -> leadsTo h resolve s path u
  | leadsTo_property (s : loc) property (sub : loc) path (u : loc) :
      truthy_ref (h !!! s) = None -> schemaOptionsOf (h !!! s) = None ->
      switchType (h !!! s) = CaseObject ->
      In (property, sub) (properties (h !!! s)) ->
      leadsTo h resolve sub path u -> leadsTo h resolve s (Key property :: path) u
  | leadsTo_items (s : loc) (sub : loc) path (u : loc) :
      truthy_ref (h !!! s) = None -> schemaOptionsOf (h !!! s) = None ->
      switchType (h !!! s) = CaseArray -> items (h !!! s) = Some sub ->
      leadsTo h resolve sub path u -> leadsTo h resolve s (wildcard :: path) u.

(** A dotted path answered for the schema [target]: it prints the current
    path followed by segments that lead from [schema] to [target], and,
    when [maxDepth] is set, these are no more than [maxDepth] segments in
    all. *)
Definition locatedBelow (h : store) (resolve : SchemaRefResolver) (schema : loc)
    (currentPathArr : PropertyPathArray) (maxDepth : option Z) (dotted : string)
    (target : loc) : Prop :=
  exists suffix,
    dotted = arrayToDottedPath (currentPathArr ++ suffix)
    /\ leadsTo h resolve schema suffix target
    /\ forall m, maxDepth = Some m -> Z.of_nat (length (currentPathArr ++ suffix)) <= m.

(** A dotted path answered as transient: it is located at a schema that is
    marked [transient], and it is not the root path. *)
Definition transientBelow (h : store) (resolve : SchemaRefResolver) (schema : loc)
    (currentPathArr : PropertyPathArray) (maxDepth : option Z) (dotted : string) : Prop :=
  exists suffix (target : loc),
    dotted = arrayToDottedPath (currentPathArr ++ suffix)
    /\ currentPathArr ++ suffix <> []
    /\ leadsTo h resolve schema suffix target
    /\ transient (h !!! target) = Some true
    /\ forall m, maxDepth = Some m -> Z.of_nat (length (currentPathArr ++ suffix)) <= m.

(** No object of the store is a reference or a composition. *)
Definition plainStore (h : store) : Prop :=
  forall l : loc,
    truthy_ref (h !!! l) = None /\ allOf (h !!! l) = None /\ oneOf (h !!! l) = None.

(** Walking down [properties] and [items] by hand: the schema of the last
    segment, [null] where a property is missing, [undefined] at a dead end. *)
Fixpoint navigate (h : store) (schema : loc) (pathArr : PropertyPathArray) : found :=
  match pathArr with
  | [] => Found schema
  | e :: rest =>
      match switchType (h !!! schema) with
      | CaseObject =>
          match lookup_property (properties (h !!! schema)) (segment_key e) with
          | Some sub => match rest with
                        | [] => Found sub
                        | _ => navigate h sub rest
                        end
          | None => Null
          end
      | CaseArray =>
          match e, items (h !!! schema) with
          | Num (Int _), Some sub => navigate h sub rest
          | _, _ => Undefined
          end
      | CaseDefault => Undefined
      end
  end.

End Frames.

Module MapPathsLoop.
Import MapPaths.

(** The [for (const key in x)] loop of [mapPaths] on its own, over the
    recursive call [rec]. *)
Section Loop.
Context (rec : value -> list nat -> outcome (tree * list nat))
        (transformPath : PathTransformer).

Fixpoint mapFields (fields : list (string * value)) (mappedObject : list (string * tree))
    (visited : list nat) : outcome (tree * list nat) :=
  match fields with
  | [] => Return (TObject mappedObject, visited)
  | (key, v) :: rest =>
      match String.eqb key "path", v with
      | true, VString s =>
          let '(path, additionalOptions) := transformPath s in
          mapFields rest
            (assign (set_field mappedObject key (TString path))
               (default [] additionalOptions))
            visited
      | _, _ =>
          if visited_includes visited v then mapFields rest mappedObject visited
          else
            '(t, visited') ← rec v visited;
            mapFields rest (set_field mappedObject key t) visited'
      end
  end.

End Loop.

(** A value that is not an object or an array, as the tree it is answered as. *)
Definition primitive (v : value) : option tree :=
  match v with
  | VUndefined => Some TUndefined
  | VNull => Some TNull
  | VBool b => Some (TBool b)
  | VNumber n => Some (TNumber n)
  | VString s => Some (TString s)
  | VRef _ => None
  end.

(** What becomes of a field that holds a primitive, when the transformer
    gives no additional options. *)
Definition rewrittenField (transformPath : PathTransformer) (field : string * value)
    : option (string * tree) :=
  match field with
  | (key, VString s) =>
      if String.eqb key "path" then Some (key, TString (fst (transformPath s)))
      else Some (key, TString s)
  | (key, v) => match primitive v with
                | Some t => Some (key, t)
                | None => None
                end
  end.

(** The objects and arrays of the memory that [visited] does not hold. *)
Definition unvisitedCells (m : memory) (visited : list nat) : nat :=
  size (dom m ∖ list_to_set visited).

(** [const shared = {n: 1}; const x = {first: shared, second: shared}] *)
Definition sharedMemory : memory :=
  {[ 0%nat := Obj [("first", VRef 1%nat); ("second", VRef 1%nat)];
     1%nat := Obj [("n", VNumber (Int 1))] ]}.

(** [{path: "a.b", label: "x", count: 2}] *)
Definition flatMemory : memory :=
  {[ 0%nat := Obj [("path", VString "a.b"); ("label", VString "x");
                    ("count", VNumber (Int 2))] ]}.

Definition prefixPath : PathTransformer := fun path => ("root." +:+ path, None).

Definition keepPathOf : PathTransformer := fun path => (path, None).

End MapPathsLoop.

(** * Properties *)

(** ** The path codec *)

Section PathCodec.

Lemma split_bracket_shorter s p q :
  split_bracket s = Some (p, q) -> (String.length q < String.length s)%nat.
Proof.
  revert p q. induction s as [|c s IH]; intros p q; simpl; [discriminate|].
  destruct (Ascii.eqb c "[").
  - intros [= <- <-]. lia.
  - destruct (split_bracket s) as [[p' q']|]; [|discriminate].
    intros [= <- <-]. specialize (IH _ _ eq_refl). lia.
Qed.

Lemma take_digits_length s d r :
  take_digits s = (d, r) -> (String.length r <= String.length s)%nat.
Proof.
  revert d r. induction s as [|c s IH]; intros d r; simpl.
  - intros [= <- <-]. simpl. lia.
  - destruct (is_digit c).
    + destruct (take_digits s) as [d' q] eqn:E. intros [= <- <-].
      specialize (IH _ _ eq_refl). lia.
    + intros [= <- <-]. simpl. lia.
Qed.

Lemma match_index_shorter s m r :
  match_index s = Some (m, r) -> (String.length r < String.length s)%nat.
Proof.
  unfold match_index. destruct (take_digits s) as [d q] eqn:E.
  pose proof (take_digits_length _ _ _ E) as Hlen.
  destruct d as [|c d].
  - destruct q as [|a [|b q]]; try discriminate.
    destruct (Ascii.eqb a "*" && Ascii.eqb b "]"); [|discriminate].
    intros [= <- <-]. simpl in Hlen. lia.
  - destruct q as [|b q]; [discriminate|].
    destruct (Ascii.eqb b "]"); [|discriminate].
    intros [= <- <-]. simpl in Hlen. lia.
Qed.

Lemma path_regex_match_shorter tail m1 m2 m3 :
  path_regex_match tail = Some (m1, m2, m3) ->
  (String.length m3 < String.length tail)%nat.
Proof.
  unfold path_regex_match.
  destruct (split_bracket tail) as [[p r1]|] eqn:E1; [|discriminate].
  destruct (match_index r1) as [[i r2]|] eqn:E2; [|discriminate].
  apply split_bracket_shorter in E1. apply match_index_shorter in E2.
  destruct (no_line_terminator _); [|discriminate].
  intros [= <- <- <-].
  destruct r2 as [|c r]; simpl in *; [lia|].
  destruct (Ascii.eqb c "."); simpl; lia.
Qed.

(** The loop of [dottedPathToArray] ends within [String.length tail] turns:
    more fuel does not change its answer. *)
Lemma dottedPathToArray_loop_fuel fuel tail acc :
  (String.length tail <= fuel)%nat ->
  dottedPathToArray_loop fuel tail acc
  = dottedPathToArray_loop (String.length tail) tail acc.
Proof.
  remember (String.length tail) as n eqn:Hn.
  revert fuel tail acc Hn.
  induction n as [n IH] using lt_wf_ind. intros fuel tail acc Hn Hle.
  destruct tail as [|c tail].
  - simpl in Hn. subst n. destruct fuel; reflexivity.
  - simpl in Hn. destruct n as [|n]; [discriminate|].
    destruct fuel as [|fuel]; [lia|].
    cbn [dottedPathToArray_loop].
    destruct (String.eqb (String c tail) ""); [reflexivity|].
    destruct (path_regex_match (String c tail)) as [[[m1 m2] m3]|] eqn:E;
      [|reflexivity].
    apply path_regex_match_shorter in E. simpl in E.
    rewrite (IH (String.length m3)) by lia.
    symmetry. rewrite (IH (String.length m3)) by lia. reflexivity.
Qed.

(** A path without an opening bracket is kept as one segment, dots and all. *)
Lemma dottedPathToArray_no_bracket p :
  split_bracket p = None -> p <> "" -> dottedPathToArray p = [Key p].
Proof.
  intros Hs Hne. unfold dottedPathToArray.
  destruct p as [|c p]; [congruence|].
  cbn [String.length dottedPathToArray_loop].
  unfold path_regex_match. rewrite Hs. reflexivity.
Qed.

End PathCodec.

(** C3.  The round trip between the two path forms does not hold in the
    code.  An integer index is parsed from the text in front of the bracket
    and not from the digits, so the path "a[0]" comes back as "a[NaN]"; two
    indices in a row gain an empty segment; and no dot splits a path, so
    the segments a, b come back as the single segment "a.b". *)
Theorem path_round_trip_broken :
  arrayToDottedPath (dottedPathToArray "a[0]") = "a[NaN]"
  /\ arrayToDottedPath (dottedPathToArray "a[*][*]") = "a[*].[*]"
  /\ dottedPathToArray (arrayToDottedPath [Key "a"; Key "b"]) = [Key "a.b"]
  /\ dottedPathToArray (arrayToDottedPath [Key "a"; Num (Int 0)]) = [Key "a"; Num NaN].
Proof. repeat split; reflexivity. Qed.

(** ** Evaluating the traversals on the example schemas *)

Section Evaluation.
Import Schemas Examples.

Lemma person_eval n :
  findRelationshipsInSchema (6 + n) personStore person personResolve None None
    (Some 2) (PathArr []) [] 0
  = Return [managerRelationship "manager" 1; managerRelationship "manager.manager" 0].
Proof. vm_compute. reflexivity. Qed.

Lemma person_eval_legacy n :
  Legacy.findRelationshipsInSchema (4 + n) personStore person personResolve None None
    (Some 2) (PathArr []) [] 0
  = Return [managerRelationship "manager" 1; managerRelationship "manager.manager" 0].
Proof. vm_compute. reflexivity. Qed.

Lemma person_short_fuel fuel :
  (fuel < 6)%nat ->
  findRelationshipsInSchema fuel personStore person personResolve None None
    (Some 2) (PathArr []) [] 0 = OutOfFuel.
Proof.
  intros H. do 6 (destruct fuel as [|fuel]; [vm_compute; reflexivity|]). lia.
Qed.

(** C1, as the code has it.  On the Person schema with [maxDepth = 2] both
    copies of the function answer two relationships: "manager" at
    [depthFromParent] 1, and "manager.manager" at [depthFromParent] 0, both
    with storage "ref" and entity type "Person".  Nothing below depth 2 is
    answered. *)
Theorem person_relationships n :
  findRelationshipsInSchema (6 + n) personStore person personResolve None None
    (Some 2) (PathArr []) [] 0
  = Return [managerRelationship "manager" 1; managerRelationship "manager.manager" 0]
  /\ Legacy.findRelationshipsInSchema (4 + n) personStore person personResolve None
       None (Some 2) (PathArr []) [] 0
     = Return [managerRelationship "manager" 1; managerRelationship "manager.manager" 0].
Proof. split; [apply person_eval | apply person_eval_legacy]. Qed.

(** C1, as stated, fails: no amount of fuel makes the call answer exactly
    one relationship, at "manager" with [depthFromParent] 0. *)
Lemma person_not_one_relationship :
  ~ exists fuel r,
      findRelationshipsInSchema fuel personStore person personResolve None None
        (Some 2) (PathArr []) [] 0 = Return [r]
      /\ rel_path r = "manager" /\ rel_storage r = "ref"
      /\ rel_entityTypeName r = Some "Person" /\ rel_depthFromParent r = 0.
Proof.
  intros (fuel & r & H & _).
  destruct (Nat.lt_ge_cases fuel 6) as [Hlt|Hge].
  - rewrite person_short_fuel in H by exact Hlt. discriminate.
  - replace fuel with (6 + (fuel - 6))%nat in H by lia.
    rewrite person_eval in H. discriminate.
Qed.

(** C2.  On the two schemas that refer to each other, with [limitToPath]
    and [maxDepth] unset, both traversals return, with the empty list, from
    either schema and for every [allowedStorage]; so do their earlier
    copies. *)
Theorem cyclic_schemas_terminate allowedStorage n :
  findRelationshipsInSchema (5 + n) cyclicStore schemaA cyclicResolve allowedStorage
    None None (PathArr []) [] 0 = Return []
  /\ findRelationshipsInSchema (5 + n) cyclicStore schemaB cyclicResolve allowedStorage
       None None (PathArr []) [] 0 = Return []
  /\ findTransientPropertiesInSchema (5 + n) cyclicStore schemaA cyclicResolve
       None None (PathArr []) [] = Return []
  /\ findTransientPropertiesInSchema (5 + n) cyclicStore schemaB cyclicResolve
       None None (PathArr []) [] = Return []
  /\ Legacy.findRelationshipsInSchema (3 + n) cyclicStore schemaA cyclicResolve
       allowedStorage None None (PathArr []) [] 0 = Return []
  /\ Legacy.findTransientPropertiesInSchema (3 + n) cyclicStore schemaA cyclicResolve
       None None (PathArr []) [] = Return [].
Proof. repeat split; vm_compute; reflexivity. Qed.

(** C6.  The node at "p" declares [transient: false] and refers to a schema
    that declares [transient: true]; both copies of the function answer
    "p". *)
Theorem transient_false_is_not_honoured n :
  transient (transientStore !!! 1%nat) = Some false
  /\ findTransientPropertiesInSchema (4 + n) transientStore 0%nat transientResolve
       None None (PathArr []) [] = Return ["p"]
  /\ Legacy.findTransientPropertiesInSchema (2 + n) transientStore 0%nat
       transientResolve None None (PathArr []) [] = Return ["p"].
Proof. repeat split; vm_compute; reflexivity. Qed.

(** C8.  [findPropertyInSchema] writes to its argument: after a call the
    [allOf] array of the schema is in reverse order, and a second call
    answers the property of the other alternative.  Both copies of the
    function do so. *)
Theorem findPropertyInSchema_reverses_allOf n :
  allOf (allOfStore !!! 0%nat) = Some [1%nat; 2%nat]
  /\ (exists h1 h2,
        findPropertyInSchema (3 + n) allOfStore 0%nat (PathArr [Key "p"]) noRefs
        = Return (Found 4%nat, h1)
        /\ allOf (h1 !!! 0%nat) = Some [2%nat; 1%nat]
        /\ findPropertyInSchema (3 + n) h1 0%nat (PathArr [Key "p"]) noRefs
           = Return (Found 3%nat, h2))
  /\ (exists h1 h2,
        Legacy.findPropertyInSchema (1 + n) allOfStore (Some 0%nat) (PathArr [Key "p"])
          noRefs = Return (Found 4%nat, h1)
        /\ allOf (h1 !!! 0%nat) = Some [2%nat; 1%nat]
        /\ Legacy.findPropertyInSchema (1 + n) h1 (Some 0%nat) (PathArr [Key "p"])
             noRefs = Return (Found 3%nat, h2)).
Proof.
  split; [vm_compute; reflexivity|].
  split; do 2 eexists; (split; [vm_compute; reflexivity|]);
    split; vm_compute; reflexivity.
Qed.

End Evaluation.

(** ** [propertyIsRequiredInSchema] *)

Section Required.
Import Schemas Notions.

Lemma switchType_object n : type n = Some "object" -> switchType n = CaseObject.
Proof. intros H. unfold switchType. rewrite H. reflexivity. Qed.

Lemma includes_In l s : includes l s = true <-> In s l.
Proof.
  unfold includes. rewrite existsb_exists. split.
  - intros (x & Hin & Heq). apply String.eqb_eq in Heq. subst. exact Hin.
  - intros Hin. exists s. split; [exact Hin | apply String.eqb_refl].
Qed.

Lemma propertyIsRequired_plainObject fuel h schema first rest resolve :
  plainObject (h !!! schema) ->
  propertyIsRequiredInSchema (S fuel) h schema (PathArr (Key first :: rest)) resolve
  = if negb (includes (default [] (required (h !!! schema))) first)
    then Return (JsBool false)
    else match lookup_property (properties (h !!! schema)) first with
         | Some subschema =>
             match rest with
             | [] => Return (JsBool true)
             | _ => propertyIsRequiredInSchema fuel h subschema (PathArr rest) resolve
             end
         | None => Return (JsBool true)
         end.
Proof.
  intros (Hr & Ha & Ho & Ht).
  cbn [propertyIsRequiredInSchema propertyPathToArray].
  rewrite Hr, Ha, Ho, (switchType_object _ Ht).
  unfold get_property, property_key, segment_key.
  cbn [head requiredIncludes segment_to_string tail length].
  destruct (negb _); [reflexivity|].
  destruct (lookup_property _ _); [|reflexivity].
  destruct rest; reflexivity.
Qed.


Lemma any_requires_none (f : loc -> outcome answer) l :
  Forall (fun o => exists a, f o = Return a /\ answer_truthy a = false) l ->
  any_requires f l = Return JsUndefined.
Proof.
  induction 1 as [|o l (a & Hf & Ha) _ IH]; [reflexivity|].
  cbn [any_requires]. rewrite Hf. cbn. rewrite Ha. exact IH.
Qed.

(** C10.  When [allOf] or [oneOf] is a non-empty list and every alternative
    answers, none of them with [true], the function answers [undefined],
    which is not the boolean [false]. *)
Theorem no_alternative_requires fuel h schema path resolve :
  truthy_ref (h !!! schema) = None ->
  (exists l, l <> [] /\ (allOf (h !!! schema) = Some l \/ oneOf (h !!! schema) = Some l)) ->
  Forall (fun o => exists a, propertyIsRequiredInSchema fuel h o path resolve = Return a
                             /\ answer_truthy a = false)
    (default [] (allOf (h !!! schema)) ++ default [] (oneOf (h !!! schema))) ->
  propertyIsRequiredInSchema (S fuel) h schema path resolve = Return JsUndefined
  /\ JsUndefined <> JsBool false.
Proof.
  intros Hr (l & _ & Hl) Hall. split; [|discriminate].
  apply Forall_app in Hall as [HallOf HoneOf].
  cbn [propertyIsRequiredInSchema]. rewrite Hr.
  destruct (allOf (h !!! schema)) as [a|] eqn:Ea.
  - apply any_requires_none. exact HallOf.
  - destruct (oneOf (h !!! schema)) as [o|] eqn:Eo.
    + apply any_requires_none. exact HoneOf.
    + destruct Hl; discriminate.
Qed.


Lemma no_alternative_requires_witness :
  propertyIsRequiredInSchema 2 MoreExamples.optionalStore 0%nat (PathArr [Key "p"])
    Examples.noRefs = Return JsUndefined
  /\ JsUndefined <> JsBool false.
Proof.
  apply (no_alternative_requires 1 MoreExamples.optionalStore 0%nat (PathArr [Key "p"])
           Examples.noRefs).
  - vm_compute; reflexivity.
  - exists [1%nat]. split; [discriminate | left; vm_compute; reflexivity].
  - change (default [] (allOf (MoreExamples.optionalStore !!! 0%nat))
            ++ default [] (oneOf (MoreExamples.optionalStore !!! 0%nat)))
      with [1%nat].
    constructor; [|constructor].
    exists (JsBool false). split; vm_compute; reflexivity.
Defined.

End Required.

(** ** [findRelationshipsInSchema]: the missing foreign key *)

Section ForeignKey.
Import Schemas Notions.

(** The spread never changes the properties taken from the first node:
    their keys are all there, so each of them wins. *)
Lemma spread_allKeysPresent below above :
  allKeysPresent above -> spread below above = above.
Proof.
  destruct above as [a b c d]. unfold allKeysPresent. cbn.
  intros ([? ->] & [? ->] & [? ->] & [? ->]). reflexivity.
Qed.

Lemma followRefs_keeps fuel h resolve schema rp target rp' :
  allKeysPresent rp ->
  followRefs fuel h resolve schema rp = Return (Some (target, rp')) -> rp' = rp.
Proof.
  intros Hk. revert schema.
  induction fuel as [|fuel IH]; intros schema; cbn [followRefs]; [discriminate|].
  destruct (truthy_ref (h !!! schema)) as [r|].
  - destruct (resolve r) as [referenced|]; [|discriminate].
    rewrite spread_allKeysPresent by exact Hk. apply IH.
  - intros [= _ <-]. reflexivity.
Qed.

(** Where the specification's chain of hops resolves, the loop of the code
    ends too. *)
Lemma followRefs_resolves fuel h resolve schema rp st fk eff :
  effectiveKeywords fuel h resolve schema st fk = Return (Some eff) ->
  exists target rp', followRefs fuel h resolve schema rp = Return (Some (target, rp')).
Proof.
  revert schema rp st fk.
  induction fuel as [|fuel IH]; intros schema rp st fk;
    cbn [effectiveKeywords followRefs]; [discriminate|].
  destruct (truthy_ref (h !!! schema)) as [r|].
  - destruct (resolve r) as [referenced|]; [|discriminate].
    intros H. eapply IH. exact H.
  - intros _. eauto.
Qed.

(** A foreign key that the node declares is the effective one. *)
Lemma effectiveKeywords_own_foreignKey fuel h resolve schema st v st' fk' :
  effectiveKeywords fuel h resolve schema st (Some v) = Return (Some (st', fk')) ->
  fk' = Some v.
Proof.
  revert schema st.
  induction fuel as [|fuel IH]; intros schema st; cbn [effectiveKeywords];
    [discriminate|].
  destruct (truthy_ref (h !!! schema)) as [r|].
  - destruct (resolve r) as [referenced|]; [|discriminate]. apply IH.
  - intros [= _ <-]. reflexivity.
Qed.

Lemma inverse_ref_throws fuel h schema resolve allowedStorage limitToPath maxDepth
    currentPath nodes depth st fk :
  storage (h !!! schema) = Some "inverse-ref" ->
  effectiveRelationship fuel h resolve schema = Return (Some (st, fk)) ->
  truthy fk = false ->
  (allowedStorage = None
   \/ exists l, allowedStorage = Some l /\ In "inverse-ref" l) ->
  findRelationshipsInSchema (S fuel) h schema resolve allowedStorage limitToPath
    maxDepth currentPath nodes depth = Throw missingForeignKey.
Proof.
  intros Hst Heff Hfk Hallowed.
  assert (Hown : truthy (foreignKey (h !!! schema)) = false).
  { destruct (foreignKey (h !!! schema)) as [v|] eqn:E; [|reflexivity].
    unfold effectiveRelationship in Heff. rewrite E in Heff.
    apply effectiveKeywords_own_foreignKey in Heff. subst fk. exact Hfk. }
  destruct (followRefs_resolves _ _ _ _ (relationshipPropertiesOf (h !!! schema))
              _ _ _ Heff) as (target & rp' & Hfollow).
  assert (rp' = relationshipPropertiesOf (h !!! schema)) as ->.
  { eapply followRefs_keeps; [|exact Hfollow].
    unfold allKeysPresent, relationshipPropertiesOf; cbn. eauto. }
  cbn [findRelationshipsInSchema]. rewrite Hfollow.
  cbn [mbind outcome_bind]. unfold relationshipAt, relationshipPropertiesOf.
  cbn [rp_storage rp_foreignKeyPath read]. rewrite Hst, Hown.
  assert (match allowedStorage with
          | Some allowed => includes allowed "inverse-ref"
          | None => true
          end = true) as ->.
  { destruct Hallowed as [-> | (l & -> & Hin)]; [reflexivity|].
    apply includes_In. exact Hin. }
  reflexivity.
Qed.

(** C5, as the code has it.  Take a schema node that itself declares
    storage "inverse-ref", whose [$ref] hops all resolve and whose foreign
    key, its own or else the first one declared along the hops, is absent.
    If [allowedStorage] is unset or lists "inverse-ref", the function raises
    the schema error, and so does the method of a registry whose resolver is
    used. *)
Theorem inverse_ref_without_foreign_key fuel h reg schema allowedStorage limitToPath
    maxDepth st fk :
  storage (h !!! schema) = Some "inverse-ref" ->
  effectiveRelationship fuel h (Registry.resolveSchemaRef reg) schema
  = Return (Some (st, fk)) ->
  truthy fk = false ->
  (allowedStorage = None
   \/ exists l, allowedStorage = Some l /\ In "inverse-ref" l) ->
  findRelationshipsInSchema (S fuel) h schema (Registry.resolveSchemaRef reg)
    allowedStorage limitToPath maxDepth (PathArr []) [] 0 = Throw missingForeignKey
  /\ Registry.findRelationshipsInSchema reg (S fuel) h schema allowedStorage
       limitToPath maxDepth = Throw missingForeignKey.
Proof.
  intros Hst Heff Hfk Hallowed.
  assert (H := inverse_ref_throws fuel h schema (Registry.resolveSchemaRef reg)
                 allowedStorage limitToPath maxDepth (PathArr []) [] 0 st fk
                 Hst Heff Hfk Hallowed).
  split; [exact H | exact H].
Qed.

Lemma inverse_ref_without_foreign_key_witness :
  findRelationshipsInSchema 2 Examples.inverseRefStore 0%nat
    (Registry.resolveSchemaRef MoreExamples.inverseRefRegistry)
    None None None (PathArr []) [] 0 = Throw missingForeignKey
  /\ Registry.findRelationshipsInSchema MoreExamples.inverseRefRegistry 2
       Examples.inverseRefStore 0%nat None None None = Throw missingForeignKey.
Proof.
  apply (inverse_ref_without_foreign_key 1 Examples.inverseRefStore
           MoreExamples.inverseRefRegistry 0%nat None None None
           (Some "inverse-ref") None).
  - vm_compute; reflexivity.
  - vm_compute; reflexivity.
  - reflexivity.
  - left; reflexivity.
Defined.

(** C5, as stated, fails: with [allowedStorage = ["ref"]] the node that
    declares storage "inverse-ref" and no foreign key raises nothing; the
    call answers the empty list. *)
Lemma inverse_ref_filtered_out :
  storage (Examples.inverseRefStore !!! 0%nat) = Some "inverse-ref"
  /\ foreignKey (Examples.inverseRefStore !!! 0%nat) = None
  /\ (forall fuel e,
        findRelationshipsInSchema fuel Examples.inverseRefStore 0%nat Examples.noRefs
          (Some ["ref"]) None None (PathArr []) [] 0 <> Throw e)
  /\ Registry.findRelationshipsInSchema MoreExamples.inverseRefRegistry 2
       Examples.inverseRefStore 0%nat (Some ["ref"]) None None = Return [].
Proof.
  split; [vm_compute; reflexivity|]. split; [vm_compute; reflexivity|].
  split; [|vm_compute; reflexivity].
  intros fuel e. destruct fuel as [|[|fuel]]; vm_compute; discriminate.
Qed.

End ForeignKey.

(** ** Composition with [allOf] *)

Section AllOf.
Import Schemas Notions.

Lemma reverse_allOf_same (h : store) (schema : loc) arr :
  reverse_allOf h schema arr !!! schema = set_allOf (h !!! schema) (rev arr).
Proof. unfold reverse_allOf. apply lookup_total_insert_eq. Qed.

Lemma reverse_allOf_other (h : store) (schema : loc) arr (l : loc) :
  l <> schema -> reverse_allOf h schema arr !!! l = h !!! l.
Proof. intros Hne. unfold reverse_allOf. apply lookup_total_insert_ne. congruence. Qed.

Lemma plainObject_not_composition (h : store) (schema : loc) arr (l : loc) :
  allOf (h !!! schema) = Some arr -> plainObject (h !!! l) -> l <> schema.
Proof. intros Hs (_ & Ha & _) ->. congruence. Qed.

Lemma findProperty_plainObject fuel (h : store) (schema : loc) p sub resolve :
  plainObject (h !!! schema) ->
  lookup_property (properties (h !!! schema)) p = Some sub ->
  findPropertyInSchema (S fuel) h schema (PathArr [Key p]) resolve
  = Return (Found sub, h).
Proof.
  intros (Hr & Ha & Ho & Ht) Hp.
  cbn [findPropertyInSchema propertyPathToArray].
  rewrite Hr, Ha, Ho, (switchType_object _ Ht). unfold get_property, property_key, segment_key.
  cbn [length Nat.eqb head segment_to_string]. rewrite Hp. reflexivity.
Qed.

Lemma concat_each_all {A B} (f : A -> outcome (list B)) l rss acc :
  Forall2 (fun x r => f x = Return r) l rss ->
  concat_each f l acc = Return (acc ++ concat rss).
Proof.
  intros H. revert acc.
  induction H as [|x r l rss Hx _ IH]; intros acc; cbn [concat_each concat].
  - rewrite app_nil_r. reflexivity.
  - rewrite Hx. cbn [mbind outcome_bind]. rewrite IH, app_assoc. reflexivity.
Qed.

(** An alternative without the property is answered with something falsy
    and leaves the store as it is. *)
Lemma findProperty_lacks fuel (h : store) (c : loc) p resolve :
  lacksProperty (h !!! c) p ->
  exists r, findPropertyInSchema (S fuel) h c (PathArr [Key p]) resolve = Return (r, h)
            /\ found_truthy r = false.
Proof.
  intros (Hr & Ha & Ho & Hp).
  cbn [findPropertyInSchema propertyPathToArray length Nat.eqb]. rewrite Hr, Ha, Ho.
  destruct (switchType (h !!! c)) eqn:Et.
  - unfold get_property, property_key, segment_key. cbn [head segment_to_string].
    rewrite (Hp eq_refl). exists Null. split; reflexivity.
  - cbn [head isInteger negb]. exists Undefined. split; reflexivity.
  - exists Undefined. split; reflexivity.
Qed.

(** The loop over the alternatives passes over those without the property
    and answers at the first one that defines it. *)
Lemma findInOptions_passes_over (h : store) options (schema : loc) resolve p (b db : loc)
    rest fuel :
  plainObject (h !!! b) ->
  lookup_property (properties (h !!! b)) p = Some db ->
  forall todo done,
    default [] (options (h !!! schema)) = done ++ todo ++ b :: rest ->
    Forall (fun c : loc => lacksProperty (h !!! c) p) todo ->
    findInOptions (2 + length todo + fuel) h options schema (length done) [Key p] resolve
    = Return (Found db, h).
Proof.
  intros Hb Hdb. induction todo as [|c todo IH]; intros done Hlist Hlack.
  - change (2 + length (@nil loc) + fuel)%nat with (S (S fuel)).
    cbn [findInOptions]. rewrite Hlist. cbn [app]. rewrite list_lookup_middle by reflexivity.
    cbn [resolveOption]. destruct Hb as (Hrb & Hb). rewrite Hrb. cbn [mbind outcome_bind].
    rewrite (findProperty_plainObject fuel h b p db resolve (conj Hrb Hb) Hdb).
    reflexivity.
  - change (2 + length (c :: todo) + fuel)%nat with (S (S (S (length todo + fuel)))).
    cbn [findInOptions]. rewrite Hlist. cbn [app]. rewrite list_lookup_middle by reflexivity.
    cbn [resolveOption]. inversion Hlack as [|? ? Hc Htodo]; subst.
    pose proof Hc as (Hrc & _). rewrite Hrc. cbn [mbind outcome_bind].
    destruct (findProperty_lacks (S (length todo + fuel)) h c p resolve Hc) as (r & -> & Hf).
    cbn [mbind outcome_bind]. rewrite Hf.
    specialize (IH (done ++ [c])). rewrite length_app in IH. cbn [length] in IH.
    replace (length done + 1)%nat with (S (length done)) in IH by lia.
    apply IH; [|exact Htodo]. rewrite Hlist, <- app_assoc. reflexivity.
Qed.

(** The first copy of [findPropertyInSchema]: among the alternatives of
    [allOf], the last one that defines the property gives the answer,
    whatever alternatives without the property come after it.  The name is
    taken not to be one that every object inherits from [Object.prototype],
    for which a missing property does not read as [null]. *)
Lemma findPropertyInSchema_last_definer fuel (h : store) (schema : loc) resolve front
    (b : loc) post p (db : loc) :
  truthy_ref (h !!! schema) = None ->
  allOf (h !!! schema) = Some (front ++ b :: post) ->
  plainObject (h !!! b) ->
  lookup_property (properties (h !!! b)) p = Some db ->
  Forall (fun c : loc => lacksProperty (h !!! c) p) post ->
  PathTools.ordinaryName p ->
  findPropertyInSchema (3 + length post + fuel) h schema (PathArr [Key p]) resolve
  = Return (Found db, reverse_allOf h schema (front ++ b :: post)).
Proof.
  intros Hr Hall Hb Hdb Hpost _.
  set (h' := reverse_allOf h schema (front ++ b :: post)).
  assert (Hother : forall l : loc, allOf (h !!! l) = None -> h' !!! l = h !!! l).
  { intros l Hl. unfold h'. apply reverse_allOf_other. intros ->. congruence. }
  change (3 + length post + fuel)%nat with (S (2 + length post + fuel)).
  cbn [findPropertyInSchema propertyPathToArray length Nat.eqb].
  rewrite Hr, Hall. fold h'. rewrite <- (length_rev post).
  apply (findInOptions_passes_over h' allOf schema resolve p b db (rev front) fuel)
    with (done := []).
  - rewrite Hother by apply Hb. exact Hb.
  - rewrite Hother by apply Hb. exact Hdb.
  - unfold h'. rewrite reverse_allOf_same. cbn [set_allOf allOf default from_option id app].
    rewrite rev_app_distr. cbn [rev]. rewrite <- app_assoc. reflexivity.
  - apply List.Forall_forall. intros c Hc. apply in_rev in Hc.
    rewrite List.Forall_forall in Hpost. specialize (Hpost c Hc).
    rewrite Hother by apply Hpost. exact Hpost.
Qed.

(** The earlier copy: the last alternative, when it is an object schema,
    decides alone, whether it has the property or not. *)
Lemma legacy_last_object_decides fuel (h : store) (schema : loc) resolve front (c : loc) p :
  allOf (h !!! schema) = Some (front ++ [c]) ->
  allOf (h !!! c) = None ->
  Legacy.is_object (h !!! c) = true ->
  Legacy.findPropertyInSchema (S fuel) h (Some schema) (PathArr [Key p]) resolve
  = Return (match lookup_property (properties (h !!! c)) p with
            | Some l => Found l
            | None => Undefined
            end, reverse_allOf h schema (front ++ [c])).
Proof.
  intros Hall Hc Hobj.
  assert (Hne : c <> schema) by (intros ->; congruence).
  cbn [Legacy.findPropertyInSchema]. rewrite Hall, rev_unit.
  rewrite reverse_allOf_other by exact Hne. rewrite Hobj.
  cbn [negb Legacy.path_first Legacy.path_length head length Nat.eqb property_key
       segment_key segment_to_string].
  reflexivity.
Qed.

(** [findRelationshipsInSchema] goes through every alternative: its answer
    is the relationship of the schema itself followed by what each
    alternative answers, in order. *)
Lemma findRelationships_every_alternative fuel (h : store) (schema : loc) resolve
    alternatives allowedStorage limitToPath maxDepth own rss :
  truthy_ref (h !!! schema) = None ->
  allOf (h !!! schema) = Some alternatives ->
  (forall m, maxDepth = Some m -> 0 <= m) ->
  relationshipAt (relationshipPropertiesOf (h !!! schema)) allowedStorage [] schema 0
  = Return own ->
  Forall2
    (fun alternative r =>
       findRelationshipsInSchema (S fuel) h alternative resolve allowedStorage
         (PathArr <$> limitToPathArrOf limitToPath) maxDepth (PathArr []) [schema] 0
       = Return r)
    alternatives rss ->
  findRelationshipsInSchema (2 + fuel) h schema resolve allowedStorage limitToPath
    maxDepth (PathArr []) [] 0
  = Return (own ++ concat rss).
Proof.
  intros Hr Hall Hdepth Hown Hrss.
  change (2 + fuel)%nat with (S (S fuel)).
  cbn [findRelationshipsInSchema followRefs propertyPathToArray].
  rewrite Hr. cbn [mbind outcome_bind]. rewrite Hown. cbn [mbind outcome_bind].
  assert (stopTraversal maxDepth [] [] schema = false) as ->.
  { unfold stopTraversal. destruct maxDepth as [m|]; [|reflexivity].
    specialize (Hdepth m eq_refl).
    unfold pathDepth. cbn [propertyPathToArray length Z.of_nat].
    rewrite Z.gtb_ltb. apply Z.ltb_ge. exact Hdepth. }
  rewrite Hall. cbn [app]. apply concat_each_all. exact Hrss.
Qed.

(** C4.  The schema whose [allOf] holds two object alternatives that define
    [p] and, after them, an object alternative that defines [q] only.  The
    earlier copy of [findPropertyInSchema] stops at the last alternative
    and answers [undefined] for [p]; the first copy passes over it and
    answers the definition of the later of the two alternatives that
    define [p].  [findRelationshipsInSchema] on the same schema answers
    the relationships of both. *)
Theorem allOf_last_definition_missed fuel :
  Legacy.findPropertyInSchema (1 + fuel) Examples.trailingAllOfStore (Some 0%nat)
    (PathArr [Key "p"]) Examples.noRefs
  = Return (Undefined, reverse_allOf Examples.trailingAllOfStore 0%nat
                         [1%nat; 2%nat; 3%nat])
  /\ findPropertyInSchema (4 + fuel) Examples.trailingAllOfStore 0%nat
       (PathArr [Key "p"]) Examples.noRefs
     = Return (Found 5%nat, reverse_allOf Examples.trailingAllOfStore 0%nat
                              [1%nat; 2%nat; 3%nat])
  /\ findRelationshipsInSchema (4 + fuel) Examples.trailingAllOfStore 0%nat
       Examples.noRefs None None None (PathArr []) [] 0
     = Return [Examples.propertyRelationship "copy" 4%nat;
               Examples.propertyRelationship "ref" 5%nat].
Proof.
  split; [|split].
  - apply (legacy_last_object_decides fuel Examples.trailingAllOfStore 0%nat
             Examples.noRefs [1%nat; 2%nat] 3%nat "p"); vm_compute; reflexivity.
  - apply (findPropertyInSchema_last_definer fuel Examples.trailingAllOfStore 0%nat
             Examples.noRefs [1%nat] 2%nat [3%nat] "p" 5%nat).
    + vm_compute; reflexivity.
    + vm_compute; reflexivity.
    + repeat split; vm_compute; reflexivity.
    + vm_compute; reflexivity.
    + constructor; [|constructor]. repeat split; try (vm_compute; reflexivity).
    + unfold PathTools.ordinaryName. vm_compute. intuition discriminate.
  - vm_compute. reflexivity.
Qed.

End AllOf.

(** ** [mapPaths] on values that reach themselves *)

Section MapPathsCycles.
Import MapPaths MoreExamples.

Lemma mapM_never_returns {A B} (f : A -> outcome B) (l : list A) (x : A) :
  x ∈ l -> (forall r, f x <> Return r) -> forall r, mapM f l <> Return r.
Proof.
  intros Hin Hx. induction Hin as [x l | x y l _ IH]; intros r; cbn [mapM].
  - destruct (f x) as [b| |]; [exfalso; eapply Hx; reflexivity | |];
      cbn; discriminate.
  - destruct (f y) as [b| |]; cbn; try discriminate.
    destruct (mapM f l) as [bs| |] eqn:E; cbn; try discriminate.
    exfalso. eapply (IH Hx). reflexivity.
Qed.

(** The guard does not cover arrays.  An object whose first field holds an
    array that holds the object again is walked without end, whatever
    [visited] held at the call, as long as it did not hold the array. *)
Lemma mapPaths_object_array_cycle (m : memory) (o a : nat) key others elements
    transformPath :
  m !!! o = Obj ((key, VRef a) :: others) ->
  m !!! a = Arr elements ->
  VRef o ∈ elements ->
  forall fuel visited r,
    existsb (Nat.eqb a) visited = false ->
    mapPaths fuel m (VRef o) transformPath visited <> Return r.
Proof.
  intros Ho Ha Hin.
  assert (Hne : (a =? o)%nat = false).
  { apply Nat.eqb_neq. intros ->. rewrite Ho in Ha. discriminate. }
  induction fuel as [fuel IH] using lt_wf_ind. intros visited r Hvis.
  destruct fuel as [|fuel]; [discriminate|].
  cbn [mapPaths]. rewrite Ho.
  assert (Hskip : visited_includes (visited ++ [o]) (VRef a) = false).
  { cbn [visited_includes]. rewrite existsb_app, Hvis. cbn. rewrite Hne. reflexivity. }
  assert (Hinner : forall r', mapPaths fuel m (VRef a) transformPath (visited ++ [o])
                              <> Return r').
  { intros r'. destruct fuel as [|fuel]; [discriminate|].
    cbn [mapPaths]. rewrite Ha.
    destruct (mapM _ elements) as [ts| |] eqn:E; cbn; try discriminate.
    exfalso. revert E. apply mapM_never_returns with (x := VRef o); [exact Hin|].
    intros t. specialize (IH fuel ltac:(lia) [] ).
    destruct (mapPaths fuel m (VRef o) transformPath []) as [[t' v']| |] eqn:E';
      cbn; try discriminate.
    exfalso. eapply IH; reflexivity. }
  destruct (String.eqb key "path"); rewrite Hskip;
    (destruct (mapPaths fuel m (VRef a) transformPath (visited ++ [o]))
       as [[t' v']| |] eqn:E; cbn; try discriminate;
     exfalso; eapply Hinner; reflexivity).
Qed.

(** C9.  [mapPaths] does not return on a value that reaches itself through
    an array: for [x = {children: [x]}] no amount of fuel gives an answer.
    On an object that holds itself in a field it does return, leaving the
    field out. *)
Theorem mapPaths_diverges_through_array :
  (forall fuel transformPath r,
     mapPaths fuel cyclicMemory (VRef 0%nat) transformPath [] <> Return r)
  /\ (forall n,
        mapPaths (2 + n) selfMemory (VRef 0%nat) keepPath []
        = Return (TObject [("name", TString "n")], [0%nat])).
Proof.
  split.
  - intros fuel transformPath r.
    apply (mapPaths_object_array_cycle cyclicMemory 0%nat 1%nat "children" []
             [VRef 0%nat] transformPath); try reflexivity.
    apply list_elem_of_here.
  - intros n. vm_compute. reflexivity.
Qed.

End MapPathsCycles.

(** ** The identity guard

    When [maxDepth] is unset a traversal stops at a schema object that it
    has gone through on the way down.  The store is finite, so the walk
    ends as soon as each chain of [$ref] hops does. *)

Section CycleGuard.
Import Schemas Notions.

Context (h : store) (resolve : SchemaRefResolver) (K : nat).

Lemma followRefs_more_fuel fuel n l rp :
  followRefs fuel h resolve l rp <> OutOfFuel ->
  followRefs (fuel + n) h resolve l rp = followRefs fuel h resolve l rp.
Proof.
  revert l rp. induction fuel as [|fuel IH]; intros l rp H; [cbn in H; congruence|].
  cbn [Nat.add followRefs] in *.
  destruct (truthy_ref (h !!! l)) as [r|]; [|reflexivity].
  destruct (resolve r) as [referenced|]; [|reflexivity].
  apply IH. exact H.
Qed.

Lemma followRefsTransient_more_fuel fuel n l t :
  followRefsTransient fuel h resolve l t <> OutOfFuel ->
  followRefsTransient (fuel + n) h resolve l t = followRefsTransient fuel h resolve l t.
Proof.
  revert l t. induction fuel as [|fuel IH]; intros l t H; [cbn in H; congruence|].
  cbn [Nat.add followRefsTransient] in *.
  destruct (truthy_ref (h !!! l)) as [r|]; [|reflexivity].
  destruct (resolve r) as [referenced|]; [|reflexivity].
  apply IH. exact H.
Qed.

(** The two loops make the same hops. *)
Lemma followRefsTransient_ends fuel l rp t :
  followRefs fuel h resolve l rp <> OutOfFuel ->
  followRefsTransient fuel h resolve l t <> OutOfFuel.
Proof.
  revert l rp t. induction fuel as [|fuel IH]; intros l rp t; [cbn; congruence|].
  cbn [followRefs followRefsTransient].
  destruct (truthy_ref (h !!! l)) as [r|]; [|discriminate].
  destruct (resolve r) as [referenced|]; [|discriminate].
  apply IH.
Qed.

Lemma relationshipAt_answers rp allowed path schema depth :
  relationshipAt rp allowed path schema depth <> OutOfFuel.
Proof.
  unfold relationshipAt.
  destruct (read (rp_storage rp)) as [st|]; [|discriminate].
  destruct (truthy (Some st) && _); [|discriminate].
  destruct (String.eqb st "inverse-ref"); [|discriminate].
  destruct (negb _); discriminate.
Qed.

Lemma concat_each_answers {A B} (f : A -> outcome (list B)) l acc :
  (forall x, f x <> OutOfFuel) -> concat_each f l acc <> OutOfFuel.
Proof.
  intros Hf. revert acc.
  induction l as [|x l IH]; intros acc; cbn [concat_each]; [discriminate|].
  specialize (Hf x). destruct (f x) as [r| |]; cbn; [apply IH | discriminate | congruence].
Qed.

Lemma includes_node_elem_of nodes (x : loc) :
  includes_node nodes x = false -> x ∉ nodes.
Proof.
  unfold includes_node. intros H Hin.
  assert (existsb (Nat.eqb x) nodes = true); [|congruence].
  apply existsb_exists. exists x. split; [|apply Nat.eqb_refl].
  apply list_elem_of_In. exact Hin.
Qed.

Lemma unvisited_decreases nodes (target : loc) :
  target ∈ dom h -> target ∉ nodes ->
  (unvisited h (nodes ++ [target]) < unvisited h nodes)%nat.
Proof.
  intros Hdom Hnew. unfold unvisited. apply subset_size.
  rewrite list_to_set_app_L. split; [set_solver|].
  intros Hsub. assert (target ∈ dom h ∖ list_to_set nodes) as Hin by set_solver.
  apply Hsub in Hin. set_solver.
Qed.

Lemma outside_store_empty (l : loc) : l ∉ dom h -> h !!! l = emptyNode.
Proof.
  intros Hl. rewrite lookup_total_alt.
  apply not_elem_of_dom in Hl. rewrite Hl. reflexivity.
Qed.

Hypothesis refs_end : forall l rp, followRefs K h resolve l rp <> OutOfFuel.

Lemma followRefs_enough fuel l rp :
  (K <= fuel)%nat -> followRefs fuel h resolve l rp <> OutOfFuel.
Proof.
  intros Hle. replace fuel with (K + (fuel - K))%nat by lia.
  rewrite followRefs_more_fuel; apply refs_end.
Qed.

(** With [maxDepth] unset [findRelationshipsInSchema] answers (a list, or
    the schema error) once the fuel covers the hops and the objects of the
    store not yet gone through. *)
Lemma findRelationships_guard_ends mu :
  forall fuel schema allowedStorage limitToPath currentPath nodes depth,
    (unvisited h nodes <= mu)%nat -> (K + mu + 2 <= fuel)%nat ->
    findRelationshipsInSchema fuel h schema resolve allowedStorage limitToPath None
      currentPath nodes depth <> OutOfFuel.
Proof.
  induction mu as [mu IH] using lt_wf_ind.
  intros fuel schema allowedStorage limitToPath currentPath nodes depth Hmu Hfuel.
  destruct fuel as [|fuel]; [lia|].
  cbn [findRelationshipsInSchema].
  pose proof (followRefs_enough fuel schema (relationshipPropertiesOf (h !!! schema))
                ltac:(lia)) as Hrefs.
  destruct (followRefs fuel h resolve schema _) as [[[target rp]|]| |];
    cbn [mbind outcome_bind]; [|discriminate|discriminate|congruence].
  pose proof (relationshipAt_answers rp allowedStorage (propertyPathToArray currentPath)
                target depth) as Hrel.
  destruct (relationshipAt _ _ _ _ _) as [relationships| |];
    cbn [mbind outcome_bind]; [|discriminate|congruence].
  unfold stopTraversal.
  destruct (includes_node nodes target) eqn:Hseen; [discriminate|].
  apply includes_node_elem_of in Hseen.
  destruct (decide (target ∈ dom h)) as [Hdom|Hout].
  - pose proof (unvisited_decreases nodes target Hdom Hseen) as Hless.
    assert (Hchild : forall sub lim path d,
               findRelationshipsInSchema fuel h sub resolve allowedStorage lim None
                 path (nodes ++ [target]) d <> OutOfFuel).
    { intros sub lim path d.
      apply (IH (unvisited h (nodes ++ [target]))); lia. }
    destruct (match allOf (h !!! target) with
              | Some a => Some a
              | None => oneOf (h !!! target)
              end) as [schemaOptions|].
    + apply concat_each_answers. intros x. apply Hchild.
    + destruct (switchType (h !!! target)).
      * apply concat_each_answers. intros [property subschema]. apply Hchild.
      * destruct (limitToPathArrOf limitToPath) as [[|e lim]|];
          destruct (items (h !!! target)) as [itemsSchema|]; try discriminate.
        -- specialize (Hchild itemsSchema (PathArr <$> (tail <$> Some (e :: lim)))
                         (PathArr (propertyPathToArray currentPath ++ [wildcard]))
                         (depth + 1)).
           destruct (findRelationshipsInSchema fuel _ _ _ _ _ _ _ _ _);
             cbn; [discriminate|discriminate|congruence].
        -- specialize (Hchild itemsSchema (PathArr <$> (tail <$> None))
                         (PathArr (propertyPathToArray currentPath ++ [wildcard]))
                         (depth + 1)).
           destruct (findRelationshipsInSchema fuel _ _ _ _ _ _ _ _ _);
             cbn; [discriminate|discriminate|congruence].
      * discriminate.
  - rewrite (outside_store_empty _ Hout). cbn. discriminate.
Qed.

(** The same for [findTransientPropertiesInSchema], which never throws. *)
Lemma findTransientProperties_guard_ends mu :
  forall fuel schema limitToPath currentPath nodes,
    (unvisited h nodes <= mu)%nat -> (K + mu + 2 <= fuel)%nat ->
    findTransientPropertiesInSchema fuel h schema resolve limitToPath None
      currentPath nodes <> OutOfFuel.
Proof.
  induction mu as [mu IH] using lt_wf_ind.
  intros fuel schema limitToPath currentPath nodes Hmu Hfuel.
  destruct fuel as [|fuel]; [lia|].
  cbn [findTransientPropertiesInSchema].
  pose proof (followRefsTransient_ends fuel schema
                (relationshipPropertiesOf (h !!! schema)) (transient (h !!! schema))
                (followRefs_enough fuel schema _ ltac:(lia))) as Hrefs.
  destruct (followRefsTransient fuel h resolve schema _) as [[[target t]|]| |];
    cbn [mbind outcome_bind]; [|discriminate|discriminate|congruence].
  unfold stopTraversal.
  destruct (includes_node nodes target) eqn:Hseen; [discriminate|].
  apply includes_node_elem_of in Hseen.
  destruct (decide (target ∈ dom h)) as [Hdom|Hout].
  - pose proof (unvisited_decreases nodes target Hdom Hseen) as Hless.
    assert (Hchild : forall sub lim path,
               findTransientPropertiesInSchema fuel h sub resolve lim None
                 path (nodes ++ [target]) <> OutOfFuel).
    { intros sub lim path.
      apply (IH (unvisited h (nodes ++ [target]))); lia. }
    destruct (match allOf (h !!! target) with
              | Some a => Some a
              | None => oneOf (h !!! target)
              end) as [schemaOptions|].
    + apply concat_each_answers. intros x. apply Hchild.
    + destruct (switchType (h !!! target)).
      * apply concat_each_answers. intros [property subschema]. apply Hchild.
      * destruct (limitToPathArrOf limitToPath) as [[|e lim]|];
          destruct (items (h !!! target)) as [itemsSchema|]; try discriminate.
        -- specialize (Hchild itemsSchema (PathArr <$> (tail <$> Some (e :: lim)))
                         (PathArr (propertyPathToArray currentPath ++ [wildcard]))).
           destruct (findTransientPropertiesInSchema fuel _ _ _ _ _ _ _);
             cbn; [discriminate|discriminate|congruence].
        -- specialize (Hchild itemsSchema (PathArr <$> (tail <$> None))
                         (PathArr (propertyPathToArray currentPath ++ [wildcard]))).
           destruct (findTransientPropertiesInSchema fuel _ _ _ _ _ _ _);
             cbn; [discriminate|discriminate|congruence].
      * discriminate.
  - rewrite (outside_store_empty _ Hout). cbn. discriminate.
Qed.

End CycleGuard.

Section CycleGuardExample.
Import Schemas Notions Examples.

Lemma cyclic_refs_end l rp : followRefs 2 cyclicStore cyclicResolve l rp <> OutOfFuel.
Proof.
  cbn [followRefs].
  destruct (truthy_ref (cyclicStore !!! l)) as [r|]; [|discriminate].
  unfold cyclicResolve.
  destruct (String.eqb r "A"); [vm_compute; discriminate|].
  destruct (String.eqb r "B"); [vm_compute; discriminate|discriminate].
Qed.

(** On the two schemas that refer to each other the guard ends every
    traversal, from any schema and for any [limitToPath]. *)
Lemma cyclic_schemas_guarded fuel schema allowedStorage limitToPath :
  (8 <= fuel)%nat ->
  findRelationshipsInSchema fuel cyclicStore schema cyclicResolve allowedStorage
    limitToPath None (PathArr []) [] 0 <> OutOfFuel
  /\ findTransientPropertiesInSchema fuel cyclicStore schema cyclicResolve limitToPath
       None (PathArr []) [] <> OutOfFuel.
Proof.
  intros Hfuel.
  assert (Hsize : unvisited cyclicStore [] = 4%nat) by (vm_compute; reflexivity).
  split.
  - apply (findRelationships_guard_ends cyclicStore cyclicResolve 2 cyclic_refs_end 4);
      [rewrite Hsize; lia | lia].
  - apply (findTransientProperties_guard_ends cyclicStore cyclicResolve 2
             cyclic_refs_end 4); [rewrite Hsize; lia | lia].
Qed.

End CycleGuardExample.

(** * Further properties *)

(** ** Paths that the codec carries *)

Section PathCodecMore.
Import PathTools.

Lemma split_bracket_none s : mentions "[" s = false -> split_bracket s = None.
Proof.
  induction s as [|c s IH]; cbn [mentions split_bracket]; [reflexivity|].
  destruct (Ascii.eqb c "["); [discriminate|]. cbn. intros H. rewrite (IH H). reflexivity.
Qed.

Lemma append_cons c x y : String c x +:+ y = String c (x +:+ y).
Proof. reflexivity. Qed.

Lemma append_nil y : "" +:+ y = y.
Proof. reflexivity. Qed.

Lemma append_empty_r x : x +:+ "" = x.
Proof.
  induction x as [|c x IH]; [reflexivity|]. rewrite append_cons, IH. reflexivity.
Qed.

Lemma split_bracket_append k rest :
  mentions "[" k = false ->
  split_bracket (k +:+ String "[" rest) = Some (k, rest).
Proof.
  induction k as [|c k IH]; [reflexivity|].
  rewrite append_cons. cbn [mentions split_bracket].
  destruct (Ascii.eqb c "["); [discriminate|]. cbn [orb]. intros H.
  rewrite (IH H). reflexivity.
Qed.

Lemma concat_empty_cons x l : String.concat "" (x :: l) = x +:+ String.concat "" l.
Proof.
  destruct l as [|y l]; cbn [String.concat]; [rewrite append_empty_r|]; reflexivity.
Qed.

(** X1.  A path without an opening bracket is one segment, dots and all,
    and it is printed back as it was. *)
Theorem bracket_free_path p :
  mentions "[" p = false ->
  dottedPathToArray p = (if String.eqb p "" then [] else [Key p])
  /\ arrayToDottedPath (dottedPathToArray p) = p.
Proof.
  intros H. apply split_bracket_none in H.
  destruct p as [|c p]; [split; reflexivity|].
  assert (Hp : dottedPathToArray (String c p) = [Key (String c p)]).
  { apply dottedPathToArray_no_bracket; [exact H | discriminate]. }
  rewrite Hp. split; reflexivity.
Qed.

Lemma bracket_free_path_witness :
  dottedPathToArray "address.city" = (if String.eqb "address.city" "" then []
                                      else [Key "address.city"])
  /\ arrayToDottedPath (dottedPathToArray "address.city") = "address.city".
Proof. apply (bracket_free_path "address.city"). reflexivity. Defined.

(** X10.  The loop of [dottedPathToArray] ends: any number of turns from
    the length of the path on gives the same segments. *)
Theorem dottedPathToArray_ends path fuel :
  (String.length path <= fuel)%nat ->
  dottedPathToArray_loop fuel path [] = dottedPathToArray path.
Proof. intros H. unfold dottedPathToArray. apply dottedPathToArray_loop_fuel. exact H. Qed.

Lemma dottedPathToArray_ends_witness :
  dottedPathToArray_loop 20 "a[*].b" [] = dottedPathToArray "a[*].b".
Proof. apply (dottedPathToArray_ends "a[*].b" 20). vm_compute. lia. Defined.

Lemma length_append x y :
  String.length (x +:+ y) = (String.length x + String.length y)%nat.
Proof.
  induction x as [|c x IH]; [reflexivity|].
  rewrite append_cons. cbn [String.length]. rewrite IH. reflexivity.
Qed.

Lemma no_line_terminator_append x y :
  no_line_terminator (x +:+ y) = no_line_terminator x && no_line_terminator y.
Proof.
  induction x as [|c x IH]; [reflexivity|].
  rewrite append_cons. cbn [no_line_terminator]. rewrite IH, andb_assoc. reflexivity.
Qed.

(** The printed form of a wildcard path, and of what follows its first key. *)
Lemma wildcardPath_printed k keys last :
  arrayToDottedPath (wildcardPath (k :: keys) last)
  = k +:+ String "[" (String "*" (String "]"
      (String.concat "" (map render_segment (wildcardPath keys last))))).
Proof.
  cbn [wildcardPath arrayToDottedPath map segment_to_string].
  rewrite !concat_empty_cons. reflexivity.
Qed.

Lemma wildcardPath_rest keys last :
  let rest := String.concat "" (map render_segment (wildcardPath keys last)) in
  let printed := arrayToDottedPath (wildcardPath keys last) in
  (rest = "" /\ printed = "") \/ rest = String "." printed.
Proof.
  destruct keys as [|k keys].
  - destruct last as [k|]; [right | left; split; reflexivity].
    cbn [wildcardPath map arrayToDottedPath render_segment segment_to_string].
    rewrite !concat_empty_cons. reflexivity.
  - right. cbv zeta. rewrite wildcardPath_printed.
    cbn [wildcardPath map render_segment]. rewrite !concat_empty_cons.
    cbn [jsnum_eqb Z.eqb Pos.eqb]. reflexivity.
Qed.

Lemma wildcardPath_no_line_terminator keys last :
  Forall plainKey keys -> (forall k, last = Some k -> plainKey k) ->
  no_line_terminator (arrayToDottedPath (wildcardPath keys last)) = true.
Proof.
  intros Hkeys Hlast. induction Hkeys as [|k keys [_ Hk] _ IH].
  - destruct last as [k|]; [|reflexivity].
    destruct (Hlast k eq_refl) as [_ Hk]. cbn. rewrite append_empty_r || idtac.
    exact Hk.
  - rewrite wildcardPath_printed, no_line_terminator_append, Hk.
    cbn [no_line_terminator andb]. 
    destruct (wildcardPath_rest keys last) as [[-> _] | ->]; [reflexivity|].
    cbn [no_line_terminator]. exact IH.
Qed.

Lemma match_index_star r : match_index (String "*" (String "]" r)) = Some ("*", r).
Proof. reflexivity. Qed.

Lemma wildcardPath_parsed keys last :
  Forall plainKey keys ->
  (forall k, last = Some k -> plainKey k /\ k <> "") ->
  forall fuel acc,
    (String.length (arrayToDottedPath (wildcardPath keys last)) <= fuel)%nat ->
    dottedPathToArray_loop fuel (arrayToDottedPath (wildcardPath keys last)) acc
    = acc ++ wildcardPath keys last.
Proof.
  intros Hkeys Hlast. induction Hkeys as [|k keys Hk Hkeys IH]; intros fuel acc Hfuel.
  - destruct last as [k|].
    + destruct (Hlast k eq_refl) as [[Hb _] Hne].
      change (arrayToDottedPath (wildcardPath [] (Some k))) with k in *.
      destruct k as [|c k]; [congruence|].
      destruct fuel as [|fuel]; [cbn in Hfuel; lia|].
      cbn [dottedPathToArray_loop String.eqb].
      unfold path_regex_match. rewrite (split_bracket_none _ Hb). reflexivity.
    + destruct fuel; cbn; rewrite app_nil_r; reflexivity.
  - assert (Hnlt : no_line_terminator (arrayToDottedPath (wildcardPath keys last)) = true).
    { apply wildcardPath_no_line_terminator; [exact Hkeys|].
      intros k' E. apply Hlast. exact E. }
    rewrite wildcardPath_printed in *.
    rewrite length_append in Hfuel. cbn [String.length] in Hfuel.
    destruct fuel as [|fuel]; [lia|].
    cbn [dottedPathToArray_loop].
    assert (String.eqb (k +:+ String "[" (String "*" (String "]"
              (String.concat "" (map render_segment (wildcardPath keys last)))))) ""
            = false) as ->.
    { destruct k; reflexivity. }
    unfold path_regex_match. destruct Hk as [Hb _].
    rewrite (split_bracket_append _ _ Hb), match_index_star.
    pose proof (wildcardPath_rest keys last) as Hrest. cbv zeta in Hrest.
    destruct Hrest as [[E Hp] | E]; rewrite E in Hfuel |- *.
    + rewrite Hp in IH. cbn [no_line_terminator String.eqb Ascii.eqb Bool.eqb].
      rewrite (IH fuel) by (cbn; lia).
      cbn [wildcardPath]. rewrite <- !app_assoc. reflexivity.
    + cbn [Ascii.eqb Bool.eqb]. rewrite Hnlt. cbn [String.eqb Ascii.eqb Bool.eqb].
      rewrite (IH fuel) by (cbn [String.length] in Hfuel; lia).
      cbn [wildcardPath]. rewrite <- !app_assoc. reflexivity.
Qed.

(** X2.  Paths made of keys that are each followed by the wildcard index,
    with perhaps a last key, survive the round trip through the dotted form,
    provided no key holds an opening bracket or a line terminator and the
    last key is not empty. *)
Theorem wildcard_path_round_trip keys last :
  Forall plainKey keys ->
  (forall k, last = Some k -> plainKey k /\ k <> "") ->
  dottedPathToArray (arrayToDottedPath (wildcardPath keys last)) = wildcardPath keys last.
Proof.
  intros Hkeys Hlast. unfold dottedPathToArray.
  rewrite (wildcardPath_parsed keys last Hkeys Hlast) by lia. reflexivity.
Qed.

Lemma wildcard_path_round_trip_witness :
  dottedPathToArray (arrayToDottedPath (wildcardPath ["orders"; "lines"] (Some "sku")))
  = wildcardPath ["orders"; "lines"] (Some "sku").
Proof.
  apply (wildcard_path_round_trip ["orders"; "lines"] (Some "sku")).
  - repeat constructor.
  - intros k [= <-]. repeat split. discriminate.
Defined.

End PathCodecMore.

(** ** Trimming paths, and file name extensions *)

Section PathTrimming.
Import PathTools.

Lemma slice_drop_last {A} (l : list A) (n : Z) :
  1 <= n <= Z.of_nat (length l) ->
  slice l 0 (- n) = take (length l - Z.to_nat n) l.
Proof.
  intros Hn. unfold slice, relative_index.
  destruct (Z.ltb_spec 0 0) as [?|_]; [lia|].
  destruct (Z.ltb_spec (- n) 0) as [_|?]; [|lia].
  replace (Z.min 0 (Z.of_nat (length l))) with 0 by lia.
  replace (Z.max (Z.of_nat (length l) + - n) 0) with (Z.of_nat (length l) - n) by lia.
  cbn [Z.to_nat drop]. f_equal. lia.
Qed.

Lemma slice_keep_last {A} (l : list A) (n : Z) :
  1 <= n <= Z.of_nat (length l) ->
  slice l (- n) (Z.of_nat (length l)) = drop (length l - Z.to_nat n) l.
Proof.
  intros Hn. unfold slice, relative_index.
  destruct (Z.ltb_spec (- n) 0) as [_|?]; [|lia].
  destruct (Z.ltb_spec (Z.of_nat (length l)) 0) as [?|_]; [lia|].
  replace (Z.max (Z.of_nat (length l) + - n) 0) with (Z.of_nat (length l) - n) by lia.
  replace (Z.min (Z.of_nat (length l)) (Z.of_nat (length l)))
    with (Z.of_nat (length l)) by lia.
  replace (Z.to_nat (Z.of_nat (length l) - n)) with (length l - Z.to_nat n)%nat by lia.
  apply take_ge. rewrite length_drop. lia.
Qed.

(** X3.  For a count between 1 and the number of segments, [shortenPath]
    prints the segments without the last [n] and [tailPath] prints the last
    [n]; the two pieces make up the parsed path. *)
Theorem trim_within_bounds path (n : Z) :
  let pathArray := dottedPathToArray path in
  let keep := (length pathArray - Z.to_nat n)%nat in
  1 <= n <= Z.of_nat (length pathArray) ->
  shortenPath path n = Trimmed (arrayToDottedPath (take keep pathArray))
  /\ tailPath path n = Trimmed (arrayToDottedPath (drop keep pathArray))
  /\ take keep pathArray ++ drop keep pathArray = pathArray.
Proof.
  intros pathArray keep Hn. unfold shortenPath, tailPath. fold pathArray.
  destruct (Z.gtb_spec n (Z.of_nat (length pathArray))) as [?|_]; [lia|].
  rewrite slice_drop_last, slice_keep_last by exact Hn.
  repeat split. apply take_drop.
Qed.

Lemma trim_within_bounds_witness :
  shortenPath "a[*].b[*].c" 2
  = Trimmed (arrayToDottedPath
               (take (length (dottedPathToArray "a[*].b[*].c") - Z.to_nat 2)
                  (dottedPathToArray "a[*].b[*].c")))
  /\ tailPath "a[*].b[*].c" 2
     = Trimmed (arrayToDottedPath
                  (drop (length (dottedPathToArray "a[*].b[*].c") - Z.to_nat 2)
                     (dottedPathToArray "a[*].b[*].c")))
  /\ take (length (dottedPathToArray "a[*].b[*].c") - Z.to_nat 2)
       (dottedPathToArray "a[*].b[*].c")
     ++ drop (length (dottedPathToArray "a[*].b[*].c") - Z.to_nat 2)
          (dottedPathToArray "a[*].b[*].c")
     = dottedPathToArray "a[*].b[*].c".
Proof. apply (trim_within_bounds "a[*].b[*].c" 2). vm_compute. split; discriminate. Defined.

(** X4.  Trimming nothing does the opposite of what the count says:
    [shortenPath(path, 0)] answers the empty path, because [slice(0, -0)] is
    empty, and [tailPath(path, 0)] answers all the segments of the path,
    printed back, because [slice(-0)] is the whole array. *)
Theorem trim_zero path :
  shortenPath path 0 = Trimmed ""
  /\ tailPath path 0 = Trimmed (arrayToDottedPath (dottedPathToArray path)).
Proof.
  unfold shortenPath, tailPath.
  destruct (Z.gtb_spec 0 (Z.of_nat (length (dottedPathToArray path)))) as [?|_]; [lia|].
  unfold slice. change (- 0) with 0.
  assert (E0 : relative_index (Z.of_nat (length (dottedPathToArray path))) 0 = 0).
  { unfold relative_index. change (0 <? 0) with false. cbv iota. lia. }
  assert (E1 : relative_index (Z.of_nat (length (dottedPathToArray path)))
                 (Z.of_nat (length (dottedPathToArray path)))
               = Z.of_nat (length (dottedPathToArray path))).
  { unfold relative_index. destruct (Z.ltb_spec (Z.of_nat (length (dottedPathToArray path))) 0);
      lia. }
  rewrite E0, E1. change (Z.to_nat (0 - 0)) with 0%nat. change (Z.to_nat 0) with 0%nat.
  rewrite Z.sub_0_r, Nat2Z.id. cbn [take drop arrayToDottedPath].
  rewrite firstn_all. split; reflexivity.
Qed.

(** X5.  Both functions throw exactly when the count is larger than the
    number of segments of the parsed path; so a negative count never
    throws, and on the empty path every positive count does. *)
Theorem trim_throws_iff path (n : Z) :
  (shortenPath path n = ThrowsError <-> Z.of_nat (length (dottedPathToArray path)) < n)
  /\ (tailPath path n = ThrowsError <-> Z.of_nat (length (dottedPathToArray path)) < n)
  /\ (n < 0 -> shortenPath path n <> ThrowsError /\ tailPath path n <> ThrowsError)
  /\ (0 < n -> shortenPath "" n = ThrowsError /\ tailPath "" n = ThrowsError).
Proof.
  unfold shortenPath, tailPath. split; [|split; [|split]].
  - destruct (Z.gtb_spec n (Z.of_nat (length (dottedPathToArray path)))) as [H|H];
      split; intros; try reflexivity; try discriminate; lia.
  - destruct (Z.gtb_spec n (Z.of_nat (length (dottedPathToArray path)))) as [H|H];
      split; intros; try reflexivity; try discriminate; lia.
  - intros Hn.
    destruct (Z.gtb_spec n (Z.of_nat (length (dottedPathToArray path)))) as [H|H];
      [lia | split; discriminate].
  - intros Hn. change (dottedPathToArray "") with (@nil segment).
    change (Z.of_nat (length (@nil segment))) with 0.
    destruct (Z.gtb_spec n 0) as [H|H]; [split; reflexivity | lia].
Qed.

Lemma trim_throws_iff_witness :
  shortenPath "a[*].b" (-1) <> ThrowsError /\ tailPath "a[*].b" (-1) <> ThrowsError.
Proof. apply (proj1 (proj2 (proj2 (trim_throws_iff "a[*].b" (-1))))). lia. Defined.

Lemma lastIndexOf_from_absent s c i found :
  mentions c s = false -> lastIndexOf_from s c i found = found.
Proof.
  revert i found. induction s as [|a s IH]; intros i found; cbn [mentions lastIndexOf_from];
    [reflexivity|].
  destruct (Ascii.eqb a c); [discriminate|]. cbn [orb]. intros H. apply IH. exact H.
Qed.

Lemma lastIndexOf_from_append x y c i found :
  lastIndexOf_from (x +:+ y) c i found
  = lastIndexOf_from y c (i + Z.of_nat (String.length x)) (lastIndexOf_from x c i found).
Proof.
  revert i found. induction x as [|a x IH]; intros i found.
  - rewrite append_nil. cbn [String.length lastIndexOf_from Z.of_nat].
    rewrite Z.add_0_r. reflexivity.
  - rewrite append_cons. cbn [lastIndexOf_from String.length]. rewrite IH.
    f_equal. lia.
Qed.

Lemma string_drop_past x c y :
  string_drop (S (String.length x)) (x +:+ String c y) = y.
Proof.
  induction x as [|a x IH]; [reflexivity|].
  rewrite append_cons. cbn [String.length string_drop]. exact IH.
Qed.

(** X6.  The extension of [base.ext] is [ext], when [base] is not empty
    and [ext] holds no dot. *)
Theorem filenameExtension_of_name base ext :
  base <> "" -> mentions "." ext = false ->
  filenameExtension (base +:+ String "." ext) = ext.
Proof.
  intros Hbase Hext. unfold filenameExtension, lastIndexOf.
  rewrite lastIndexOf_from_append. cbn [lastIndexOf_from Ascii.eqb Bool.eqb].
  rewrite (lastIndexOf_from_absent _ _ _ _ Hext). cbn [Z.add].
  assert (Hlen : (0 < String.length base)%nat).
  { destruct base; [congruence | cbn; lia]. }
  replace (Z.max 0 (0 + Z.of_nat (String.length base)))
    with (Z.of_nat (String.length base)) by lia.
  destruct (Z.eqb_spec (Z.of_nat (String.length base)) 0) as [?|_]; [lia|].
  replace (Z.to_nat (Z.of_nat (String.length base) + 1)) with (S (String.length base))
    by lia.
  apply string_drop_past.
Qed.

Lemma filenameExtension_of_name_witness :
  filenameExtension ("person.schema" +:+ String "." "json") = "json".
Proof.
  apply (filenameExtension_of_name "person.schema" "json"); [discriminate | reflexivity].
Defined.

(** X7.  A file name with no dot after its first character has the empty
    extension: a name without dots, and also a name such as ".json". *)
Theorem filenameExtension_none filename :
  mentions "." (string_drop 1 filename) = false ->
  filenameExtension filename = "".
Proof.
  intros H. unfold filenameExtension, lastIndexOf.
  destruct filename as [|a r]; [reflexivity|].
  cbn [string_drop] in H. cbn [lastIndexOf_from].
  rewrite (lastIndexOf_from_absent _ _ _ _ H).
  destruct (Ascii.eqb a "."); reflexivity.
Qed.

Lemma filenameExtension_none_witness : filenameExtension ".json" = "".
Proof. apply (filenameExtension_none ".json"). reflexivity. Defined.

End PathTrimming.

(** ** The registry as a map *)

Section RegistryMap.
Import Schemas Registry.

Lemma ordinaryName_decide s :
  forallb (fun n => negb (String.eqb s n)) PathTools.inheritedNames = true ->
  PathTools.ordinaryName s.
Proof.
  intros H Hin. rewrite forallb_forall in H. specialize (H s Hin).
  rewrite String.eqb_refl in H. discriminate.
Qed.

(** X8.  A registered schema is what [getSchema] answers for its id, a
    second registration under the same id replaces the first, and, the id
    not being [__proto__], no other id is affected. *)
Theorem register_get (r : SchemaRegistry) id (schema : loc) :
  id <> "__proto__" ->
  getSchema (registerSchema r id schema) id = Some schema
  /\ (forall old, getSchema (registerSchema (registerSchema r id old) id schema) id
                  = Some schema)
  /\ (forall other, other <> id ->
        getSchema (registerSchema r id schema) other = getSchema r other).
Proof.
  intros _. unfold getSchema, registerSchema. cbn [schemas]. repeat split.
  - apply lookup_insert_eq.
  - intros old. apply lookup_insert_eq.
  - intros other Hne. apply lookup_insert_ne. congruence.
Qed.

Lemma register_get_witness :
  getSchema (registerSchema newRegistry "Person" 7%nat) "Person" = Some 7%nat
  /\ (forall old, getSchema (registerSchema (registerSchema newRegistry "Person" old)
                               "Person" 7%nat) "Person" = Some 7%nat)
  /\ (forall other, other <> "Person" ->
        getSchema (registerSchema newRegistry "Person" 7%nat) other
        = getSchema newRegistry other).
Proof. apply (register_get newRegistry "Person" 7%nat). discriminate. Defined.

(** X9.  Deregistering an id that is not a name inherited from
    [Object.prototype] makes [getSchema] answer [undefined] for it and leaves
    the other ids alone; deregistering right after registering a new id
    gives back the registry's content. *)
Theorem deregister_get (r : SchemaRegistry) id (schema : loc) :
  PathTools.ordinaryName id ->
  getSchema (deregisterSchema r id) id = None
  /\ (forall other, other <> id ->
        getSchema (deregisterSchema r id) other = getSchema r other)
  /\ (getSchema r id = None ->
      schemas (deregisterSchema (registerSchema r id schema) id) = schemas r).
Proof.
  intros _. unfold getSchema, registerSchema, deregisterSchema. cbn [schemas]. repeat split.
  - apply lookup_delete_eq.
  - intros other Hne. apply lookup_delete_ne. congruence.
  - intros Hfresh. rewrite delete_insert_eq. apply delete_id. exact Hfresh.
Qed.

Lemma deregister_get_witness :
  getSchema (deregisterSchema newRegistry "Person") "Person" = None
  /\ (forall other, other <> "Person" ->
        getSchema (deregisterSchema newRegistry "Person") other
        = getSchema newRegistry other)
  /\ (getSchema newRegistry "Person" = None ->
      schemas (deregisterSchema (registerSchema newRegistry "Person" 7%nat) "Person")
      = schemas newRegistry).
Proof.
  apply (deregister_get newRegistry "Person" 7%nat).
  apply ordinaryName_decide. reflexivity.
Defined.

End RegistryMap.

(** ** References that do not resolve, and references that go round *)

Section References.
Import Schemas Notions.

(** X11.  A node whose [$ref] does not resolve is passed over in silence:
    the property finder answers [undefined], both traversals answer the
    empty list (also when the node declares a storage), and the required
    check answers [false]. *)
Theorem unresolved_ref_is_absorbed fuel (h : store) (schema : loc) resolve r path
    allowedStorage limitToPath maxDepth currentPath nodes depth :
  truthy_ref (h !!! schema) = Some r ->
  resolve r = None ->
  findPropertyInSchema (S fuel) h schema path resolve = Return (Undefined, h)
  /\ findRelationshipsInSchema (S (S fuel)) h schema resolve allowedStorage limitToPath
       maxDepth currentPath nodes depth = Return []
  /\ findTransientPropertiesInSchema (S (S fuel)) h schema resolve limitToPath maxDepth
       currentPath nodes = Return []
  /\ propertyIsRequiredInSchema (S fuel) h schema path resolve = Return (JsBool false).
Proof.
  intros Href Hres. repeat split.
  - cbn [findPropertyInSchema]. rewrite Href, Hres. reflexivity.
  - cbn [findRelationshipsInSchema followRefs]. rewrite Href, Hres. reflexivity.
  - cbn [findTransientPropertiesInSchema followRefsTransient]. rewrite Href, Hres.
    reflexivity.
  - cbn [propertyIsRequiredInSchema]. rewrite Href, Hres. reflexivity.
Qed.

Lemma unresolved_ref_is_absorbed_witness :
  findPropertyInSchema 1 Examples.personStore 2%nat (PathArr [Key "name"]) Examples.noRefs
  = Return (Undefined, Examples.personStore)
  /\ findRelationshipsInSchema 2 Examples.personStore 2%nat Examples.noRefs None None
       None (PathArr []) [] 0 = Return []
  /\ findTransientPropertiesInSchema 2 Examples.personStore 2%nat Examples.noRefs None
       None (PathArr []) [] = Return []
  /\ propertyIsRequiredInSchema 1 Examples.personStore 2%nat (PathArr [Key "name"])
       Examples.noRefs = Return (JsBool false).
Proof.
  apply (unresolved_ref_is_absorbed 0 Examples.personStore 2%nat Examples.noRefs
           "#Person" (PathArr [Key "name"]) None None None (PathArr []) [] 0);
    vm_compute; reflexivity.
Defined.

(** X12.  A node whose [$ref] resolves to the node itself is never got
    past: none of the four functions returns, whatever the fuel. *)
Theorem self_reference_never_returns (h : store) (schema : loc) resolve r :
  truthy_ref (h !!! schema) = Some r ->
  resolve r = Some schema ->
  forall fuel path allowedStorage limitToPath maxDepth currentPath nodes depth,
    findPropertyInSchema fuel h schema path resolve = OutOfFuel
    /\ findRelationshipsInSchema fuel h schema resolve allowedStorage limitToPath
         maxDepth currentPath nodes depth = OutOfFuel
    /\ findTransientPropertiesInSchema fuel h schema resolve limitToPath maxDepth
         currentPath nodes = OutOfFuel
    /\ propertyIsRequiredInSchema fuel h schema path resolve = OutOfFuel.
Proof.
  intros Href Hres.
  assert (Hloop : forall fuel rp, followRefs fuel h resolve schema rp = OutOfFuel).
  { induction fuel as [|fuel IH]; intros rp; cbn [followRefs]; [reflexivity|].
    rewrite Href, Hres. apply IH. }
  assert (Hloopt : forall fuel t, followRefsTransient fuel h resolve schema t = OutOfFuel).
  { induction fuel as [|fuel IH]; intros t; cbn [followRefsTransient]; [reflexivity|].
    rewrite Href, Hres. apply IH. }
  intros fuel path allowedStorage limitToPath maxDepth currentPath nodes depth.
  repeat split.
  - revert path. induction fuel as [|fuel IH]; intros path; [reflexivity|].
    cbn [findPropertyInSchema]. rewrite Href, Hres. apply IH.
  - destruct fuel as [|fuel]; [reflexivity|].
    cbn [findRelationshipsInSchema]. rewrite Hloop. reflexivity.
  - destruct fuel as [|fuel]; [reflexivity|].
    cbn [findTransientPropertiesInSchema]. rewrite Hloopt. reflexivity.
  - revert path. induction fuel as [|fuel IH]; intros path; [reflexivity|].
    cbn [propertyIsRequiredInSchema]. rewrite Href, Hres. apply IH.
Qed.

Lemma self_reference_never_returns_witness :
  findPropertyInSchema 9 ExtraExamples.selfRefStore 0%nat (PathArr [])
    ExtraExamples.selfRefResolve = OutOfFuel
  /\ findRelationshipsInSchema 9 ExtraExamples.selfRefStore 0%nat
       ExtraExamples.selfRefResolve None None (Some 3) (PathArr []) [] 0 = OutOfFuel
  /\ findTransientPropertiesInSchema 9 ExtraExamples.selfRefStore 0%nat
       ExtraExamples.selfRefResolve None (Some 3) (PathArr []) [] = OutOfFuel
  /\ propertyIsRequiredInSchema 9 ExtraExamples.selfRefStore 0%nat (PathArr [])
       ExtraExamples.selfRefResolve = OutOfFuel.
Proof.
  apply (self_reference_never_returns ExtraExamples.selfRefStore 0%nat
           ExtraExamples.selfRefResolve "Self"); vm_compute; reflexivity.
Defined.

End References.

(** ** More on [propertyIsRequiredInSchema] *)

Section RequiredMore.
Import Schemas Notions.

(** X13.  On an object schema the answer for a single property name is
    whether [required] lists the name; whether the property exists is not
    looked at, so a listed name that is not a property is answered [true]. *)
Theorem required_ignores_existence fuel (h : store) (schema : loc) a resolve :
  plainObject (h !!! schema) ->
  propertyIsRequiredInSchema (S fuel) h schema (PathArr [Key a]) resolve
  = Return (JsBool (includes (default [] (required (h !!! schema))) a)).
Proof.
  intros Hplain. rewrite (propertyIsRequired_plainObject _ _ _ _ _ _ Hplain).
  destruct (includes _ a); cbn [negb]; [|reflexivity].
  destruct (lookup_property _ a); reflexivity.
Qed.

Lemma required_ignores_existence_witness :
  propertyIsRequiredInSchema 1 ExtraExamples.ghostStore 0%nat (PathArr [Key "ghost"])
    Examples.noRefs
  = Return (JsBool (includes (default [] (required (ExtraExamples.ghostStore !!! 0%nat)))
                      "ghost")).
Proof.
  apply (required_ignores_existence 0 ExtraExamples.ghostStore 0%nat "ghost"
           Examples.noRefs).
  repeat split; vm_compute; reflexivity.
Defined.

(** X14.  On an array schema the answer depends on the length of the path
    alone: [false] for a path of one segment, [true] for any other path.
    The [items] schema is never consulted. *)
Theorem required_under_array fuel (h : store) (schema : loc) path resolve :
  truthy_ref (h !!! schema) = None ->
  allOf (h !!! schema) = None -> oneOf (h !!! schema) = None ->
  switchType (h !!! schema) = CaseArray ->
  propertyIsRequiredInSchema (S fuel) h schema path resolve
  = Return (JsBool (negb (length (propertyPathToArray path) =? 1)%nat)).
Proof.
  intros Hr Ha Ho Ht. cbn [propertyIsRequiredInSchema]. rewrite Hr, Ha, Ho, Ht.
  destruct (length (propertyPathToArray path) =? 1)%nat; reflexivity.
Qed.

Lemma required_under_array_witness :
  propertyIsRequiredInSchema 1 ExtraExamples.arrayStore 0%nat
    (PathArr [wildcard; Key "x"]) Examples.noRefs
  = Return (JsBool (negb (length (propertyPathToArray (PathArr [wildcard; Key "x"]))
                          =? 1)%nat)).
Proof.
  apply (required_under_array 0 ExtraExamples.arrayStore 0%nat
           (PathArr [wildcard; Key "x"]) Examples.noRefs); vm_compute; reflexivity.
Defined.

Lemma any_requires_first_truthy (f : loc -> outcome answer) before a after x :
  Forall (fun o => exists y, f o = Return y /\ answer_truthy y = false) before ->
  f a = Return x -> answer_truthy x = true ->
  any_requires f (before ++ a :: after) = Return (JsBool true).
Proof.
  intros Hbefore Ha Hx. induction Hbefore as [|o l (y & Hf & Hy) _ IH]; cbn [app any_requires].
  - rewrite Ha. cbn. rewrite Hx. reflexivity.
  - rewrite Hf. cbn. rewrite Hy. exact IH.
Qed.

(** X15.  A composition is answered [true] as soon as one alternative is:
    when the alternatives before it all answer something falsy and it
    answers [true], the alternatives after it are not consulted. *)
Theorem some_alternative_requires fuel (h : store) (schema : loc) path resolve
    before a after :
  truthy_ref (h !!! schema) = None ->
  (match allOf (h !!! schema) with
   | Some l => Some l
   | None => oneOf (h !!! schema)
   end) = Some (before ++ a :: after) ->
  Forall (fun o => exists y, propertyIsRequiredInSchema fuel h o path resolve = Return y
                             /\ answer_truthy y = false) before ->
  propertyIsRequiredInSchema fuel h a path resolve = Return (JsBool true) ->
  propertyIsRequiredInSchema (S fuel) h schema path resolve = Return (JsBool true).
Proof.
  intros Hr Hopts Hbefore Ha. cbn [propertyIsRequiredInSchema]. rewrite Hr, Hopts.
  eapply any_requires_first_truthy; [exact Hbefore | exact Ha | reflexivity].
Qed.

Lemma some_alternative_requires_witness :
  propertyIsRequiredInSchema 2 ExtraExamples.oneOfStore 0%nat (PathArr [Key "p"])
    Examples.noRefs = Return (JsBool true).
Proof.
  apply (some_alternative_requires 1 ExtraExamples.oneOfStore 0%nat (PathArr [Key "p"])
           Examples.noRefs [1%nat] 2%nat []).
  - vm_compute; reflexivity.
  - vm_compute; reflexivity.
  - constructor; [|constructor]. exists (JsBool false). split; vm_compute; reflexivity.
  - vm_compute; reflexivity.
Defined.

End RequiredMore.

(** ** What [findPropertyInSchema] leaves behind *)

Section PropertyFinderFrame.
Import Schemas Notions Frames.

Lemma sameButAllOfOrder_refl n : sameButAllOfOrder n n.
Proof. left. reflexivity. Qed.

Lemma sameButAllOfOrder_trans n1 n2 n3 :
  sameButAllOfOrder n1 n2 -> sameButAllOfOrder n2 n3 -> sameButAllOfOrder n1 n3.
Proof.
  intros [-> | (a & a' & Ha & Hp & ->)] [-> | (b & b' & Hb & Hq & ->)].
  - left; reflexivity.
  - right. eauto.
  - right. eauto.
  - right. cbn [set_allOf allOf] in Hb. injection Hb as <-.
    exists a, b'. split; [exact Ha|]. split; [etransitivity; eassumption|]. reflexivity.
Qed.

Lemma storesAgree_refl h : storesAgree h h.
Proof. intros l. apply sameButAllOfOrder_refl. Qed.

Lemma storesAgree_trans h1 h2 h3 :
  storesAgree h1 h2 -> storesAgree h2 h3 -> storesAgree h1 h3.
Proof. intros H12 H23 l. eapply sameButAllOfOrder_trans; [apply H12 | apply H23]. Qed.

Lemma storesAgree_reverse (h : store) (schema : loc) arr :
  allOf (h !!! schema) = Some arr -> storesAgree h (reverse_allOf h schema arr).
Proof.
  intros Harr l. unfold reverse_allOf.
  destruct (decide (l = schema)) as [->|Hne].
  - rewrite lookup_total_insert_eq. right. exists arr, (rev arr).
    split; [exact Harr|]. split; [apply Permutation_rev | reflexivity].
  - rewrite lookup_total_insert_ne by congruence. left. reflexivity.
Qed.

Lemma findProperty_storesAgree resolve fuel :
  (forall (h : store) (schema : loc) path r h',
     findPropertyInSchema fuel h schema path resolve = Return (r, h') -> storesAgree h h')
  /\ (forall (h : store) options (schema : loc) i pathArr r h',
        findInOptions fuel h options schema i pathArr resolve = Return (r, h') ->
        storesAgree h h').
Proof.
  induction fuel as [|fuel [IHfind IHopts]]; [split; intros; discriminate|].
  split.
  - intros h schema path r h'. cbn [findPropertyInSchema].
    destruct (truthy_ref (h !!! schema)) as [ref|].
    { destruct (resolve ref) as [referenced|].
      - apply IHfind.
      - intros [= <- <-]. apply storesAgree_refl. }
    destruct (length (propertyPathToArray path) =? 0)%nat.
    { intros [= <- <-]. apply storesAgree_refl. }
    destruct (allOf (h !!! schema)) as [arr|] eqn:Earr.
    { intros H. eapply storesAgree_trans; [apply storesAgree_reverse; exact Earr|].
      eapply IHopts. exact H. }
    destruct (oneOf (h !!! schema)) as [arr|]. { apply IHopts. }
    destruct (switchType (h !!! schema)).
    + destruct (get_property _ _) as [sub| |];
        [|intros [= <- <-]; apply storesAgree_refl..].
      destruct (length (propertyPathToArray path) =? 1)%nat; [|apply IHfind].
      intros [= <- <-]. apply storesAgree_refl.
    + destruct (negb _); [intros [= <- <-]; apply storesAgree_refl|].
      destruct (items (h !!! schema)) as [sub|]; [apply IHfind|].
      intros [= <- <-]. apply storesAgree_refl.
    + intros [= <- <-]. apply storesAgree_refl.
  - intros h options schema i pathArr r h'. cbn [findInOptions].
    destruct (default [] (options (h !!! schema)) !! i) as [schemaOption|];
      [|intros [= <- <-]; apply storesAgree_refl].
    destruct (resolveOption fuel h resolve (Some schemaOption)) as [[opt|]| |];
      cbn [mbind outcome_bind]; try discriminate; [|apply IHopts].
    destruct (findPropertyInSchema fuel h opt (PathArr pathArr) resolve)
      as [[result h1]| |] eqn:E; cbn [mbind outcome_bind]; try discriminate.
    apply IHfind in E.
    destruct (found_truthy result).
    + intros [= <- <-]. exact E.
    + intros H. eapply storesAgree_trans; [exact E|]. eapply IHopts. exact H.
Qed.

(** X16.  Whatever [findPropertyInSchema] answers, the store it leaves
    differs from the one it was given at most in the order of [allOf]
    arrays; an object without [allOf] is left as it was. *)
Theorem findPropertyInSchema_frame fuel (h : store) (schema : loc) path resolve r h' :
  findPropertyInSchema fuel h schema path resolve = Return (r, h') ->
  storesAgree h h'
  /\ (forall l : loc, allOf (h !!! l) = None -> h' !!! l = h !!! l).
Proof.
  intros H. apply (proj1 (findProperty_storesAgree resolve fuel)) in H.
  split; [exact H|]. intros l Hl.
  destruct (H l) as [-> | (arr & _ & Harr & _)]; [reflexivity | congruence].
Qed.

Lemma findPropertyInSchema_frame_witness :
  storesAgree Examples.allOfStore (reverse_allOf Examples.allOfStore 0%nat [1%nat; 2%nat])
  /\ (forall l : loc, allOf (Examples.allOfStore !!! l) = None ->
        reverse_allOf Examples.allOfStore 0%nat [1%nat; 2%nat] !!! l
        = Examples.allOfStore !!! l).
Proof.
  apply (findPropertyInSchema_frame 3 Examples.allOfStore 0%nat (PathArr [Key "p"])
           Examples.noRefs (Found 4%nat)).
  vm_compute. reflexivity.
Defined.

(** X17.  In a store without references and compositions, and for a path
    that names nothing inherited from [Object.prototype], the property
    finder needs one call per segment and one more, answers what walking
    down [properties] and [items] by hand answers, whatever the resolver,
    and leaves the store as it was. *)
Theorem findPropertyInSchema_navigates (h : store) resolve :
  plainStore h ->
  forall pathArr (schema : loc) n,
    Forall (fun e => PathTools.ordinaryName (segment_key e)) pathArr ->
    findPropertyInSchema (S (length pathArr) + n) h schema (PathArr pathArr) resolve
    = Return (navigate h schema pathArr, h).
Proof.
  intros Hplain pathArr schema n _. revert schema n.
  induction pathArr as [|e rest IH]; intros schema n;
    destruct (Hplain schema) as (Hr & Ha & Ho).
  - cbn [length Nat.add findPropertyInSchema propertyPathToArray]. rewrite Hr. reflexivity.
  - cbn [length Nat.add findPropertyInSchema propertyPathToArray Nat.eqb].
    rewrite Hr, Ha, Ho. cbn [navigate head tail].
    destruct (switchType (h !!! schema)); [| |reflexivity].
    + unfold get_property, property_key.
      destruct (lookup_property _ _) as [sub|]; [|reflexivity].
      destruct rest as [|e' rest']; [reflexivity|].
      cbn [length Nat.eqb]. apply (IH sub n).
    + destruct e as [k|[z|]]; cbn [isInteger negb]; try reflexivity.
      destruct (items (h !!! schema)) as [sub|]; [|reflexivity].
      apply (IH sub n).
Qed.

Lemma requiredStore_plain : plainStore MoreExamples.requiredStore.
Proof.
  intros l. destruct l as [|[|[|l]]]; [repeat split; reflexivity..|].
  unfold MoreExamples.requiredStore.
  rewrite !lookup_total_insert_ne, lookup_total_singleton_ne by lia.
  repeat split; reflexivity.
Qed.

Lemma findPropertyInSchema_navigates_witness :
  findPropertyInSchema (S (length [Key "address"; Key "city"]) + 0)
    MoreExamples.requiredStore 0%nat (PathArr [Key "address"; Key "city"]) Examples.noRefs
  = Return (navigate MoreExamples.requiredStore 0%nat [Key "address"; Key "city"],
            MoreExamples.requiredStore).
Proof.
  apply (findPropertyInSchema_navigates MoreExamples.requiredStore Examples.noRefs).
  - exact requiredStore_plain.
  - repeat constructor; apply ordinaryName_decide; reflexivity.
Defined.

End PropertyFinderFrame.

(** ** What [findRelationshipsInSchema] answers *)

Section RelationshipsAnswered.
Import Schemas Notions.

Lemma concat_each_Forall {A B} (P : B -> Prop) (f : A -> outcome (list B)) l acc rs :
  (forall x r, f x = Return r -> Forall P r) ->
  Forall P acc -> concat_each f l acc = Return rs -> Forall P rs.
Proof.
  intros Hf. revert acc. induction l as [|x l IH]; intros acc Hacc; cbn [concat_each].
  - intros [= <-]. exact Hacc.
  - destruct (f x) as [r| |] eqn:E; cbn [mbind outcome_bind]; try discriminate.
    apply IH. apply Forall_app. split; [exact Hacc | eapply Hf; exact E].
Qed.

(** A property of the relationship recorded at a node holds of every
    relationship answered. *)
Lemma findRelationships_Forall (P : Relationship -> Prop) (h : store) resolve
    allowedStorage maxDepth :
  (forall rp path (s : loc) d rs,
     relationshipAt rp allowedStorage path s d = Return rs -> Forall P rs) ->
  forall fuel (schema : loc) limitToPath currentPath nodes depth rs,
    findRelationshipsInSchema fuel h schema resolve allowedStorage limitToPath maxDepth
      currentPath nodes depth = Return rs ->
    Forall P rs.
Proof.
  intros Hat. induction fuel as [|fuel IH]; [discriminate|].
  intros schema limitToPath currentPath nodes depth rs.
  cbn [findRelationshipsInSchema].
  destruct (followRefs fuel h resolve schema _) as [[[target rp]|]| |];
    cbn [mbind outcome_bind]; try discriminate; [|intros [= <-]; constructor].
  destruct (relationshipAt rp allowedStorage _ target depth) as [own| |] eqn:Eown;
    cbn [mbind outcome_bind]; try discriminate.
  apply Hat in Eown.
  destruct (stopTraversal _ _ _ _); [intros [= <-]; constructor|].
  destruct (match allOf (h !!! target) with
            | Some a => Some a
            | None => oneOf (h !!! target)
            end) as [schemaOptions|].
  { apply concat_each_Forall; [|exact Eown]. intros x r. apply IH. }
  destruct (switchType (h !!! target)).
  - apply concat_each_Forall; [|exact Eown]. intros [property sub] r. apply IH.
  - destruct (limitToPathArrOf limitToPath) as [[|e lim]|];
      destruct (items (h !!! target)) as [itemsSchema|];
      try (intros [= <-]; exact Eown).
    + destruct (findRelationshipsInSchema fuel _ _ _ _ _ _ _ _ _) as [r| |] eqn:E;
        cbn [mbind outcome_bind mret outcome_ret]; try discriminate.
      intros [= <-]. apply Forall_app. split; [exact Eown | eapply IH; exact E].
    + destruct (findRelationshipsInSchema fuel _ _ _ _ _ _ _ _ _) as [r| |] eqn:E;
        cbn [mbind outcome_bind mret outcome_ret]; try discriminate.
      intros [= <-]. apply Forall_app. split; [exact Eown | eapply IH; exact E].
  - intros [= <-]. exact Eown.
Qed.

(** X18.  Every relationship answered has a non-empty storage class, and
    one that [allowedStorage] lists when it is set. *)
Theorem relationships_are_allowed fuel (h : store) (schema : loc) resolve allowedStorage
    limitToPath maxDepth currentPath nodes depth rs :
  findRelationshipsInSchema fuel h schema resolve allowedStorage limitToPath maxDepth
    currentPath nodes depth = Return rs ->
  Forall (fun r => rel_storage r <> ""
                   /\ forall allowed, allowedStorage = Some allowed ->
                                      In (rel_storage r) allowed) rs.
Proof.
  apply findRelationships_Forall.
  intros rp path s d own. unfold relationshipAt.
  destruct (read (rp_storage rp)) as [st|]; [|intros [= <-]; constructor].
  destruct (truthy (Some st)) eqn:Et; cbn [andb]; [|intros [= <-]; constructor].
  assert (Hne : st <> "").
  { intros ->. discriminate. }
  destruct (match allowedStorage with
            | Some allowed => includes allowed st
            | None => true
            end) eqn:Eal; [|intros [= <-]; constructor].
  assert (Hal : forall allowed, allowedStorage = Some allowed -> In st allowed).
  { intros allowed ->. apply includes_In. exact Eal. }
  destruct (String.eqb st "inverse-ref");
    [destruct (negb _); [discriminate|]|];
    intros [= <-]; repeat constructor; assumption.
Qed.

Lemma relationships_are_allowed_witness :
  Forall (fun r => rel_storage r <> ""
                   /\ forall allowed, @None (list string) = Some allowed ->
                                      In (rel_storage r) allowed)
    [Examples.managerRelationship "manager" 1;
     Examples.managerRelationship "manager.manager" 0].
Proof.
  apply (relationships_are_allowed 6 Examples.personStore Examples.person
           Examples.personResolve None None (Some 2) (PathArr []) [] 0).
  vm_compute. reflexivity.
Defined.

(** X19.  No relationship answered is marked [toMany], not even below an
    array; a relationship carries a foreign key path exactly when its
    storage is "inverse-ref", and then a non-empty one. *)
Theorem relationships_shape fuel (h : store) (schema : loc) resolve allowedStorage
    limitToPath maxDepth currentPath nodes depth rs :
  findRelationshipsInSchema fuel h schema resolve allowedStorage limitToPath maxDepth
    currentPath nodes depth = Return rs ->
  Forall (fun r => rel_toMany r = false
                   /\ (if String.eqb (rel_storage r) "inverse-ref"
                       then truthy (rel_foreignKeyPath r) = true
                       else rel_foreignKeyPath r = None)) rs.
Proof.
  apply findRelationships_Forall.
  intros rp path s d own. unfold relationshipAt.
  destruct (read (rp_storage rp)) as [st|]; [|intros [= <-]; constructor].
  destruct (truthy (Some st) && _); [|intros [= <-]; constructor].
  destruct (String.eqb st "inverse-ref") eqn:Est.
  - destruct (truthy (read (rp_foreignKeyPath rp))) eqn:Efk; cbn [negb]; [|discriminate].
    intros [= <-]. repeat constructor. cbn [rel_storage rel_foreignKeyPath].
    rewrite Est. exact Efk.
  - intros [= <-]. repeat constructor. cbn [rel_storage rel_foreignKeyPath].
    rewrite Est. reflexivity.
Qed.

Lemma relationships_shape_witness :
  Forall (fun r => rel_toMany r = false
                   /\ (if String.eqb (rel_storage r) "inverse-ref"
                       then truthy (rel_foreignKeyPath r) = true
                       else rel_foreignKeyPath r = None))
    [Examples.managerRelationship "manager" 1;
     Examples.managerRelationship "manager.manager" 0].
Proof.
  apply (relationships_shape 6 Examples.personStore Examples.person
           Examples.personResolve None None (Some 2) (PathArr []) [] 0).
  vm_compute. reflexivity.
Defined.

End RelationshipsAnswered.

(** ** Where the answers lie: below the current path and within the bound *)

Section PathsAnswered.
Import Schemas Notions Frames.

Lemma concat_each_Forall_In {A B} (P : B -> Prop) (f : A -> outcome (list B)) l acc rs :
  (forall x r, In x l -> f x = Return r -> Forall P r) ->
  Forall P acc -> concat_each f l acc = Return rs -> Forall P rs.
Proof.
  revert acc. induction l as [|x l IH]; intros acc Hf Hacc; cbn [concat_each].
  - intros [= <-]. exact Hacc.
  - destruct (f x) as [r| |] eqn:E; cbn [mbind outcome_bind]; try discriminate.
    apply IH.
    + intros y r' Hy. apply Hf. right. exact Hy.
    + apply Forall_app. split; [exact Hacc | eapply Hf; [left; reflexivity | exact E]].
Qed.

Lemma lookup_property_In props k (v : loc) :
  lookup_property props k = Some v -> In (k, v) props.
Proof.
  induction props as [|[k' v'] props IH]; cbn [lookup_property]; [discriminate|].
  destruct (String.eqb_spec k' k) as [->|_].
  - intros [= ->]. left. reflexivity.
  - intros H. right. apply IH. exact H.
Qed.

Lemma propertiesToTraverse_In n lim property (sub : loc) :
  In (property, sub) (propertiesToTraverse n lim) -> In (property, sub) (properties n).
Proof.
  unfold propertiesToTraverse. destruct lim as [[|[k|i] lim]|]; try (intros []).
  - destruct (lookup_property (properties n) k) as [v|] eqn:E; [|intros []].
    intros [[= <- <-]|[]]. apply lookup_property_In. exact E.
  - intros H. exact H.
Qed.

(** The [while (schema.$ref)] loops end on a schema that is not a
    reference, and every position of that schema is one of the schema
    they started from. *)
Lemma followRefs_leadsTo (h : store) resolve fuel (s : loc) rp (t : loc) rp' :
  followRefs fuel h resolve s rp = Return (Some (t, rp')) ->
  truthy_ref (h !!! t) = None
  /\ forall path u, leadsTo h resolve t path u -> leadsTo h resolve s path u.
Proof.
  revert s rp. induction fuel as [|fuel IH]; intros s rp; [discriminate|].
  cbn [followRefs]. destruct (truthy_ref (h !!! s)) as [r|] eqn:Er.
  - destruct (resolve r) as [next|] eqn:En; [|discriminate].
    intros H. apply IH in H as [Ht Hl]. split; [exact Ht|].
    intros path u Hu. eapply leadsTo_ref; [exact Er | exact En | apply Hl; exact Hu].
  - intros [= <- <-]. split; [exact Er|]. intros path u Hu. exact Hu.
Qed.

Lemma followRefsTransient_leadsTo (h : store) resolve fuel (s : loc) tr (t : loc) tr' :
  followRefsTransient fuel h resolve s tr = Return (Some (t, tr')) ->
  truthy_ref (h !!! t) = None
  /\ forall path u, leadsTo h resolve t path u -> leadsTo h resolve s path u.
Proof.
  revert s tr. induction fuel as [|fuel IH]; intros s tr; [discriminate|].
  cbn [followRefsTransient]. destruct (truthy_ref (h !!! s)) as [r|] eqn:Er.
  - destruct (resolve r) as [next|] eqn:En; [|discriminate].
    intros H. apply IH in H as [Ht Hl]. split; [exact Ht|].
    intros path u Hu. eapply leadsTo_ref; [exact Er | exact En | apply Hl; exact Hu].
  - intros [= <- <-]. split; [exact Er|]. intros path u Hu. exact Hu.
Qed.

Lemma within_bound maxDepth cur (nodes : list loc) (schema : loc) :
  stopTraversal maxDepth cur nodes schema = false ->
  forall m, maxDepth = Some m -> Z.of_nat (length (cur ++ [])) <= m.
Proof.
  intros Hstop m ->. rewrite app_nil_r. unfold stopTraversal, pathDepth in Hstop.
  cbn [propertyPathToArray] in Hstop. rewrite Z.gtb_ltb in Hstop.
  apply Z.ltb_ge in Hstop. exact Hstop.
Qed.

Lemma relationshipAt_path rp allowed cur (s : loc) d own :
  relationshipAt rp allowed cur s d = Return own ->
  Forall (fun r => rel_path r = propertyPathToDottedPath (PathArr cur)
                   /\ rel_schema r = s) own.
Proof.
  unfold relationshipAt.
  destruct (read (rp_storage rp)) as [st|]; [|intros [= <-]; constructor].
  destruct (truthy (Some st) && _); [|intros [= <-]; constructor].
  destruct (String.eqb st "inverse-ref");
    [destruct (negb _); [discriminate|]|]; intros [= <-]; repeat constructor.
Qed.

(** What is located below a child of a schema is located below the schema. *)
Lemma locatedBelow_option (h : store) resolve (s : loc) options (t : loc) cur maxDepth
    dotted (u : loc) :
  truthy_ref (h !!! s) = None -> schemaOptionsOf (h !!! s) = Some options ->
  In t options ->
  locatedBelow h resolve t cur maxDepth dotted u ->
  locatedBelow h resolve s cur maxDepth dotted u.
Proof.
  intros Hr Ho Hin (suffix & E & Hl & Hm). exists suffix. repeat split; try assumption.
  eapply leadsTo_option; eassumption.
Qed.

Lemma locatedBelow_property (h : store) resolve (s : loc) property (sub : loc) cur
    maxDepth dotted (u : loc) :
  truthy_ref (h !!! s) = None -> schemaOptionsOf (h !!! s) = None ->
  switchType (h !!! s) = CaseObject -> In (property, sub) (properties (h !!! s)) ->
  locatedBelow h resolve sub (cur ++ [Key property]) maxDepth dotted u ->
  locatedBelow h resolve s cur maxDepth dotted u.
Proof.
  intros Hr Ho Ht Hin (suffix & E & Hl & Hm). exists (Key property :: suffix).
  rewrite <- app_assoc in E, Hm. cbn [app] in E, Hm. repeat split; try assumption.
  eapply leadsTo_property; eassumption.
Qed.

Lemma locatedBelow_items (h : store) resolve (s : loc) (sub : loc) cur maxDepth dotted
    (u : loc) :
  truthy_ref (h !!! s) = None -> schemaOptionsOf (h !!! s) = None ->
  switchType (h !!! s) = CaseArray -> items (h !!! s) = Some sub ->
  locatedBelow h resolve sub (cur ++ [wildcard]) maxDepth dotted u ->
  locatedBelow h resolve s cur maxDepth dotted u.
Proof.
  intros Hr Ho Ht Hi (suffix & E & Hl & Hm). exists (wildcard :: suffix).
  rewrite <- app_assoc in E, Hm. cbn [app] in E, Hm. repeat split; try assumption.
  eapply leadsTo_items; eassumption.
Qed.

(** X20.  Every relationship answered is located in the schema: its path
    prints the current path followed by segments that lead, through
    references that resolve, alternatives, properties and [items], from the
    schema of the call to the schema recorded in the relationship; when
    [maxDepth] is set, these are at most [maxDepth] segments in all. *)
Theorem relationships_below_and_bounded (h : store) resolve allowedStorage maxDepth :
  forall fuel (schema : loc) limitToPath currentPath nodes depth rs,
    findRelationshipsInSchema fuel h schema resolve allowedStorage limitToPath maxDepth
      currentPath nodes depth = Return rs ->
    Forall (fun r => locatedBelow h resolve schema (propertyPathToArray currentPath)
                       maxDepth (rel_path r) (rel_schema r)) rs.
Proof.
  induction fuel as [|fuel IH]; [discriminate|].
  intros schema limitToPath currentPath nodes depth rs.
  cbn [findRelationshipsInSchema].
  set (cur := propertyPathToArray currentPath).
  destruct (followRefs fuel h resolve schema _) as [[[target rp]|]| |] eqn:Efollow;
    cbn [mbind outcome_bind]; try discriminate; [|intros [= <-]; constructor].
  apply followRefs_leadsTo in Efollow as [Href Hup].
  destruct (relationshipAt rp allowedStorage cur target depth) as [own| |] eqn:Eown;
    cbn [mbind outcome_bind]; try discriminate.
  apply relationshipAt_path in Eown.
  destruct (stopTraversal maxDepth cur nodes target) eqn:Hstop;
    [intros [= <-]; constructor|].
  intros Hrs.
  enough (Forall (fun r => locatedBelow h resolve target cur maxDepth (rel_path r)
                             (rel_schema r)) rs) as Hat.
  { eapply Forall_impl; [exact Hat|]. intros r (suffix & E & Hl & Hm).
    exists suffix. repeat split; [exact E | apply Hup; exact Hl | exact Hm]. }
  revert Hrs.
  assert (Hown : Forall (fun r => locatedBelow h resolve target cur maxDepth (rel_path r)
                                    (rel_schema r)) own).
  { eapply Forall_impl; [exact Eown|]. intros r [-> ->]. exists [].
    split; [rewrite app_nil_r; reflexivity|].
    split; [apply leadsTo_here; exact Href | eapply within_bound; exact Hstop]. }
  fold (schemaOptionsOf (h !!! target)).
  destruct (schemaOptionsOf (h !!! target)) as [schemaOptions|] eqn:Eopt.
  { apply concat_each_Forall_In; [|exact Hown]. intros x r Hin E. apply IH in E.
    cbn [propertyPathToArray] in E. eapply Forall_impl; [exact E|]. intros y.
    eapply locatedBelow_option; eassumption. }
  destruct (switchType (h !!! target)) eqn:Etype.
  - apply concat_each_Forall_In; [|exact Hown]. intros [property sub] r Hin E.
    apply propertiesToTraverse_In in Hin. apply IH in E. cbn [propertyPathToArray] in E.
    eapply Forall_impl; [exact E|]. intros y.
    eapply locatedBelow_property; eassumption.
  - destruct (limitToPathArrOf limitToPath) as [[|e lim]|];
      destruct (items (h !!! target)) as [itemsSchema|] eqn:Eitems;
      try (intros [= <-]; exact Hown).
    + destruct (findRelationshipsInSchema fuel _ _ _ _ _ _ _ _ _) as [r| |] eqn:E;
        cbn [mbind outcome_bind mret outcome_ret]; try discriminate.
      intros [= <-]. apply Forall_app. split; [exact Hown|].
      apply IH in E. cbn [propertyPathToArray] in E.
      eapply Forall_impl; [exact E|]. intros y.
      eapply locatedBelow_items; eassumption.
    + destruct (findRelationshipsInSchema fuel _ _ _ _ _ _ _ _ _) as [r| |] eqn:E;
        cbn [mbind outcome_bind mret outcome_ret]; try discriminate.
      intros [= <-]. apply Forall_app. split; [exact Hown|].
      apply IH in E. cbn [propertyPathToArray] in E.
      eapply Forall_impl; [exact E|]. intros y.
      eapply locatedBelow_items; eassumption.
  - intros [= <-]. exact Hown.
Qed.

Lemma relationships_below_and_bounded_witness :
  Forall (fun r => locatedBelow Examples.personStore Examples.personResolve Examples.person
                     (propertyPathToArray (PathArr [])) (Some 2) (rel_path r)
                     (rel_schema r))
    [Examples.managerRelationship "manager" 1;
     Examples.managerRelationship "manager.manager" 0].
Proof.
  apply (relationships_below_and_bounded Examples.personStore Examples.personResolve
           None (Some 2) 6 Examples.person None (PathArr []) [] 0).
  vm_compute. reflexivity.
Defined.

(** X21.  Every transient path answered is located in the schema at a
    schema marked [transient]: it prints the current path followed by
    segments that lead from the schema of the call to a schema whose
    [transient] is [true]; it is not the root path, and, when [maxDepth] is
    set, it has at most [maxDepth] segments. *)
Theorem transient_paths_below_and_bounded (h : store) resolve maxDepth :
  forall fuel (schema : loc) limitToPath currentPath nodes ps,
    findTransientPropertiesInSchema fuel h schema resolve limitToPath maxDepth
      currentPath nodes = Return ps ->
    Forall (transientBelow h resolve schema (propertyPathToArray currentPath) maxDepth) ps.
Proof.
  induction fuel as [|fuel IH]; [discriminate|].
  intros schema limitToPath currentPath nodes ps.
  cbn [findTransientPropertiesInSchema].
  set (cur := propertyPathToArray currentPath).
  destruct (followRefsTransient fuel h resolve schema _) as [[[target t]|]| |] eqn:Efollow;
    cbn [mbind outcome_bind]; try discriminate; [|intros [= <-]; constructor].
  apply followRefsTransient_leadsTo in Efollow as [Href Hup].
  destruct (stopTraversal maxDepth cur nodes target) eqn:Hstop;
    [intros [= <-]; constructor|].
  intros Hps.
  enough (Forall (transientBelow h resolve target cur maxDepth) ps) as Hat.
  { eapply Forall_impl; [exact Hat|]. intros p (suffix & u & E & Hne & Hl & Ht & Hm).
    exists suffix, u. repeat split; try assumption. apply Hup. exact Hl. }
  revert Hps.
  assert (Hown : Forall (transientBelow h resolve target cur maxDepth)
                   (if pathDepth (PathArr cur) =? 0 then []
                    else if default false (transient (h !!! target))
                         then [propertyPathToDottedPath (PathArr cur)] else [])).
  { destruct (Z.eqb_spec (pathDepth (PathArr cur)) 0) as [|Hne]; [constructor|].
    destruct (transient (h !!! target)) as [[|]|] eqn:Etr; cbn [default from_option id];
      try constructor; [|constructor].
    exists [], target. split; [rewrite app_nil_r; reflexivity|]. repeat split.
    - rewrite app_nil_r. intros Hcur. apply Hne.
      unfold pathDepth. cbn [propertyPathToArray]. rewrite Hcur. reflexivity.
    - apply leadsTo_here. exact Href.
    - exact Etr.
    - eapply within_bound. exact Hstop. }
  assert (Hstep : forall e (sub : loc) p,
             (forall path u, leadsTo h resolve sub path u ->
                             leadsTo h resolve target (e :: path) u) ->
             transientBelow h resolve sub (cur ++ [e]) maxDepth p ->
             transientBelow h resolve target cur maxDepth p).
  { intros e sub p Hedge (suffix & u & E & Hne & Hl & Ht & Hm).
    exists (e :: suffix), u. rewrite <- app_assoc in E, Hne, Hm. cbn [app] in E, Hne, Hm.
    repeat split; try assumption. apply Hedge. exact Hl. }
  fold (schemaOptionsOf (h !!! target)).
  destruct (schemaOptionsOf (h !!! target)) as [schemaOptions|] eqn:Eopt.
  { apply concat_each_Forall_In; [|exact Hown]. intros x r Hin E. apply IH in E.
    cbn [propertyPathToArray] in E. eapply Forall_impl; [exact E|].
    intros p (suffix & u & Ep & Hne & Hl & Ht & Hm). exists suffix, u.
    repeat split; try assumption. eapply leadsTo_option; eassumption. }
  destruct (switchType (h !!! target)) eqn:Etype.
  - apply concat_each_Forall_In; [|exact Hown]. intros [property sub] r Hin E.
    apply propertiesToTraverse_In in Hin. apply IH in E. cbn [propertyPathToArray] in E.
    eapply Forall_impl; [exact E|]. intros p. apply Hstep.
    intros path u Hl. eapply leadsTo_property; eassumption.
  - destruct (limitToPathArrOf limitToPath) as [[|e lim]|];
      destruct (items (h !!! target)) as [itemsSchema|] eqn:Eitems;
      try (intros [= <-]; exact Hown).
    + destruct (findTransientPropertiesInSchema fuel _ _ _ _ _ _ _) as [r| |] eqn:E;
        cbn [mbind outcome_bind mret outcome_ret]; try discriminate.
      intros [= <-]. apply Forall_app. split; [exact Hown|].
      apply IH in E. cbn [propertyPathToArray] in E.
      eapply Forall_impl; [exact E|]. intros p. apply Hstep.
      intros path u Hl. eapply leadsTo_items; eassumption.
    + destruct (findTransientPropertiesInSchema fuel _ _ _ _ _ _ _) as [r| |] eqn:E;
        cbn [mbind outcome_bind mret outcome_ret]; try discriminate.
      intros [= <-]. apply Forall_app. split; [exact Hown|].
      apply IH in E. cbn [propertyPathToArray] in E.
      eapply Forall_impl; [exact E|]. intros p. apply Hstep.
      intros path u Hl. eapply leadsTo_items; eassumption.
  - intros [= <-]. exact Hown.
Qed.

Lemma transient_paths_below_and_bounded_witness :
  Forall (transientBelow Examples.transientStore Examples.transientResolve 0%nat
            (propertyPathToArray (PathArr [])) None) ["p"].
Proof.
  apply (transient_paths_below_and_bounded Examples.transientStore
           Examples.transientResolve None 4 0%nat None (PathArr []) []).
  vm_compute. reflexivity.
Defined.

End PathsAnswered.

(** ** The two guards against cycles *)

Section Guards.
Import Schemas Notions.

(** X22.  With [maxDepth] unset, a node whose schema has been gone through
    on the way down contributes nothing, not even the relationship that the
    node itself declares. *)
Theorem visited_schema_relationship_dropped fuel (h : store) (schema : loc) resolve
    allowedStorage limitToPath currentPath nodes depth target rp own :
  followRefs fuel h resolve schema (relationshipPropertiesOf (h !!! schema))
  = Return (Some (target, rp)) ->
  relationshipAt rp allowedStorage (propertyPathToArray currentPath) target depth
  = Return own ->
  In target nodes ->
  findRelationshipsInSchema (S fuel) h schema resolve allowedStorage limitToPath None
    currentPath nodes depth = Return [].
Proof.
  intros Hfollow Hown Hin. cbn [findRelationshipsInSchema].
  rewrite Hfollow. cbn [mbind outcome_bind]. rewrite Hown. cbn [mbind outcome_bind].
  unfold stopTraversal, includes_node.
  assert (existsb (Nat.eqb target) nodes = true) as ->; [|reflexivity].
  apply existsb_exists. exists target. split; [exact Hin | apply Nat.eqb_refl].
Qed.

Lemma visited_schema_relationship_dropped_witness :
  findRelationshipsInSchema 3 Examples.personStore 2%nat Examples.personResolve None None
    None (PathArr [Key "manager"]) [Examples.person] 1 = Return [].
Proof.
  apply (visited_schema_relationship_dropped 2 Examples.personStore 2%nat
           Examples.personResolve None None (PathArr [Key "manager"]) [Examples.person] 1
           Examples.person
           (relationshipPropertiesOf (Examples.personStore !!! 2%nat))
           [Examples.managerRelationship "manager" 1]).
  - vm_compute; reflexivity.
  - vm_compute; reflexivity.
  - left; reflexivity.
Defined.

Lemma concat_each_never_returns {A B} (f : A -> outcome (list B)) l x :
  In x l -> (forall r, f x <> Return r) -> forall acc r, concat_each f l acc <> Return r.
Proof.
  intros Hin Hx. induction l as [|y l IH]; [destruct Hin|].
  intros acc r. cbn [concat_each].
  destruct Hin as [->|Hin].
  - specialize (Hx). destruct (f x) as [b| |] eqn:E; cbn; try discriminate.
    exfalso. eapply Hx. reflexivity.
  - destruct (f y) as [b| |]; cbn; try discriminate. apply IH. exact Hin.
Qed.

(** X23.  [maxDepth] does not guard a composition: when an alternative of
    a schema refers back to the schema, a traversal with [maxDepth] set
    never returns from the schema, because the path does not grow through
    [allOf] and [oneOf] and the guard on schemas gone through is off. *)
Theorem composition_cycle_never_returns (h : store) (schema a : loc) resolve r
    alternatives (m : Z) :
  truthy_ref (h !!! schema) = None ->
  (match allOf (h !!! schema) with
   | Some l => Some l
   | None => oneOf (h !!! schema)
   end) = Some alternatives ->
  In a alternatives ->
  truthy_ref (h !!! a) = Some r ->
  resolve r = Some schema ->
  forall fuel allowedStorage limitToPath currentPath nodes depth,
    Z.of_nat (length (propertyPathToArray currentPath)) <= m ->
    (forall rs, findRelationshipsInSchema fuel h schema resolve allowedStorage
                  limitToPath (Some m) currentPath nodes depth <> Return rs)
    /\ (forall ps, findTransientPropertiesInSchema fuel h schema resolve limitToPath
                     (Some m) currentPath nodes <> Return ps).
Proof.
  intros Hs Hopts Hin Ha Hres.
  assert (Hstop : forall currentPath nodes (x : loc),
             Z.of_nat (length (propertyPathToArray currentPath)) <= m ->
             stopTraversal (Some m) (propertyPathToArray currentPath) nodes x = false).
  { intros currentPath nodes x Hlen. unfold stopTraversal, pathDepth.
    cbn [propertyPathToArray]. rewrite Z.gtb_ltb. apply Z.ltb_ge. exact Hlen. }
  (* a call whose hops end at the schema never returns *)
  assert (Hrel : forall fuel,
             (forall x allowedStorage limitToPath currentPath nodes depth rs,
                x = schema \/ x = a ->
                Z.of_nat (length (propertyPathToArray currentPath)) <= m ->
                findRelationshipsInSchema fuel h x resolve allowedStorage limitToPath
                  (Some m) currentPath nodes depth <> Return rs)).
  { induction fuel as [|fuel IH]; [discriminate|].
    intros x allowedStorage limitToPath currentPath nodes depth rs Hx Hlen.
    cbn [findRelationshipsInSchema].
    assert (Hfollow : forall rp,
               followRefs fuel h resolve x rp = OutOfFuel
               \/ exists rp', followRefs fuel h resolve x rp = Return (Some (schema, rp'))).
    { intros rp. destruct Hx as [-> | ->].
      - destruct fuel as [|fuel']; [left; reflexivity|]. right.
        cbn [followRefs]. rewrite Hs. eauto.
      - destruct fuel as [|[|fuel']]; [left; reflexivity| |].
        + left. cbn [followRefs]. rewrite Ha, Hres. reflexivity.
        + right. cbn [followRefs]. rewrite Ha, Hres, Hs. eauto. }
    destruct (Hfollow (relationshipPropertiesOf (h !!! x))) as [-> | (rp' & ->)];
      [discriminate|].
    cbn [mbind outcome_bind].
    destruct (relationshipAt rp' _ _ _ _) as [own| |]; cbn [mbind outcome_bind];
      try discriminate.
    rewrite (Hstop currentPath nodes schema Hlen), Hopts.
    apply concat_each_never_returns with (x := a); [exact Hin|].
    intros rs'. apply IH; [right; reflexivity|]. cbn [propertyPathToArray]. exact Hlen. }
  assert (Htr : forall fuel,
             (forall x limitToPath currentPath nodes ps,
                x = schema \/ x = a ->
                Z.of_nat (length (propertyPathToArray currentPath)) <= m ->
                findTransientPropertiesInSchema fuel h x resolve limitToPath
                  (Some m) currentPath nodes <> Return ps)).
  { induction fuel as [|fuel IH]; [discriminate|].
    intros x limitToPath currentPath nodes ps Hx Hlen.
    cbn [findTransientPropertiesInSchema].
    assert (Hfollow : forall t,
               followRefsTransient fuel h resolve x t = OutOfFuel
               \/ exists t', followRefsTransient fuel h resolve x t
                             = Return (Some (schema, t'))).
    { intros t. destruct Hx as [-> | ->].
      - destruct fuel as [|fuel']; [left; reflexivity|]. right.
        cbn [followRefsTransient]. rewrite Hs. eauto.
      - destruct fuel as [|[|fuel']]; [left; reflexivity| |].
        + left. cbn [followRefsTransient]. rewrite Ha, Hres. reflexivity.
        + right. cbn [followRefsTransient]. rewrite Ha, Hres, Hs. eauto. }
    destruct (Hfollow (transient (h !!! x))) as [-> | (t' & ->)]; [discriminate|].
    cbn [mbind outcome_bind].
    rewrite (Hstop currentPath nodes schema Hlen), Hopts.
    apply concat_each_never_returns with (x := a); [exact Hin|].
    intros ps'. apply IH; [right; reflexivity|]. cbn [propertyPathToArray]. exact Hlen. }
  intros fuel allowedStorage limitToPath currentPath nodes depth Hlen. split.
  - intros rs. apply Hrel; [left; reflexivity | exact Hlen].
  - intros ps. apply Htr; [left; reflexivity | exact Hlen].
Qed.

Lemma composition_cycle_never_returns_witness :
  (forall rs, findRelationshipsInSchema 12 ExtraExamples.compositionCycleStore 0%nat
                ExtraExamples.compositionCycleResolve None None (Some 5) (PathArr [])
                [] 0 <> Return rs)
  /\ (forall ps, findTransientPropertiesInSchema 12 ExtraExamples.compositionCycleStore
                   0%nat ExtraExamples.compositionCycleResolve None (Some 5) (PathArr [])
                   [] <> Return ps).
Proof.
  apply (composition_cycle_never_returns ExtraExamples.compositionCycleStore 0%nat 1%nat
           ExtraExamples.compositionCycleResolve "S" [1%nat] 5).
  - vm_compute; reflexivity.
  - vm_compute; reflexivity.
  - left; reflexivity.
  - vm_compute; reflexivity.
  - vm_compute; reflexivity.
  - vm_compute. discriminate.
Defined.

(** The same schema with [maxDepth] unset: the guard on schemas gone
    through ends the traversal. *)
Lemma composition_cycle_guarded :
  findRelationshipsInSchema 4 ExtraExamples.compositionCycleStore 0%nat
    ExtraExamples.compositionCycleResolve None None None (PathArr []) [] 0 = Return []
  /\ findTransientPropertiesInSchema 4 ExtraExamples.compositionCycleStore 0%nat
       ExtraExamples.compositionCycleResolve None None (PathArr []) [] = Return [].
Proof. split; vm_compute; reflexivity. Qed.

End Guards.

(** ** [mapPaths] on objects *)

Section MapPathsObjects.
Import MapPaths MapPathsLoop.

Lemma mapPaths_object fuel (m : memory) (l : nat) fields transformPath visited :
  m !!! l = Obj fields ->
  mapPaths (S fuel) m (VRef l) transformPath visited
  = mapFields (fun v vis => mapPaths fuel m v transformPath vis) transformPath
      fields [] (visited ++ [l]).
Proof. intros H. cbn [mapPaths]. rewrite H. reflexivity. Qed.

Lemma mapPaths_primitive fuel (m : memory) v t transformPath visited :
  primitive v = Some t ->
  mapPaths (S fuel) m v transformPath visited = Return (t, visited).
Proof. destruct v; intros [= <-]; reflexivity. Qed.

Lemma set_field_new fields key v :
  ~ In key (map fst fields) -> set_field fields key v = fields ++ [(key, v)].
Proof.
  induction fields as [|[k w] fields IH]; cbn [set_field map fst In app]; [reflexivity|].
  intros Hnot. destruct (String.eqb_spec k key) as [->|_]; [tauto|].
  rewrite IH by tauto. reflexivity.
Qed.

Lemma rewrittenField_key transformPath field out :
  rewrittenField transformPath field = Some out -> fst out = fst field.
Proof.
  destruct field as [key v]. destruct v; cbn [rewrittenField primitive];
    try (intros [= <-]; reflexivity); try discriminate.
  destruct (String.eqb key "path"); intros [= <-]; reflexivity.
Qed.

Lemma mapFields_flat fuel (m : memory) transformPath :
  (forall s, snd (transformPath s) = None) ->
  forall fields outs mapped visited,
    mapM (rewrittenField transformPath) fields = Some outs ->
    NoDup (map fst mapped ++ map fst fields) ->
    mapFields (fun v vis => mapPaths (S fuel) m v transformPath vis) transformPath
      fields mapped visited
    = Return (TObject (mapped ++ outs), visited).
Proof.
  intros Hopts. induction fields as [|[key v] fields IH]; intros outs mapped visited.
  - intros [= <-] _. cbn [mapFields]. rewrite app_nil_r. reflexivity.
  - cbn [mapM]. destruct (rewrittenField transformPath (key, v)) as [out|] eqn:Eout;
      cbn [mbind option_bind]; [|discriminate].
    destruct (mapM (rewrittenField transformPath) fields) as [outs'|] eqn:Eouts;
      cbn [mbind option_bind mret option_ret]; [|discriminate].
    intros [= <-] Hnodup. cbn [map fst] in Hnodup.
    assert (Hnew : ~ In key (map fst mapped)).
    { apply NoDup_app in Hnodup as (_ & Hdisj & _). intros Hin.
      apply (Hdisj key); [apply list_elem_of_In; exact Hin | left]. }
    assert (Hnext : forall w, NoDup (map fst (mapped ++ [(key, w)]) ++ map fst fields)).
    { intros w. rewrite map_app, <- app_assoc. exact Hnodup. }
    cbn [mapFields].
    destruct v; cbn [rewrittenField primitive] in Eout; try discriminate.
    all: try (injection Eout as <-;
              destruct (String.eqb key "path");
              cbn [visited_includes]; rewrite mapPaths_primitive with (t := _) by reflexivity;
              cbn [mbind outcome_bind]; rewrite set_field_new by exact Hnew;
              rewrite (IH outs' _ visited eq_refl (Hnext _)), <- app_assoc; reflexivity).
    destruct (String.eqb key "path") eqn:Ekey; injection Eout as <-.
    + specialize (Hopts s). destruct (transformPath s) as [p o]. cbn [snd fst] in *.
      subst o. cbn [default assign fold_left]. rewrite set_field_new by exact Hnew.
      rewrite (IH outs' _ visited eq_refl (Hnext _)), <- app_assoc. reflexivity.
    + cbn [visited_includes]. rewrite mapPaths_primitive with (t := TString s) by reflexivity.
      cbn [mbind outcome_bind]. rewrite set_field_new by exact Hnew.
      rewrite (IH outs' _ visited eq_refl (Hnext _)), <- app_assoc. reflexivity.
Qed.

(** X24.  On an object whose fields hold primitives only, under distinct
    keys none of which is [__proto__], and with a transformer that gives no additional options,
    [mapPaths] answers a new object with the same keys in the same order:
    a string under the key "path" is transformed, every other field is
    kept; [visited] gains the object. *)
Theorem mapPaths_flat_object fuel (m : memory) (l : nat) fields outs transformPath visited :
  m !!! l = Obj fields ->
  mapM (rewrittenField transformPath) fields = Some outs ->
  NoDup (map fst fields) ->
  ~ In "__proto__" (map fst fields) ->
  (forall s, snd (transformPath s) = None) ->
  mapPaths (2 + fuel) m (VRef l) transformPath visited
  = Return (TObject outs, visited ++ [l]).
Proof.
  intros Hl Houts Hnodup _ Hopts. change (2 + fuel)%nat with (S (S fuel)).
  rewrite (mapPaths_object _ _ _ _ _ _ Hl).
  rewrite (mapFields_flat fuel m transformPath Hopts fields outs [] _ Houts Hnodup).
  reflexivity.
Qed.

Lemma mapPaths_flat_object_witness :
  mapPaths (2 + 0) flatMemory (VRef 0%nat) prefixPath []
  = Return (TObject [("path", TString "root.a.b"); ("label", TString "x");
                     ("count", TNumber (Int 2))], [] ++ [0%nat]).
Proof.
  apply (mapPaths_flat_object 0 flatMemory 0%nat
           [("path", VString "a.b"); ("label", VString "x"); ("count", VNumber (Int 2))]).
  - vm_compute; reflexivity.
  - vm_compute; reflexivity.
  - apply (bool_decide_unpack _). vm_compute. exact I.
  - cbn. intros H. repeat (destruct H as [H|H]; [discriminate|]). exact H.
  - reflexivity.
Defined.

Lemma mapFields_grows rec transformPath :
  (forall v vis t vis', rec v vis = Return (t, vis') -> incl vis vis') ->
  forall fields mapped vis t vis',
    mapFields rec transformPath fields mapped vis = Return (t, vis') -> incl vis vis'.
Proof.
  intros Hrec. induction fields as [|[key v] fields IH]; intros mapped vis t vis';
    cbn [mapFields].
  - intros [= _ <-]. apply incl_refl.
  - assert (Hother :
      (if visited_includes vis v then mapFields rec transformPath fields mapped vis
       else '(t0, visited') ← rec v vis;
            mapFields rec transformPath fields (set_field mapped key t0) visited')
      = Return (t, vis') -> incl vis vis').
    { destruct (visited_includes vis v); [apply IH|].
      destruct (rec v vis) as [[t0 vis0]| |] eqn:E; cbn [mbind outcome_bind];
        try discriminate.
      intros H. apply IH in H. apply Hrec in E. eapply incl_tran; eassumption. }
    destruct (String.eqb key "path"); [|exact Hother].
    destruct v; try exact Hother.
    destruct (transformPath s) as [p o]. apply IH.
Qed.

(** [visited] only grows, and an object that is walked is in it afterwards. *)
Lemma mapPaths_grows (m : memory) transformPath fuel :
  forall x vis t vis',
    mapPaths fuel m x transformPath vis = Return (t, vis') ->
    incl vis vis'
    /\ (forall l fields, x = VRef l -> m !!! l = Obj fields -> In l vis').
Proof.
  induction fuel as [|fuel IH]; [discriminate|].
  intros x vis t vis'. destruct x as [| | | | |l];
    try (cbn [mapPaths]; intros [= _ <-]; split; [apply incl_refl | discriminate]).
  destruct (m !!! l) as [fields|elements] eqn:El.
  - rewrite (mapPaths_object _ _ _ _ _ _ El). intros H.
    apply mapFields_grows in H; [|intros v vis0 t0 vis0' E; apply (IH _ _ _ _ E)].
    split.
    + intros y Hy. apply H. apply in_or_app. left. exact Hy.
    + intros l' fields' [= <-] _. apply H. apply in_or_app. right. left. reflexivity.
  - cbn [mapPaths]. rewrite El.
    destruct (mapM _ elements) as [ts| |]; cbn [mbind outcome_bind mret outcome_ret];
      try discriminate.
    intros [= _ <-]. split; [apply incl_refl|].
    intros l' fields' [= <-] Hobj. congruence.
Qed.

Lemma visited_includes_In visited (l : nat) :
  visited_includes visited (VRef l) = true <-> In l visited.
Proof.
  cbn [visited_includes]. rewrite existsb_exists. split.
  - intros (y & Hy & E). apply Nat.eqb_eq in E. subst. exact Hy.
  - intros H. exists l. split; [exact H | apply Nat.eqb_refl].
Qed.

(** X25.  An object that two fields share is answered under the first
    field only: the walk of the first field puts the object in [visited],
    and the second field is then left out of the answer. *)
Theorem mapPaths_drops_shared_object fuel (m : memory) (x o : nat) k1 k2 fields
    transformPath visited t visited' :
  m !!! x = Obj [(k1, VRef o); (k2, VRef o)] ->
  m !!! o = Obj fields ->
  x <> o -> ~ In o visited -> k1 <> "__proto__" ->
  mapPaths fuel m (VRef o) transformPath (visited ++ [x]) = Return (t, visited') ->
  mapPaths (S fuel) m (VRef x) transformPath visited
  = Return (TObject [(k1, t)], visited').
Proof.
  intros Hx Ho Hne Hnew _ Hwalk.
  rewrite (mapPaths_object _ _ _ _ _ _ Hx).
  assert (Hfirst : visited_includes (visited ++ [x]) (VRef o) = false).
  { destruct (visited_includes (visited ++ [x]) (VRef o)) eqn:E; [|reflexivity].
    apply visited_includes_In, in_app_or in E. destruct E as [E|[E|[]]]; [tauto|congruence]. }
  assert (Hsecond : visited_includes visited' (VRef o) = true).
  { apply visited_includes_In.
    apply (proj2 (mapPaths_grows m transformPath fuel _ _ _ _ Hwalk) o fields eq_refl Ho). }
  cbn [mapFields].
  destruct (String.eqb k1 "path"); rewrite Hfirst, Hwalk; cbn [mbind outcome_bind];
    (destruct (String.eqb k2 "path"); rewrite Hsecond; reflexivity).
Qed.

Lemma mapPaths_drops_shared_object_witness :
  mapPaths 3 sharedMemory (VRef 0%nat) keepPathOf []
  = Return (TObject [("first", TObject [("n", TNumber (Int 1))])], [0%nat; 1%nat]).
Proof.
  apply (mapPaths_drops_shared_object 2 sharedMemory 0%nat 1%nat "first" "second"
           [("n", VNumber (Int 1))]).
  - vm_compute; reflexivity.
  - vm_compute; reflexivity.
  - discriminate.
  - intros [].
  - discriminate.
  - vm_compute; reflexivity.
Defined.

Lemma unvisited_shrinks (m : memory) (visited vis : list nat) (l lv : nat) :
  incl (visited ++ [l]) vis -> lv ∈ dom m -> ~ In lv vis ->
  (size (dom m ∖ list_to_set (C := gset nat) (vis ++ [lv]))
   < size (dom m ∖ list_to_set (C := gset nat) (visited ++ [l])))%nat.
Proof.
  intros Hincl Hdom Hnew. apply subset_size. split.
  - intros y Hy. apply elem_of_difference in Hy as [Hy1 Hy2].
    apply elem_of_difference. split; [exact Hy1|].
    intros Hin. apply Hy2. apply elem_of_list_to_set.
    apply elem_of_list_to_set in Hin. apply list_elem_of_In in Hin.
    apply list_elem_of_In. apply in_or_app. left. apply Hincl. exact Hin.
  - intros Hsub.
    assert (Hlv : lv ∈ dom m ∖ list_to_set (C := gset nat) (visited ++ [l])).
    { apply elem_of_difference. split; [exact Hdom|].
      intros Hin. apply elem_of_list_to_set, list_elem_of_In in Hin.
      apply Hnew. apply Hincl. exact Hin. }
    apply Hsub in Hlv. apply elem_of_difference in Hlv as [_ Hlv]. apply Hlv.
    apply elem_of_list_to_set, list_elem_of_In, in_or_app. right. left. reflexivity.
Qed.

Lemma unvisited_after_push (m : memory) (visited : list nat) (l : nat) :
  (size (dom m ∖ list_to_set (C := gset nat) (visited ++ [l])) <= unvisitedCells m visited)%nat.
Proof.
  unfold unvisitedCells. apply subseteq_size. intros y Hy.
  apply elem_of_difference in Hy as [Hy1 Hy2]. apply elem_of_difference.
  split; [exact Hy1|]. intros Hin. apply Hy2.
  apply elem_of_list_to_set, list_elem_of_In in Hin.
  apply elem_of_list_to_set, list_elem_of_In, in_or_app. left. exact Hin.
Qed.

Lemma mapPaths_objects_return_aux (m : memory) transformPath :
  (forall l : nat, exists fields, m !!! l = Obj fields) ->
  forall fuel x visited,
    (1 <= fuel)%nat ->
    (forall l, x = VRef l ->
       l ∉ dom m
       \/ (size (dom m ∖ list_to_set (C := gset nat) (visited ++ [l])) + 2 <= fuel)%nat) ->
    exists t visited', mapPaths fuel m x transformPath visited = Return (t, visited').
Proof.
  intros Hobjects. induction fuel as [|fuel IH]; [lia|].
  intros x visited _ Hx.
  destruct x as [| | | | |l]; try (cbn [mapPaths]; solve [eauto]).
  destruct (Hobjects l) as (fields & Hl).
  rewrite (mapPaths_object _ _ _ _ _ _ Hl).
  destruct (Hx l eq_refl) as [Hout | Hfuel].
  { assert (fields = []) as ->.
    { rewrite lookup_total_alt in Hl. apply not_elem_of_dom in Hout.
      rewrite Hout in Hl. cbn in Hl. congruence. }
    cbn [mapFields]. eauto. }
  assert (Hloop : forall fs mapped vis,
             incl (visited ++ [l]) vis ->
             exists t visited',
               mapFields (fun v vis => mapPaths fuel m v transformPath vis) transformPath
                 fs mapped vis = Return (t, visited')).
  { induction fs as [|[key v] fs IHfs]; intros mapped vis Hincl; cbn [mapFields];
      [eauto|].
    assert (Hother : exists t visited',
      (if visited_includes vis v
       then mapFields (fun v vis => mapPaths fuel m v transformPath vis) transformPath
              fs mapped vis
       else '(t0, visited') ← mapPaths fuel m v transformPath vis;
            mapFields (fun v vis => mapPaths fuel m v transformPath vis) transformPath
              fs (set_field mapped key t0) visited')
      = Return (t, visited')).
    { destruct (visited_includes vis v) eqn:Einc; [apply IHfs; exact Hincl|].
      destruct (IH v vis) as (t0 & vis0 & E); [lia| |].
      { intros lv ->. destruct (decide (lv ∈ dom m)) as [Hdom|Hnot]; [right | left; exact Hnot].
        assert (Hnew : ~ In lv vis).
        { intros Hin. apply visited_includes_In in Hin. congruence. }
        pose proof (unvisited_shrinks m visited vis l lv Hincl Hdom Hnew). lia. }
      rewrite E. cbn [mbind outcome_bind]. apply IHfs.
      apply (mapPaths_grows m transformPath fuel) in E as [Hgrow _].
      eapply incl_tran; eassumption. }
    destruct (String.eqb key "path"); [|exact Hother].
    destruct v; try exact Hother.
    destruct (transformPath s) as [p o]. apply IHfs. exact Hincl. }
  apply Hloop. apply incl_refl.
Qed.

(** X26.  In a memory that holds objects only, [mapPaths] returns on every
    value, cyclic or not: the objects not yet in [visited], and two calls
    more, bound the depth of the walk. *)
Theorem mapPaths_objects_return (m : memory) transformPath fuel x visited :
  (forall l : nat, exists fields, m !!! l = Obj fields) ->
  (unvisitedCells m visited + 2 <= fuel)%nat ->
  exists t visited', mapPaths fuel m x transformPath visited = Return (t, visited').
Proof.
  intros Hobjects Hfuel. apply mapPaths_objects_return_aux; [exact Hobjects | lia|].
  intros l _. right. pose proof (unvisited_after_push m visited l). lia.
Qed.

Lemma selfMemory_objects (l : nat) : exists fields, MoreExamples.selfMemory !!! l = Obj fields.
Proof.
  destruct l as [|l]; [eexists; reflexivity|].
  unfold MoreExamples.selfMemory. rewrite lookup_total_singleton_ne by lia.
  eexists; reflexivity.
Qed.

Lemma mapPaths_objects_return_witness :
  exists t visited',
    mapPaths 3 MoreExamples.selfMemory (VRef 0%nat) MoreExamples.keepPath []
    = Return (t, visited').
Proof.
  apply (mapPaths_objects_return MoreExamples.selfMemory MoreExamples.keepPath 3
           (VRef 0%nat) []).
  - exact selfMemory_objects.
  - vm_compute. lia.
Defined.

End MapPathsObjects.

(** ** Where the two copies of [findPropertyInSchema] part *)

Section Copies.
Import Schemas Notions.

Lemma findProperty_missing fuel (h : store) (schema : loc) p resolve :
  plainObject (h !!! schema) ->
  lookup_property (properties (h !!! schema)) p = None ->
  findPropertyInSchema (S fuel) h schema (PathArr [Key p]) resolve = Return (Null, h).
Proof.
  intros (Hr & Ha & Ho & Ht) Hp.
  cbn [findPropertyInSchema propertyPathToArray].
  rewrite Hr, Ha, Ho, (switchType_object _ Ht). unfold get_property, property_key, segment_key.
  cbn [length Nat.eqb head segment_to_string]. rewrite Hp. reflexivity.
Qed.

(** X27.  When the last object alternative of [allOf] lacks the property
    (whose name is not one inherited from [Object.prototype]) and the one
    before it defines it, the first copy of the function goes
    on to that alternative and answers its definition, while the earlier
    copy stops at the last alternative and answers [undefined]. *)
Theorem copies_disagree_on_allOf fuel (h : store) (schema : loc) resolve before a b p da :
  let alternatives := before ++ [a; b] in
  truthy_ref (h !!! schema) = None ->
  allOf (h !!! schema) = Some alternatives ->
  plainObject (h !!! a) -> plainObject (h !!! b) ->
  lookup_property (properties (h !!! a)) p = Some da ->
  lookup_property (properties (h !!! b)) p = None ->
  PathTools.ordinaryName p ->
  findPropertyInSchema (4 + fuel) h schema (PathArr [Key p]) resolve
  = Return (Found da, reverse_allOf h schema alternatives)
  /\ Legacy.findPropertyInSchema (1 + fuel) h (Some schema) (PathArr [Key p]) resolve
     = Return (Undefined, reverse_allOf h schema alternatives).
Proof.
  intros alternatives Hr Hall Ha Hb Hda Hdb _.
  assert (Hnea : a <> schema) by (eapply plainObject_not_composition; eauto).
  assert (Hneb : b <> schema) by (eapply plainObject_not_composition; eauto).
  assert (Hrev : rev alternatives = b :: a :: rev before).
  { unfold alternatives. rewrite rev_app_distr. reflexivity. }
  set (h' := reverse_allOf h schema alternatives).
  assert (Ha' : plainObject (h' !!! a))
    by (unfold h'; rewrite reverse_allOf_other by exact Hnea; exact Ha).
  assert (Hb' : plainObject (h' !!! b))
    by (unfold h'; rewrite reverse_allOf_other by exact Hneb; exact Hb).
  assert (Hda' : lookup_property (properties (h' !!! a)) p = Some da)
    by (unfold h'; rewrite reverse_allOf_other by exact Hnea; exact Hda).
  assert (Hdb' : lookup_property (properties (h' !!! b)) p = None)
    by (unfold h'; rewrite reverse_allOf_other by exact Hneb; exact Hdb).
  assert (Hlist : default [] (allOf (h' !!! schema)) = b :: a :: rev before).
  { unfold h'. rewrite reverse_allOf_same. cbn [set_allOf allOf default from_option id].
    exact Hrev. }
  split.
  - change (4 + fuel)%nat with (S (S (S (S fuel)))).
    cbn [findPropertyInSchema propertyPathToArray length Nat.eqb].
    rewrite Hr, Hall. fold h'.
    (* the last alternative *)
    cbn [findInOptions]. rewrite Hlist. cbn [lookup list_lookup resolveOption].
    destruct Hb' as (Hrb & Hb'). rewrite Hrb. cbn [mbind outcome_bind].
    rewrite (findProperty_missing (S fuel) h' b p resolve (conj Hrb Hb') Hdb').
    cbn [mbind outcome_bind found_truthy].
    (* the one before it *)
    rewrite Hlist. cbn [lookup list_lookup].
    destruct Ha' as (Hra & Ha'). rewrite Hra. cbn [mbind outcome_bind].
    rewrite (findProperty_plainObject fuel h' a p da resolve (conj Hra Ha') Hda').
    reflexivity.
  - change (1 + fuel)%nat with (S fuel).
    cbn [Legacy.findPropertyInSchema]. rewrite Hall, Hrev. fold h'.
    destruct Hb' as (_ & _ & _ & Htb).
    unfold Legacy.is_object. rewrite Htb.
    cbn [String.eqb Ascii.eqb Bool.eqb negb Legacy.path_first Legacy.path_length
         head length Nat.eqb property_key segment_key segment_to_string].
    rewrite Hdb'. reflexivity.
Qed.

Lemma copies_disagree_on_allOf_witness :
  findPropertyInSchema (4 + 0) ExtraExamples.disjointAllOfStore 0%nat (PathArr [Key "p"])
    Examples.noRefs
  = Return (Found 3%nat, reverse_allOf ExtraExamples.disjointAllOfStore 0%nat
                           ([] ++ [1%nat; 2%nat]))
  /\ Legacy.findPropertyInSchema (1 + 0) ExtraExamples.disjointAllOfStore (Some 0%nat)
       (PathArr [Key "p"]) Examples.noRefs
     = Return (Undefined, reverse_allOf ExtraExamples.disjointAllOfStore 0%nat
                            ([] ++ [1%nat; 2%nat])).
Proof.
  apply (copies_disagree_on_allOf 0 ExtraExamples.disjointAllOfStore 0%nat Examples.noRefs
           [] 1%nat 2%nat "p" 3%nat).
  - vm_compute; reflexivity.
  - vm_compute; reflexivity.
  - repeat split; vm_compute; reflexivity.
  - repeat split; vm_compute; reflexivity.
  - vm_compute; reflexivity.
  - vm_compute; reflexivity.
  - apply ordinaryName_decide. reflexivity.
Defined.

(** X28.  A property name of two characters or more, given as a string:
    the first copy of the function finds the property, the earlier copy
    looks for a property named by the first character alone and answers
    [null] when there is none. *)
Theorem copies_disagree_on_string_path fuel (h : store) (schema : loc) resolve c c' rest sub :
  let name := String c (String c' rest) in
  PathTools.mentions "[" name = false ->
  plainObject (h !!! schema) ->
  lookup_property (properties (h !!! schema)) name = Some sub ->
  lookup_property (properties (h !!! schema)) (String c "") = None ->
  findPropertyInSchema (S fuel) h schema (PathStr name) resolve = Return (Found sub, h)
  /\ Legacy.findPropertyInSchema (S fuel) h (Some schema) (PathStr name) resolve
     = Return (Null, h).
Proof.
  intros name Hbr (Hr & Ha & Ho & Ht) Hname Hfirst.
  assert (Hparse : dottedPathToArray name = [Key name]).
  { apply dottedPathToArray_no_bracket; [|discriminate].
    apply split_bracket_none. exact Hbr. }
  split.
  - cbn [findPropertyInSchema propertyPathToArray]. rewrite Hr, Hparse, Ha, Ho.
    rewrite (switchType_object _ Ht). unfold get_property, property_key, segment_key.
    cbn [length Nat.eqb head segment_to_string]. rewrite Hname. reflexivity.
  - cbn [Legacy.findPropertyInSchema]. rewrite Ha, Ho, Hr.
    rewrite (switchType_object _ Ht). unfold get_property, property_key, segment_key, name.
    cbn [Legacy.path_first segment_to_string]. rewrite Hfirst. reflexivity.
Qed.

Lemma copies_disagree_on_string_path_witness :
  findPropertyInSchema 1 ExtraExamples.namedStore 0%nat (PathStr "name") Examples.noRefs
  = Return (Found 1%nat, ExtraExamples.namedStore)
  /\ Legacy.findPropertyInSchema 1 ExtraExamples.namedStore (Some 0%nat) (PathStr "name")
       Examples.noRefs
     = Return (Null, ExtraExamples.namedStore).
Proof.
  apply (copies_disagree_on_string_path 0 ExtraExamples.namedStore 0%nat Examples.noRefs
           "n" "a" "me" 1%nat).
  - reflexivity.
  - repeat split; vm_compute; reflexivity.
  - vm_compute; reflexivity.
  - vm_compute; reflexivity.
Defined.

End Copies.

(** ** References through the registry *)

Section RegistryReferences.
Import Schemas Notions.

(** X29.  Once a schema is registered under the id that the translator
    gives for a reference, the registry's property finder follows a node
    with that [$ref] to the registered schema: with the empty path it
    answers the schema itself, and with a property name of a plain object
    schema that property. *)
Theorem registry_follows_registered_ref fuel (h : store) (r : Registry.SchemaRegistry)
    id (schema node : loc) ref p sub :
  Registry.schemaRefTranslator r ref = id ->
  truthy_ref (h !!! node) = Some ref ->
  plainObject (h !!! schema) ->
  lookup_property (properties (h !!! schema)) p = Some sub ->
  let registry := Registry.registerSchema r id schema in
  Registry.findPropertyInSchema registry (2 + fuel) h node (PathArr [])
  = Return (Found schema, h)
  /\ Registry.findPropertyInSchema registry (2 + fuel) h node (PathArr [Key p])
     = Return (Found sub, h).
Proof.
  intros Ht Href Hplain Hp registry.
  assert (Hres : Registry.resolveSchemaRef registry ref = Some schema).
  { unfold registry, Registry.resolveSchemaRef, Registry.getSchema, Registry.registerSchema.
    cbn [Registry.schemas Registry.schemaRefTranslator]. rewrite Ht.
    apply lookup_insert_eq. }
  unfold Registry.findPropertyInSchema. change (2 + fuel)%nat with (S (S fuel)). split.
  - cbn [findPropertyInSchema propertyPathToArray]. rewrite Href, Hres.
    destruct Hplain as (Hr & _). rewrite Hr. reflexivity.
  - cbn [findPropertyInSchema]. rewrite Href, Hres.
    exact (findProperty_plainObject fuel h schema p sub _ Hplain Hp).
Qed.

Lemma registry_follows_registered_ref_witness :
  Registry.findPropertyInSchema (Registry.registerSchema Registry.newRegistry "Person" 0%nat)
    (2 + 0) ExtraExamples.referringStore 2%nat (PathArr [])
  = Return (Found 0%nat, ExtraExamples.referringStore)
  /\ Registry.findPropertyInSchema
       (Registry.registerSchema Registry.newRegistry "Person" 0%nat)
       (2 + 0) ExtraExamples.referringStore 2%nat (PathArr [Key "name"])
     = Return (Found 1%nat, ExtraExamples.referringStore).
Proof.
  apply (registry_follows_registered_ref 0 ExtraExamples.referringStore
           Registry.newRegistry "Person" 0%nat 2%nat "Person" "name" 1%nat).
  - reflexivity.
  - vm_compute; reflexivity.
  - repeat split; vm_compute; reflexivity.
  - vm_compute; reflexivity.
Defined.

End RegistryReferences.

(** ** The identity guard ends every traversal of a finite store *)

Section IdentityGuard.
Import Schemas Notions.

Lemma concat_each_no_throw {A B} (f : A -> outcome (list B)) l acc e :
  (forall x e', f x <> Throw e') -> concat_each f l acc <> Throw e.
Proof.
  intros Hf. revert acc. induction l as [|x l IH]; intros acc; cbn [concat_each];
    [discriminate|].
  pose proof (Hf x) as Hx. destruct (f x) as [r| |]; cbn; [apply IH | |discriminate].
  exfalso. eapply Hx. reflexivity.
Qed.

Lemma findTransientProperties_no_throw (h : store) resolve fuel :
  forall (schema : loc) limitToPath maxDepth currentPath nodes e,
    findTransientPropertiesInSchema fuel h schema resolve limitToPath maxDepth
      currentPath nodes <> Throw e.
Proof.
  induction fuel as [|fuel IH]; [discriminate|].
  intros schema limitToPath maxDepth currentPath nodes e.
  cbn [findTransientPropertiesInSchema].
  assert (Hloop : forall fuel' (l : loc) t e',
             followRefsTransient fuel' h resolve l t <> Throw e').
  { induction fuel' as [|fuel' IH']; intros l t e'; cbn [followRefsTransient];
      [discriminate|].
    destruct (truthy_ref (h !!! l)); [|discriminate].
    destruct (resolve s); [apply IH' | discriminate]. }
  pose proof (Hloop fuel schema (transient (h !!! schema))) as Hrefs.
  destruct (followRefsTransient fuel h resolve schema _) as [[[target t]|]| |];
    cbn [mbind outcome_bind]; try discriminate; [|exfalso; eapply Hrefs; reflexivity].
  destruct (stopTraversal _ _ _ _); [discriminate|].
  destruct (match allOf (h !!! target) with
            | Some a => Some a
            | None => oneOf (h !!! target)
            end) as [schemaOptions|].
  { apply concat_each_no_throw. intros x e'. apply IH. }
  destruct (switchType (h !!! target)).
  - apply concat_each_no_throw. intros [property sub] e'. apply IH.
  - destruct (limitToPathArrOf limitToPath) as [[|s lim]|];
      destruct (items (h !!! target)) as [itemsSchema|]; try discriminate.
    + pose proof (IH itemsSchema (PathArr <$> (tail <$> Some (s :: lim))) maxDepth
                    (PathArr (propertyPathToArray currentPath ++ [wildcard]))
                    (nodes ++ [target])) as Hc.
      destruct (findTransientPropertiesInSchema fuel _ _ _ _ _ _ _);
        cbn; [discriminate | exfalso; eapply Hc; reflexivity | discriminate].
    + pose proof (IH itemsSchema (PathArr <$> (tail <$> None)) maxDepth
                    (PathArr (propertyPathToArray currentPath ++ [wildcard]))
                    (nodes ++ [target])) as Hc.
      destruct (findTransientPropertiesInSchema fuel _ _ _ _ _ _ _);
        cbn; [discriminate | exfalso; eapply Hc; reflexivity | discriminate].
  - discriminate.
Qed.

(** X30.  With [maxDepth] unset, in a store where every chain of [$ref]
    hops ends within [K] hops, both traversals end from every schema and
    for every [limitToPath]: the hops, the objects of the store not yet gone
    through, and two calls more are fuel enough.  [findRelationshipsInSchema]
    answers a list or raises; [findTransientPropertiesInSchema] answers a
    list. *)
Theorem identity_guard_ends (h : store) resolve (K fuel : nat) (schema : loc)
    allowedStorage limitToPath currentPath nodes depth :
  (forall l rp, followRefs K h resolve l rp <> OutOfFuel) ->
  (K + unvisited h nodes + 2 <= fuel)%nat ->
  findRelationshipsInSchema fuel h schema resolve allowedStorage limitToPath None
    currentPath nodes depth <> OutOfFuel
  /\ exists ps, findTransientPropertiesInSchema fuel h schema resolve limitToPath None
                  currentPath nodes = Return ps.
Proof.
  intros Hrefs Hfuel. split.
  - apply (findRelationships_guard_ends h resolve K Hrefs (unvisited h nodes)); lia.
  - pose proof (findTransientProperties_guard_ends h resolve K Hrefs (unvisited h nodes)
                  fuel schema limitToPath currentPath nodes ltac:(lia) ltac:(lia)) as Hend.
    pose proof (findTransientProperties_no_throw h resolve fuel schema limitToPath None
                  currentPath nodes) as Hthrow.
    destruct (findTransientPropertiesInSchema fuel h schema resolve limitToPath None
                currentPath nodes) as [ps|e|]; [eauto | | congruence].
    exfalso. eapply Hthrow. reflexivity.
Qed.

Lemma identity_guard_ends_witness :
  findRelationshipsInSchema 8 Examples.cyclicStore Examples.schemaA Examples.cyclicResolve
    None None None (PathArr []) [] 0 <> OutOfFuel
  /\ exists ps, findTransientPropertiesInSchema 8 Examples.cyclicStore Examples.schemaA
                  Examples.cyclicResolve None None (PathArr []) [] = Return ps.
Proof.
  apply (identity_guard_ends Examples.cyclicStore Examples.cyclicResolve 2 8
           Examples.schemaA None None (PathArr []) [] 0).
  - exact cyclic_refs_end.
  - vm_compute. lia.
Defined.

End IdentityGuard.
